(** * EuroMillions: a shallow embedding of the lottery contract

    The contract [EuroMillions] (Solidity ^0.8.19, built on Chainlink's
    [VRFConsumerBaseV2] and OpenZeppelin's [Ownable], [Pausable] and
    [ReentrancyGuard]) is embedded as pure functions over an explicit
    storage record.  A transaction either returns the new storage or
    reverts; a revert discards every effect, which is what the error
    monad below does.

    Conventions
    - [uint256], [uint8] and [address] are [N]; the checked arithmetic of
      Solidity 0.8 is written out ([checked_add] panics on overflow).
    - [uint8[5]] and [uint8[2]] are lists; a well-typed array has the
      stated length, and that is assumed where it matters.
    - a Solidity [mapping] is a [gmap] read with the type's zero value as
      default ([mapping_get]).
    - [block.timestamp], [msg.sender] and [msg.value] come with each call
      in an [Env]; so does the behaviour of the recipients of value
      transfers ([accepts]).  Transactions are atomic: recipients do not
      call back into the contract.
    - the two rejection loops of [fulfillRandomWords] are the only
      unbounded loops; they run on a gas budget [gas : nat] counting loop
      iterations and abort with [OutOfGas] when it is used up. *)

From stdpp Require Import gmap list fin_maps sorting.
From Stdlib Require Import NArith Lia Sorted.

Local Open Scope N_scope.

(** ** Machine integers *)

Definition UINT256_MAX : N := 2 ^ 256 - 1.
Definition UINT8_MOD : N := 256.

Abbreviation address := N (only parsing).

(** ** Errors and results *)

Inductive error : Type :=
  (* custom errors declared by the contract *)
  | InvalidMainNumbers
  | InvalidLuckyStars
  | DrawNotActive
  | DrawAlreadyCompleted
  | InsufficientPayment
  | NoWinners
  | TransferFailed
  | DrawNotFound
  | RandomnessAlreadyRequested
  (* require string of emergencyWithdraw *)
  | ActiveDrawExists
  (* inherited contracts *)
  | OwnableNotOwner
  | OwnableZeroAddress
  | PausablePaused
  | PausableNotPaused
  | OnlyCoordinatorCanFulfill
  (* language level *)
  | PanicOverflow
  | PanicIndex
  | OutOfGas.

Inductive result (A : Type) : Type :=
  | Ok (a : A)
  | Err (e : error).
Arguments Ok {A} a.
Arguments Err {A} e.

#[global] Instance result_ret : MRet result := λ A a, Ok a.

#[global] Instance result_bind : MBind result := λ A B k r,
  match r with
  | Ok a => k a
  | Err e => Err e
  end.

Definition require (b : bool) (e : error) : result unit :=
  if b then Ok tt else Err e.

Definition is_ok {A : Type} (r : result A) : bool :=
  match r with Ok _ => true | Err _ => false end.

Definition checked_add (a b : N) : result N :=
  if a + b <=? UINT256_MAX then Ok (a + b) else Err PanicOverflow.

(** Bounds-checked read of a dynamic array. *)
Definition array_get {A : Type} (l : list A) (i : nat) : result A :=
  match l !! i with
  | Some x => Ok x
  | None => Err PanicIndex
  end.

(** [for (i = 0; i < n; i++) body], with a body that may revert. *)
Definition for_each {A S : Type} (body : S → A → result S)
    (xs : list A) (init : S) : result S :=
  foldl (λ acc x, s ← acc; body s x) (Ok init) xs.

(** ** Game configuration *)

Definition NUM_WORDS : N := 7.
Definition TICKET_PRICE : N := 10 ^ 16.          (* 0.01 ether *)
Definition HOUSE_FEE_PERCENT : N := 1.
Definition WINNER_PERCENT : N := 99.
Definition SEVEN_DAYS : N := 7 * 24 * 60 * 60.

(** ** Storage *)

Record Ticket : Type := mkTicket {
  mainNumbers : list N;
  luckyStars : list N;
  player : address;
  timestamp : N
}.

Record Draw : Type := mkDraw {
  drawId : N;
  totalPrizePool : N;
  totalTickets : N;
  winningMainNumbers : list N;
  winningLuckyStars : list N;
  winners : list address;
  isCompleted : bool;
  randomnessRequested : bool;
  drawStartTime : N;
  drawEndTime : N;
  ticketCounts : gmap address N;
  players : list address
}.

(** The zero value of a [Draw] in storage. *)
Definition Draw_zero : Draw :=
  mkDraw 0 0 0 (replicate 5%nat 0) (replicate 2%nat 0) [] false false 0 0 ∅ [].

(** Reading a [mapping]: a key never written holds the zero value. *)
Definition mapping_get `{Countable K} {V : Type} (zero : V) (m : gmap K V) (k : K) : V :=
  default zero (m !! k).

(** Reading a fixed-size array at an index within its size. *)
Definition at_index {A : Type} (zero : A) (l : list A) (i : nat) : A :=
  default zero (l !! i).


Inductive event : Type :=
  | TicketPurchased (d : N) (who : address) (main stars : list N) (price : N)
  | DrawCompleted (d : N) (main stars : list N) (ws : list address) (prize : N)
  | RandomnessRequested (d requestId : N)
  | DrawStarted (d startTime endTime : N)
  | PrizeDistributed (d : N) (winner : address) (amount : N)
  | HouseFeeCollected (d amount : N)
  (* not a Solidity event: a value transfer out of the contract *)
  | Transfer (to : address) (amount : N).

Record State : Type := mkState {
  currentDrawId : N;
  draws : gmap N Draw;
  playerTickets : gmap N (gmap address (list Ticket));
  vrfRequestIdToDraw : gmap N N;
  i_vrfCoordinator : address;
  owner : address;              (* Ownable *)
  paused : bool;                (* Pausable *)
  balance : N;                  (* address(this).balance *)
  log : list event              (* events and transfers, oldest first *)
}.

Record Env : Type := mkEnv {
  msg_sender : address;
  msg_value : N;
  block_timestamp : N;
  accepts : address → bool      (* does a value transfer to this address succeed *)
}.

(** Storage reads. *)
Definition draw_at (s : State) (d : N) : Draw := mapping_get Draw_zero (draws s) d.

Definition tickets_of (s : State) (d : N) (p : address) : list Ticket :=
  mapping_get [] (mapping_get ∅ (playerTickets s) d) p.

Definition requested_draw (s : State) (requestId : N) : N :=
  mapping_get 0 (vrfRequestIdToDraw s) requestId.

(** Storage writes. *)
Definition set_draw (d : N) (dr : Draw) (s : State) : State :=
  mkState (currentDrawId s) (<[d := dr]> (draws s)) (playerTickets s)
    (vrfRequestIdToDraw s) (i_vrfCoordinator s) (owner s) (paused s)
    (balance s) (log s).

Definition set_currentDrawId (d : N) (s : State) : State :=
  mkState d (draws s) (playerTickets s) (vrfRequestIdToDraw s)
    (i_vrfCoordinator s) (owner s) (paused s) (balance s) (log s).

Definition push_ticket (d : N) (p : address) (t : Ticket) (s : State) : State :=
  mkState (currentDrawId s) (draws s)
    (<[d := <[p := tickets_of s d p ++ [t]]> (mapping_get ∅ (playerTickets s) d)]>
       (playerTickets s))
    (vrfRequestIdToDraw s) (i_vrfCoordinator s) (owner s) (paused s)
    (balance s) (log s).

Definition set_request (requestId d : N) (s : State) : State :=
  mkState (currentDrawId s) (draws s) (playerTickets s)
    (<[requestId := d]> (vrfRequestIdToDraw s)) (i_vrfCoordinator s)
    (owner s) (paused s) (balance s) (log s).

Definition set_owner (o : address) (s : State) : State :=
  mkState (currentDrawId s) (draws s) (playerTickets s) (vrfRequestIdToDraw s)
    (i_vrfCoordinator s) o (paused s) (balance s) (log s).

Definition set_paused (b : bool) (s : State) : State :=
  mkState (currentDrawId s) (draws s) (playerTickets s) (vrfRequestIdToDraw s)
    (i_vrfCoordinator s) (owner s) b (balance s) (log s).

Definition set_balance (b : N) (s : State) : State :=
  mkState (currentDrawId s) (draws s) (playerTickets s) (vrfRequestIdToDraw s)
    (i_vrfCoordinator s) (owner s) (paused s) b (log s).

Definition emit (e : event) (s : State) : State :=
  mkState (currentDrawId s) (draws s) (playerTickets s) (vrfRequestIdToDraw s)
    (i_vrfCoordinator s) (owner s) (paused s) (balance s) (log s ++ [e]).

(** [(bool success, ) = payable(to).call{value: amount}(""); if (!success)
    revert TransferFailed();] *)
Definition pay (env : Env) (to : address) (amount : N) (s : State) : result State :=
  if (amount <=? balance s) && accepts env to
  then Ok (emit (Transfer to amount) (set_balance (balance s - amount) s))
  else Err TransferFailed.

(** ** Pick validation *)

(** One iteration of the validation loops: range check, duplicate check,
    then mark the value in the [used] table. *)
Definition validate_number (bound : N) (e : error)
    (used : list bool) (n : N) : result (list bool) :=
  require (negb ((n <? 1) || (bound <? n))) e;;
  require (negb (at_index false used (N.to_nat n))) e;;
  Ok (<[N.to_nat n := true]> used).

Definition _validateMainNumbers (numbers : list N) : result unit :=
  for_each
    (λ used (i : nat), validate_number 50 InvalidMainNumbers used (at_index 0 numbers i))
    (seq 0 5) (replicate 51%nat false);;
  Ok tt.

Definition _validateLuckyStars (stars : list N) : result unit :=
  for_each
    (λ used (i : nat), validate_number 12 InvalidLuckyStars used (at_index 0 stars i))
    (seq 0 2) (replicate 13%nat false);;
  Ok tt.

(** ** Sorting *)

(** [if (numbers[j] > numbers[j + 1]) swap]. *)
Definition swap_if_greater (numbers : list N) (j : nat) : list N :=
  let a := at_index 0 numbers j in
  let b := at_index 0 numbers (j + 1)%nat in
  if b <? a then <[(j + 1)%nat := a]> (<[j := b]> numbers) else numbers.

Definition _sortMainNumbers (numbers : list N) : list N :=
  foldl (λ ns (i : nat), foldl swap_if_greater ns (seq 0 (4 - i))) numbers (seq 0 4).

Definition _sortLuckyStars (stars : list N) : list N :=
  swap_if_greater stars 0.

(** ** Ticket matching *)

(** The two comparison loops return [false] at the first difference. *)
Definition _isWinningTicket (ticket : Ticket)
    (winningMain winningStars : list N) : bool :=
  let sortedMainNumbers := _sortMainNumbers (mainNumbers ticket) in
  let sortedLuckyStars := _sortLuckyStars (luckyStars ticket) in
  forallb (λ i : nat, at_index 0 sortedMainNumbers i =? at_index 0 winningMain i)
    (seq 0 5)
  && forallb (λ i : nat, at_index 0 sortedLuckyStars i =? at_index 0 winningStars i)
       (seq 0 2).

(** ** Outcome resolution *)

(** [do { number = uint8((randomWords[i] % modulus) + 1); } while (used[number]);]
    Every iteration costs gas; the word [randomWords[i]] is read again on
    each iteration and nothing in the body changes it. *)
Fixpoint rejection_loop (gas : nat) (randomWords : list N) (i : nat)
    (modulus : N) (used : list bool) : result N :=
  match gas with
  | O => Err OutOfGas
  | S gas' =>
      w ← array_get randomWords i;
      let number := (w mod modulus + 1) mod UINT8_MOD in
      if at_index false used (N.to_nat number)
      then rejection_loop gas' randomWords i modulus used
      else Ok number
  end.

(** Body of the two [for] loops that fill the winning arrays. *)
Definition pick_number (gas : nat) (randomWords : list N) (offset : nat)
    (modulus : N) (st : list bool * list N) (i : nat) : result (list bool * list N) :=
  number ← rejection_loop gas randomWords (i + offset) modulus st.1;
  Ok (<[N.to_nat number := true]> st.1, <[i := number]> st.2).

Definition generate_main (gas : nat) (randomWords : list N) : result (list N) :=
  st ← for_each (pick_number gas randomWords 0 50) (seq 0 5)
         (replicate 51%nat false, replicate 5%nat 0);
  Ok st.2.

Definition generate_stars (gas : nat) (randomWords : list N) : result (list N) :=
  st ← for_each (pick_number gas randomWords 5 12) (seq 0 2)
         (replicate 13%nat false, replicate 2%nat 0);
  Ok st.2.

(** The pure part of [fulfillRandomWords]: both picks, sorted. *)
Definition resolve (gas : nat) (randomWords : list N) : result (list N * list N) :=
  main ← generate_main gas randomWords;
  stars ← generate_stars gas randomWords;
  Ok (_sortMainNumbers main, _sortLuckyStars stars).

(** ** Modifiers *)

Definition onlyActiveDraw (env : Env) (s : State) : result unit :=
  let d := draw_at s (currentDrawId s) in
  require (negb ((block_timestamp env <? drawStartTime d)
                 || (drawEndTime d <? block_timestamp env))) DrawNotActive.

Definition onlyOwner (env : Env) (s : State) : result unit :=
  require (msg_sender env =? owner s) OwnableNotOwner.

Definition whenNotPaused (s : State) : result unit :=
  require (negb (paused s)) PausablePaused.

Definition whenPaused (s : State) : result unit :=
  require (paused s) PausableNotPaused.

(** ** Draw lifecycle *)

Definition _startNewDraw (env : Env) (s : State) : result State :=
  id ← checked_add (currentDrawId s) 1;
  endTime ← checked_add (block_timestamp env) SEVEN_DAYS;
  let slot := draw_at s id in
  let newDraw :=
    mkDraw id 0 0 (winningMainNumbers slot) (winningLuckyStars slot)
      (winners slot) false false (block_timestamp env) endTime
      (ticketCounts slot) (players slot) in
  Ok (emit (DrawStarted id (block_timestamp env) endTime)
        (set_draw id newDraw (set_currentDrawId id s))).

Definition constructor (env : Env) (vrfCoordinatorV2 : address) : result State :=
  _startNewDraw env (mkState 0 ∅ ∅ ∅ vrfCoordinatorV2 (msg_sender env) false 0 []).

Definition buyTicket (env : Env) (main stars : list N) (s : State) : result State :=
  onlyActiveDraw env s;;
  whenNotPaused s;;
  require (msg_value env =? TICKET_PRICE) InsufficientPayment;;
  _validateMainNumbers main;;
  _validateLuckyStars stars;;
  let d := currentDrawId s in
  let currentDraw := draw_at s d in
  let who := msg_sender env in
  let s1 := push_ticket d who (mkTicket main stars who (block_timestamp env)) s in
  let count := mapping_get 0 (ticketCounts currentDraw) who in
  let players' :=
    if count =? 0 then players currentDraw ++ [who] else players currentDraw in
  count' ← checked_add count 1;
  tickets' ← checked_add (totalTickets currentDraw) 1;
  pool' ← checked_add (totalPrizePool currentDraw) (msg_value env);
  let draw' :=
    mkDraw (drawId currentDraw) pool' tickets'
      (winningMainNumbers currentDraw) (winningLuckyStars currentDraw)
      (winners currentDraw) (isCompleted currentDraw)
      (randomnessRequested currentDraw) (drawStartTime currentDraw)
      (drawEndTime currentDraw) (<[who := count']> (ticketCounts currentDraw))
      players' in
  Ok (emit (TicketPurchased d who main stars (msg_value env))
        (set_balance (balance s + msg_value env) (set_draw d draw' s1))).

(** [requestId] is what the coordinator's [requestRandomWords] returns.  A
    call in which the coordinator itself reverts changes nothing and is not
    modelled. *)
Definition requestDrawRandomness (env : Env) (requestId : N) (s : State) : result State :=
  onlyOwner env s;;
  let d := currentDrawId s in
  let currentDraw := draw_at s d in
  require (negb (block_timestamp env <=? drawEndTime currentDraw)) DrawNotActive;;
  require (negb (randomnessRequested currentDraw)) RandomnessAlreadyRequested;;
  require (negb (isCompleted currentDraw)) DrawAlreadyCompleted;;
  let draw' :=
    mkDraw (drawId currentDraw) (totalPrizePool currentDraw) (totalTickets currentDraw)
      (winningMainNumbers currentDraw) (winningLuckyStars currentDraw)
      (winners currentDraw) (isCompleted currentDraw) true
      (drawStartTime currentDraw) (drawEndTime currentDraw)
      (ticketCounts currentDraw) (players currentDraw) in
  Ok (emit (RandomnessRequested d requestId)
        (set_request requestId d (set_draw d draw' s))).

(** ** Settlement *)

(** The inner loop body: a winning ticket writes its owner into the
    [winners] array, which was allocated with [totalTickets] slots. *)
Definition scan_ticket (draw : Draw) (who : address)
    (st : list address * nat) (t : Ticket) : result (list address * nat) :=
  if _isWinningTicket t (winningMainNumbers draw) (winningLuckyStars draw)
  then
    if decide (st.2 < length st.1)%nat
    then Ok (<[st.2 := who]> st.1, S st.2)
    else Err PanicIndex
  else Ok st.

Definition scan_player (s : State) (d : N) (draw : Draw)
    (st : list address * nat) (who : address) : result (list address * nat) :=
  for_each (scan_ticket draw who) (tickets_of s d who) st.

Definition pay_winner (env : Env) (d prize : N) (s : State) (w : address) : result State :=
  s' ← pay env w prize s;
  Ok (emit (PrizeDistributed d w prize) s').

Definition _findWinnersAndDistribute (env : Env) (d : N) (s : State) : result State :=
  let draw := draw_at s d in
  st ← for_each (scan_player s d draw) (players draw)
         (replicate (N.to_nat (totalTickets draw)) 0, 0%nat);
  let winnerCount := st.2 in
  let finalWinners := take winnerCount st.1 in
  let draw' :=
    mkDraw (drawId draw) (totalPrizePool draw) (totalTickets draw)
      (winningMainNumbers draw) (winningLuckyStars draw)
      finalWinners true (randomnessRequested draw)
      (drawStartTime draw) (drawEndTime draw) (ticketCounts draw) (players draw) in
  let s1 := set_draw d draw' s in
  s2 ←
    (if decide (0 < winnerCount)%nat then
       let houseFee := totalPrizePool draw' * HOUSE_FEE_PERCENT / 100 in
       let totalWinnings := totalPrizePool draw' - houseFee in
       let prizePerWinner := totalWinnings / N.of_nat winnerCount in
       s' ← pay env (owner s1) houseFee s1;
       s'' ← for_each (pay_winner env d prizePerWinner) finalWinners
               (emit (HouseFeeCollected d houseFee) s');
       Ok (emit (DrawCompleted d (winningMainNumbers draw') (winningLuckyStars draw')
                   finalWinners prizePerWinner) s'')
     else
       Ok (emit (DrawCompleted d (winningMainNumbers draw') (winningLuckyStars draw')
                   finalWinners 0) s1));
  _startNewDraw env s2.

Definition fulfillRandomWords (env : Env) (gas : nat) (requestId : N)
    (randomWords : list N) (s : State) : result State :=
  let d := requested_draw s requestId in
  let draw := draw_at s d in
  if isCompleted draw then Ok s
  else
    picks ← resolve gas randomWords;
    let draw' :=
      mkDraw (drawId draw) (totalPrizePool draw) (totalTickets draw)
        picks.1 picks.2 (winners draw) (isCompleted draw)
        (randomnessRequested draw) (drawStartTime draw) (drawEndTime draw)
        (ticketCounts draw) (players draw) in
    _findWinnersAndDistribute env d (set_draw d draw' s).

(** [VRFConsumerBaseV2.rawFulfillRandomWords]: the external entry point. *)
Definition rawFulfillRandomWords (env : Env) (gas : nat) (requestId : N)
    (randomWords : list N) (s : State) : result State :=
  require (msg_sender env =? i_vrfCoordinator s) OnlyCoordinatorCanFulfill;;
  fulfillRandomWords env gas requestId randomWords s.

(** ** Administration *)

Definition pause (env : Env) (s : State) : result State :=
  onlyOwner env s;;
  whenNotPaused s;;
  Ok (set_paused true s).

Definition unpause (env : Env) (s : State) : result State :=
  onlyOwner env s;;
  whenPaused s;;
  Ok (set_paused false s).

Definition emergencyWithdraw (env : Env) (s : State) : result State :=
  onlyOwner env s;;
  whenPaused s;;
  require (isCompleted (draw_at s (currentDrawId s))) ActiveDrawExists;;
  pay env (owner s) (balance s) s.

Definition transferOwnership (env : Env) (newOwner : address) (s : State) : result State :=
  onlyOwner env s;;
  require (negb (newOwner =? 0)) OwnableZeroAddress;;
  Ok (set_owner newOwner s).

Definition renounceOwnership (env : Env) (s : State) : result State :=
  onlyOwner env s;;
  Ok (set_owner 0 s).

(** ** Transactions and reachable states *)

Inductive call : Type :=
  | BuyTicket (main stars : list N)
  | RequestDrawRandomness (requestId : N)
  | RawFulfillRandomWords (gas : nat) (requestId : N) (randomWords : list N)
  | Pause
  | Unpause
  | EmergencyWithdraw
  | TransferOwnership (newOwner : address)
  | RenounceOwnership.

Definition exec (env : Env) (c : call) (s : State) : result State :=
  match c with
  | BuyTicket main stars => buyTicket env main stars s
  | RequestDrawRandomness requestId => requestDrawRandomness env requestId s
  | RawFulfillRandomWords gas requestId ws => rawFulfillRandomWords env gas requestId ws s
  | Pause => pause env s
  | Unpause => unpause env s
  | EmergencyWithdraw => emergencyWithdraw env s
  | TransferOwnership newOwner => transferOwnership env newOwner s
  | RenounceOwnership => renounceOwnership env s
  end.

Inductive reachable : State → Prop :=
  | reachable_constructor env coordinator s :
      constructor env coordinator = Ok s → reachable s
  | reachable_exec env c s s' :
      reachable s → exec env c s = Ok s' → reachable s'.

(** ** The script-side validator ([InputValidator] of scripts/utils/validation.ts) *)

Module InputValidator.

(** A JavaScript number as the validator sees it: integer-valued, or not
    (a fraction, [NaN] or an infinity), for which [Number.isInteger] is
    false. *)
Inductive number : Type :=
  | Int (z : Z)
  | NonInt.

#[global] Instance number_eq_dec : EqDecision number.
Proof. solve_decision. Defined.

Inductive thrown : Type :=
  | MainNumbersLength | MainNumbersRange | MainNumbersUnique
  | LuckyStarsLength | LuckyStarsRange | LuckyStarsUnique.

(** [!Number.isInteger(num) || num < 1 || num > bound] *)
Definition out_of_range (bound : Z) (num : number) : bool :=
  match num with
  | NonInt => true
  | Int z => (z <? 1)%Z || (bound <? z)%Z
  end.

(** [None] is a normal return, [Some e] a thrown [ValidationError]. *)
Definition validateMainNumbers (numbers : list number) : option thrown :=
  if negb (length numbers =? 5)%nat then Some MainNumbersLength
  else if existsb (out_of_range 50) numbers then Some MainNumbersRange
  else if negb (length (remove_dups numbers) =? length numbers)%nat
       then Some MainNumbersUnique
  else None.

Definition validateLuckyStars (stars : list number) : option thrown :=
  if negb (length stars =? 2)%nat then Some LuckyStarsLength
  else if existsb (out_of_range 12) stars then Some LuckyStarsRange
  else if bool_decide (stars !! 0%nat = stars !! 1%nat) then Some LuckyStarsUnique
  else None.

End InputValidator.

(** ** Specification vocabulary *)

(** Every value of a pick lies in [1, bound]. *)
Definition in_range (bound : N) (l : list N) : Prop :=
  Forall (λ x, 1 ≤ x ≤ bound) l.

(** The storage after an accepted purchase. *)
Definition purchased (env : Env) (main stars : list N) (s : State) : State :=
  let d := currentDrawId s in
  let cur := draw_at s d in
  let who := msg_sender env in
  let count := mapping_get 0 (ticketCounts cur) who in
  emit (TicketPurchased d who main stars (msg_value env))
    (set_balance (balance s + msg_value env)
       (set_draw d
          (mkDraw (drawId cur) (totalPrizePool cur + msg_value env)
             (totalTickets cur + 1) (winningMainNumbers cur)
             (winningLuckyStars cur) (winners cur) (isCompleted cur)
             (randomnessRequested cur) (drawStartTime cur) (drawEndTime cur)
             (<[who := count + 1]> (ticketCounts cur))
             (if count =? 0 then players cur ++ [who] else players cur))
          (push_ticket d who (mkTicket main stars who (block_timestamp env)) s))).

(** What an accepted purchase requires besides valid picks. *)
Definition purchase_guards (env : Env) (s : State) : Prop :=
  let cur := draw_at s (currentDrawId s) in
  drawStartTime cur ≤ block_timestamp env ≤ drawEndTime cur
  ∧ paused s = false
  ∧ msg_value env = TICKET_PRICE
  ∧ mapping_get 0 (ticketCounts cur) (msg_sender env) + 1 ≤ UINT256_MAX
  ∧ totalTickets cur + 1 ≤ UINT256_MAX
  ∧ totalPrizePool cur + msg_value env ≤ UINT256_MAX.

(** An integer-valued JavaScript number within [1, bound]. *)
Definition js_in_range (bound : Z) (num : InputValidator.number) : Prop :=
  ∃ z, num = InputValidator.Int z ∧ (1 ≤ z ≤ bound)%Z.

(** No value of [l] is marked in the table [used]. *)
Definition unused (used : list bool) (l : list N) : Prop :=
  ∀ x, x ∈ l → at_index false used (N.to_nat x) = false.

(** The draws named by the [RandomnessRequested] events of a log, oldest
    first. *)
Definition requests_in (l : list event) : list N :=
  omap (λ e, match e with RandomnessRequested d _ => Some d | _ => None end) l.

(** The value transfers of a log: recipient and amount, oldest first. *)
Definition transfers_in (l : list event) : list (address * N) :=
  omap (λ e, match e with Transfer to amount => Some (to, amount) | _ => None end) l.

(** Every ticket stored under a draw, whoever holds it. *)
Definition tickets_under (s : State) (d : N) : list Ticket :=
  concat (map snd (map_to_list (mapping_get ∅ (playerTickets s) d))).

(** The winning tickets' owners in scan order: one entry per winning
    ticket. *)
Definition winning_entries (s : State) (d : N) : list address :=
  let draw := draw_at s d in
  flat_map (λ who,
      map (λ _, who)
        (filter (λ t, _isWinningTicket t (winningMainNumbers draw)
                        (winningLuckyStars draw) = true)
           (tickets_of s d who)))
    (players draw).

(** Storage that differs only in balance and log. *)
Definition with_payments (b : N) (evs : list event) (s : State) : State :=
  mkState (currentDrawId s) (draws s) (playerTickets s) (vrfRequestIdToDraw s)
    (i_vrfCoordinator s) (owner s) (paused s) b (log s ++ evs).

(** What paying [prize] to each of [ws] appends to the log. *)
Definition prize_events (d prize : N) (ws : list address) : list event :=
  flat_map (λ w, [Transfer w prize; PrizeDistributed d w prize]) ws.

(** The fee and prize of a draw with [k] winning tickets. *)
Definition house_fee (pool : N) : N := pool * HOUSE_FEE_PERCENT / 100.
Definition prize_per_winner (pool : N) (k : nat) : N :=
  (pool - house_fee pool) / N.of_nat k.

(** A draw marked completed with its winners. *)
Definition completed_with (ws : list address) (draw : Draw) : Draw :=
  mkDraw (drawId draw) (totalPrizePool draw) (totalTickets draw)
    (winningMainNumbers draw) (winningLuckyStars draw) ws true
    (randomnessRequested draw) (drawStartTime draw) (drawEndTime draw)
    (ticketCounts draw) (players draw).

(** The storage after the payout step of a settlement of draw [d], before
    the next draw is started. *)
Definition paid_out (d : N) (s : State) : State :=
  let draw := draw_at s d in
  let ws := winning_entries s d in
  let k := length ws in
  let fee := house_fee (totalPrizePool draw) in
  let prize := prize_per_winner (totalPrizePool draw) k in
  let s1 := set_draw d (completed_with ws draw) s in
  if decide (0 < k)%nat then
    with_payments (balance s - fee - N.of_nat k * prize)
      ([Transfer (owner s) fee; HouseFeeCollected d fee]
       ++ prize_events d prize ws
       ++ [DrawCompleted d (winningMainNumbers draw) (winningLuckyStars draw) ws prize])
      s1
  else
    emit (DrawCompleted d (winningMainNumbers draw) (winningLuckyStars draw) ws 0) s1.

(** Every transfer of a settlement with winners can be made. *)
Definition payable_out (env : Env) (d : N) (s : State) : Prop :=
  let draw := draw_at s d in
  let ws := winning_entries s d in
  let k := length ws in
  house_fee (totalPrizePool draw)
    + N.of_nat k * prize_per_winner (totalPrizePool draw) k ≤ balance s
  ∧ accepts env (owner s) = true
  ∧ Forall (λ w, accepts env w = true) ws.

(** The storage after [_startNewDraw]. *)
Definition started (env : Env) (s : State) : State :=
  let id := currentDrawId s + 1 in
  let slot := draw_at s id in
  let now := block_timestamp env in
  emit (DrawStarted id now (now + SEVEN_DAYS))
    (set_draw id
       (mkDraw id 0 0 (winningMainNumbers slot) (winningLuckyStars slot)
          (winners slot) false false now (now + SEVEN_DAYS)
          (ticketCounts slot) (players slot))
       (set_currentDrawId id s)).

(** A draw with its winning picks written. *)
Definition with_picks (picks : list N * list N) (draw : Draw) : Draw :=
  mkDraw (drawId draw) (totalPrizePool draw) (totalTickets draw)
    picks.1 picks.2 (winners draw) (isCompleted draw)
    (randomnessRequested draw) (drawStartTime draw) (drawEndTime draw)
    (ticketCounts draw) (players draw).

(** A draw with its request flag set. *)
Definition with_request (draw : Draw) : Draw :=
  mkDraw (drawId draw) (totalPrizePool draw) (totalTickets draw)
    (winningMainNumbers draw) (winningLuckyStars draw) (winners draw)
    (isCompleted draw) true (drawStartTime draw) (drawEndTime draw)
    (ticketCounts draw) (players draw).

(** *** Invariants of the reachable states *)

(** The current draw is not completed. *)
Definition current_open (s : State) : Prop :=
  isCompleted (draw_at s (currentDrawId s)) = false.

(** Storage beyond the current draw has never been written. *)
Definition fresh_beyond (s : State) : Prop :=
  ∀ d, currentDrawId s < d → draws s !! d = None ∧ playerTickets s !! d = None.

(** Request tokens point at draws that exist. *)
Definition requests_known (s : State) : Prop :=
  ∀ r d, vrfRequestIdToDraw s !! r = Some d → d ≤ currentDrawId s.

(** The ledger of one draw agrees with its tickets. *)
Definition draw_consistent (s : State) (d : N) : Prop :=
  let draw := draw_at s d in
  totalPrizePool draw = TICKET_PRICE * totalTickets draw
  ∧ totalTickets draw = N.of_nat (length (tickets_under s d))
  ∧ NoDup (players draw)
  ∧ (∀ p, p ∈ players draw ↔ tickets_of s d p ≠ [])
  ∧ (∀ p, mapping_get 0 (ticketCounts draw) p = N.of_nat (length (tickets_of s d p))).

(** Every draw with a logged request has its flag set, and no draw is
    logged twice. *)
Definition requests_once (s : State) : Prop :=
  NoDup (requests_in (log s))
  ∧ ∀ d, d ∈ requests_in (log s) →
         d ≤ currentDrawId s ∧ randomnessRequested (draw_at s d) = true.

(** The tickets stored under a draw that match its winning picks. *)
Definition winning_tickets (s : State) (d : N) : list Ticket :=
  let draw := draw_at s d in
  filter (λ t, _isWinningTicket t (winningMainNumbers draw)
                 (winningLuckyStars draw) = true)
    (tickets_under s d).

(** The storage of a pending delivery once the picks are written. *)
Definition with_winning_picks (requestId : N) (picks : list N * list N)
    (s : State) : State :=
  let d := requested_draw s requestId in
  set_draw d (with_picks picks (draw_at s d)) s.

(** The winning tickets that one participant holds. *)
Definition winning_tickets_of (s : State) (d : N) (who : address) : list Ticket :=
  let draw := draw_at s d in
  filter (λ t, _isWinningTicket t (winningMainNumbers draw)
                 (winningLuckyStars draw) = true)
    (tickets_of s d who).

(** The number that word [j] of a delivery maps to. *)
Definition number_of (randomWords : list N) (modulus : N) (j : nat) : N :=
  (default 0 (randomWords !! j) mod modulus + 1) mod UINT8_MOD.

(** The words of a delivery give no repeated main number and no repeated
    lucky star. *)
Definition distinct_numbers (randomWords : list N) : Prop :=
  NoDup (map (number_of randomWords 50) (seq 0 5))
  ∧ NoDup (map (number_of randomWords 12) (seq 5 2)).

(** The accepted purchases of a draw, as logged: buyer and price paid. *)
Definition purchases_of (l : list event) (d : N) : list (address * N) :=
  omap (λ e, match e with
             | TicketPurchased d' who _ _ price =>
                 if decide (d' = d) then Some (who, price) else None
             | _ => None
             end) l.

Definition sum_prices (ps : list (address * N)) : N :=
  foldr (λ x acc, x.2 + acc) 0 ps.

(** The ledger of every draw agrees with the logged purchases. *)
Definition log_consistent (s : State) : Prop :=
  ∀ d,
    let draw := draw_at s d in
    let ps := purchases_of (log s) d in
    totalTickets draw = N.of_nat (length ps)
    ∧ totalPrizePool draw = sum_prices ps
    ∧ ∀ p, p ∈ players draw ↔ p ∈ ps.*1.

(** What holds at every point of a transaction ... *)
Definition ledger_invariant (s : State) : Prop :=
  fresh_beyond s ∧ requests_known s ∧ (∀ d, draw_consistent s d) ∧ requests_once s.

(** ... and what holds between transactions. *)
Definition invariant (s : State) : Prop :=
  current_open s ∧ ledger_invariant s.

(** The fields of a draw that the ledger invariant reads. *)
Definition same_ledger (a b : Draw) : Prop :=
  totalPrizePool a = totalPrizePool b
  ∧ totalTickets a = totalTickets b
  ∧ players a = players b
  ∧ ticketCounts a = ticketCounts b.

(** ** A worked scenario

    The contract is deployed at time 1000; two participants buy three
    tickets; after the window the owner requests randomness and the
    coordinator delivers 7 words whose picks are [1..5] / [1, 2], which two
    of the three tickets match. *)

Module Scenario.

Definition deployer : address := 100.
Definition coordinator : address := 7.
Definition alice : address := 200.
Definition bob : address := 201.

Definition call_by (who : address) (value now : N) : Env :=
  mkEnv who value now (λ _, true).

Definition run (r : result State) (step : Env * call) : result State :=
  s ← r; exec step.1 step.2 s.

Definition state_of (r : result State) : State :=
  match r with
  | Ok s => s
  | Err _ => mkState 0 ∅ ∅ ∅ 0 0 false 0 []
  end.

Definition closing : N := 1000 + SEVEN_DAYS.

Definition deployed : result State :=
  constructor (call_by deployer 0 1000) coordinator.

Definition sales : list (Env * call) :=
  [ (call_by alice TICKET_PRICE 1000, BuyTicket [5; 4; 3; 2; 1] [2; 1]);
    (call_by alice TICKET_PRICE 2000, BuyTicket [10; 20; 30; 40; 50] [3; 4]);
    (call_by bob TICKET_PRICE closing, BuyTicket [1; 2; 3; 4; 5] [1; 2]) ].

Definition sold : result State := foldl run deployed sales.

Definition requested : result State :=
  run sold (call_by deployer 0 (closing + 1), RequestDrawRandomness 1).

Definition delivery : Env * call :=
  (call_by coordinator 0 (closing + 60),
   RawFulfillRandomWords 10 1 [0; 1; 2; 3; 4; 0; 1]).

Definition settled : result State := run requested delivery.

End Scenario.

(** * The rest of the contract and of the scripts *)

(** ** Queries *)

Definition checked_sub (a b : N) : result N :=
  if b <=? a then Ok (a - b) else Err PanicOverflow.

Definition drawExists (d : N) (s : State) : result unit :=
  require (negb (currentDrawId s <? d)) DrawNotFound.

Definition getPlayerTickets (d : N) (who : address) (s : State) : result (list Ticket) :=
  drawExists d s;;
  Ok (tickets_of s d who).

Record DrawInfo : Type := mkDrawInfo {
  info_totalPrizePool : N;
  info_totalTickets : N;
  info_winningMainNumbers : list N;
  info_winningLuckyStars : list N;
  info_isCompleted : bool;
  info_drawStartTime : N;
  info_drawEndTime : N
}.

Definition getDrawInfo (d : N) (s : State) : result DrawInfo :=
  drawExists d s;;
  let draw := draw_at s d in
  Ok (mkDrawInfo (totalPrizePool draw) (totalTickets draw) (winningMainNumbers draw)
        (winningLuckyStars draw) (isCompleted draw) (drawStartTime draw)
        (drawEndTime draw)).

Definition getDrawWinners (d : N) (s : State) : result (list address) :=
  drawExists d s;;
  Ok (winners (draw_at s d)).

Record DrawStatus : Type := mkDrawStatus {
  status_drawId : N;
  status_totalPrizePool : N;
  status_totalTickets : N;
  status_timeLeft : N;
  status_isActive : bool
}.

Definition getCurrentDrawStatus (env : Env) (s : State) : result DrawStatus :=
  let draw := draw_at s (currentDrawId s) in
  let active :=
    (drawStartTime draw <=? block_timestamp env)
    && (block_timestamp env <=? drawEndTime draw) in
  timeRemaining ←
    (if active then checked_sub (drawEndTime draw) (block_timestamp env) else Ok 0);
  Ok (mkDrawStatus (currentDrawId s) (totalPrizePool draw) (totalTickets draw)
        timeRemaining active).

(** ** [ContractManager.executeWithRetry] of scripts/utils/contracts.ts *)

Module ContractManager.

Inductive outcome (T E : Type) : Type :=
  | Returned (v : T)
  | Threw (e : E).
Arguments Returned {T E} v.
Arguments Threw {T E} e.

(** What a run of [executeWithRetry] does: how it ends, the delays it
    waited in order, and how many times it called the operation.  It throws
    [lastError], which is unassigned ([None]) when no attempt was made. *)
Record run (T E : Type) : Type := mkRun {
  ending : outcome T (option E);
  waits : list N;
  calls : nat
}.
Arguments mkRun {T E} ending waits calls.
Arguments ending {T E} r.
Arguments waits {T E} r.
Arguments calls {T E} r.




End ContractManager.

(** ** What [DrawSimulator.showResults] prints (scripts/simulate-draw) *)

Module DrawSimulator.

(** [drawInfo.totalPrizePool.mul(99).div(100).div(winners.length)] *)
Definition shownPrizePerWinner (totalPrizePool : N) (winnersLength : nat) : N :=
  totalPrizePool * 99 / 100 / N.of_nat winnersLength.

(** [drawInfo.totalPrizePool.div(100)] *)
Definition shownHouseFee (totalPrizePool : N) : N := totalPrizePool / 100.

(** The picks that [simulateTicketPurchases] submits for ticket
    [ticketIndex] of player [playerIndex]: a template, each number moved by
    an offset and clamped with [Math.min(50, Math.max(1, num + offset))]. *)
Definition ticketTemplates : list (list N * list N) :=
  [ ([1; 2; 3; 4; 5], [1; 2]);
    ([10; 20; 30; 40; 50], [10; 11]);
    ([5; 15; 25; 35; 45], [5; 6]);
    ([7; 14; 21; 28; 35], [7; 8]);
    ([11; 22; 33; 44; 49], [9; 12]);
    ([6; 16; 26; 36; 46], [3; 4]) ].

Definition template (ticketsPerPlayer playerIndex ticketIndex : nat) : list N * list N :=
  default ([], [])
    (ticketTemplates !! ((playerIndex * ticketsPerPlayer + ticketIndex)
                         mod length ticketTemplates)%nat).

Definition mainNumbers (ticketsPerPlayer playerIndex ticketIndex : nat) : list N :=
  imap (λ idx num,
      let offset := N.of_nat ((playerIndex * 7 + ticketIndex * 3 + idx) mod 46) in
      N.min 50 (N.max 1 (num + offset)))
    (template ticketsPerPlayer playerIndex ticketIndex).1.

Definition luckyStars (ticketsPerPlayer playerIndex ticketIndex : nat) : list N :=
  imap (λ idx star,
      let offset := N.of_nat ((playerIndex + ticketIndex + idx) mod 11) in
      N.min 12 (N.max 1 (star + offset)))
    (template ticketsPerPlayer playerIndex ticketIndex).2.

End DrawSimulator.

(** ** More vocabulary *)

(** The storage the constructor starts the first draw from. *)
Definition blank (vrfCoordinatorV2 deployer : address) : State :=
  mkState 0 ∅ ∅ ∅ vrfCoordinatorV2 deployer false 0 [].

(** A winning pick as published: of the right size, in range, ascending and
    without repetition. *)
Definition published_pick (size : nat) (bound : N) (l : list N) : Prop :=
  length l = size ∧ in_range bound l ∧ NoDup l ∧ Sorted N.le l.

(** Draw identifiers and windows. *)
Definition draws_wellformed (s : State) : Prop :=
  1 ≤ currentDrawId s
  ∧ playerTickets s !! 0 = None
  ∧ ∀ d, 1 ≤ d ≤ currentDrawId s →
         drawId (draw_at s d) = d
         ∧ drawEndTime (draw_at s d) = drawStartTime (draw_at s d) + SEVEN_DAYS.

(** Every stored ticket passed validation, names its holder and was bought
    inside the window of its draw. *)
Definition tickets_wellformed (s : State) : Prop :=
  ∀ d p t, t ∈ tickets_of s d p →
    _validateMainNumbers (mainNumbers t) = Ok tt
    ∧ _validateLuckyStars (luckyStars t) = Ok tt
    ∧ player t = p
    ∧ drawStartTime (draw_at s d) ≤ timestamp t ≤ drawEndTime (draw_at s d).

(** What a draw shows of its result: nothing before completion, a
    published pick and the holders of the matching tickets after it. *)
Definition results_published (s : State) : Prop :=
  ∀ d,
    let draw := draw_at s d in
    if isCompleted draw then
      published_pick 5 50 (winningMainNumbers draw)
      ∧ published_pick 2 12 (winningLuckyStars draw)
      ∧ winners draw = winning_entries s d
    else
      winningMainNumbers draw = replicate 5%nat 0
      ∧ winningLuckyStars draw = replicate 2%nat 0
      ∧ winners draw = [].

(** Value received for tickets and value sent out, as logged. *)
Definition total_received (l : list event) : N :=
  foldr (λ e acc, match e with
                  | TicketPurchased _ _ _ _ price => price + acc
                  | _ => acc
                  end) 0 l.

Definition total_sent (l : list event) : N :=
  foldr (λ e acc, match e with
                  | Transfer _ amount => amount + acc
                  | _ => acc
                  end) 0 l.

Definition value_conserved (s : State) : Prop :=
  balance s + total_sent (log s) = total_received (log s).

(** A call that only the owner or only the coordinator may make. *)
Definition restricted (c : call) : bool :=
  match c with
  | BuyTicket _ _ => false
  | _ => true
  end.

(** The storage after an accepted resolution request. *)
Definition request_recorded (requestId : N) (s : State) : State :=
  let d := currentDrawId s in
  emit (RandomnessRequested d requestId)
    (set_request requestId d (set_draw d (with_request (draw_at s d)) s)).

(** The storage after the settlement of the draw that a token names. *)
Definition settled_by (env : Env) (requestId : N) (picks : list N * list N)
    (s : State) : State :=
  started env (paid_out (requested_draw s requestId)
                 (with_winning_picks requestId picks s)).

(** The result of a call, with [f] applied to the storage it leaves. *)
Definition on_ok {A B : Type} (f : A → B) (r : result A) : result B :=
  match r with
  | Ok a => Ok (f a)
  | Err e => Err e
  end.

(** A draw left behind: a later draw is current, the draw is not completed
    and no request token names it. *)
Definition stranded (s : State) (d : N) : Prop :=
  1 ≤ d < currentDrawId s
  ∧ isCompleted (draw_at s d) = false
  ∧ ∀ requestId, vrfRequestIdToDraw s !! requestId ≠ Some d.

(** The ticket that a call adds to the list of participant [p] under draw
    [d]. *)
Definition ticket_added (env : Env) (c : call) (s : State) (d : N) (p : address)
    : list Ticket :=
  match c with
  | BuyTicket main stars =>
      if decide (d = currentDrawId s ∧ p = msg_sender env)
      then [mkTicket main stars (msg_sender env) (block_timestamp env)]
      else []
  | _ => []
  end.

(** Every request token names a draw whose request flag is set. *)
Definition tokens_flagged (s : State) : Prop :=
  ∀ requestId d,
    vrfRequestIdToDraw s !! requestId = Some d →
    randomnessRequested (draw_at s d) = true.





(** ** A delivery with a token that was never issued

    In the worked scenario, before any request is made, the coordinator
    delivers for token 99; a participant then buys a ticket for the draw
    that this started. *)

Module Stranding.

Definition stray_delivery : Env * call :=
  (Scenario.call_by Scenario.coordinator 0 (Scenario.closing + 10),
   RawFulfillRandomWords 1 99 [0; 1; 2; 3; 4; 0; 1]).

Definition left_behind : result State := Scenario.run Scenario.sold stray_delivery.

Definition later_sale : Env * call :=
  (Scenario.call_by Scenario.alice TICKET_PRICE (Scenario.closing + 20),
   BuyTicket [1; 2; 3; 4; 5] [1; 2]).

Definition afterwards : result State := Scenario.run left_behind later_sale.

End Stranding.

(** * Properties *)

(** ** The error monad and bounded loops *)

Arguments _isWinningTicket : simpl never.
Arguments _sortMainNumbers : simpl never.
Arguments _sortLuckyStars : simpl never.
Arguments resolve : simpl never.

Ltac simpl_bind := cbn [mbind result_bind mret result_ret require] in *.

Lemma for_each_nil {A S : Type} (body : S → A → result S) init :
  for_each body [] init = Ok init.
Proof. reflexivity. Qed.

Lemma for_each_Err {A S : Type} (body : S → A → result S) xs e :
  foldl (λ acc x, s ← acc; body s x) (Err e) xs = Err e.
Proof. induction xs as [|x xs IH]; [done | exact IH]. Qed.

Lemma for_each_cons {A S : Type} (body : S → A → result S) x xs init :
  for_each body (x :: xs) init = s ← body init x; for_each body xs s.
Proof.
  unfold for_each. simpl. destruct (body init x) as [s|e]; simpl.
  - reflexivity.
  - apply for_each_Err.
Qed.

Lemma bind_Ok_inv {A B : Type} (r : result A) (k : A → result B) b :
  (x ← r; k x) = Ok b → ∃ a, r = Ok a ∧ k a = Ok b.
Proof. destruct r as [a|e]; simpl; [eauto | discriminate]. Qed.

Lemma bind_Err_inv {A B : Type} (r : result A) (k : A → result B) e :
  (x ← r; k x) = Err e → r = Err e ∨ ∃ a, r = Ok a ∧ k a = Err e.
Proof. destruct r as [a|e']; simpl; [eauto | intros [= ->]; auto]. Qed.

Lemma require_Err_inv b e e' : require b e = Err e' → e' = e ∧ b = false.
Proof. destruct b; [discriminate | by intros [= ->]]. Qed.

Lemma checked_add_Err_inv a b e : checked_add a b = Err e → e = PanicOverflow.
Proof. unfold checked_add. case_match; [discriminate | by intros [= <-]]. Qed.

Lemma require_Ok_inv b e : require b e = Ok tt → b = true.
Proof. destruct b; [done | discriminate]. Qed.

Lemma checked_add_Ok_inv a b c : checked_add a b = Ok c → c = a + b ∧ a + b ≤ UINT256_MAX.
Proof.
  unfold checked_add. destruct (N.leb_spec (a + b) UINT256_MAX); [|discriminate].
  intros [= <-]. done.
Qed.

Lemma checked_add_Ok a b : a + b ≤ UINT256_MAX → checked_add a b = Ok (a + b).
Proof.
  intros H. unfold checked_add. destruct (N.leb_spec (a + b) UINT256_MAX); [done | lia].
Qed.

(** ** Arrays *)

Lemma at_index_insert {A : Type} (zero : A) (l : list A) (i j : nat) (x : A) :
  (i < length l)%nat →
  at_index zero (<[i := x]> l) j = if decide (i = j) then x else at_index zero l j.
Proof.
  intros Hi. unfold at_index. destruct (decide (i = j)) as [->|Hne].
  - by rewrite list_lookup_insert_eq.
  - by rewrite list_lookup_insert_ne.
Qed.

(** ** Pick validation *)

Lemma validate_number_eq bound e used n :
  validate_number bound e used n =
  if (n <? 1) || (bound <? n) then Err e
  else if at_index false used (N.to_nat n) then Err e
  else Ok (<[N.to_nat n := true]> used).
Proof.
  unfold validate_number.
  destruct ((n <? 1) || (bound <? n)); [done|].
  by destruct (at_index false used (N.to_nat n)).
Qed.

Lemma validate_loop_spec bound e l used :
  (N.to_nat bound < length used)%nat →
  match for_each (validate_number bound e) l used with
  | Ok _ => in_range bound l ∧ NoDup l ∧ unused used l
  | Err e' => e' = e ∧ ¬ (in_range bound l ∧ NoDup l ∧ unused used l)
  end.
Proof.
  revert used. induction l as [|x l IH]; intros used Hlen.
  - simpl. repeat split; [constructor | constructor | intros y Hy; inversion Hy].
  - rewrite for_each_cons, validate_number_eq.
    destruct ((x <? 1) || (bound <? x)) eqn:Hrange; simpl_bind.
    { split; [done|]. intros (Hr & _ & _). apply Forall_cons in Hr as [Hx _].
      apply orb_true_iff in Hrange as [H|H]; apply N.ltb_lt in H; lia. }
    apply orb_false_iff in Hrange as [H1 H2].
    apply N.ltb_ge in H1, H2.
    destruct (at_index false used (N.to_nat x)) eqn:Hused; simpl_bind.
    { split; [done|]. intros (_ & _ & Hu).
      rewrite (Hu x) in Hused; [done | left]. }
    assert (Hx : (N.to_nat x < length used)%nat) by lia.
    specialize (IH (<[N.to_nat x := true]> used)).
    rewrite length_insert in IH. specialize (IH Hlen).
    assert (Heq : unused (<[N.to_nat x := true]> used) l ↔ (x ∉ l) ∧ unused used l).
    { unfold unused. split.
      - intros Hu. split.
        + intros Hin. specialize (Hu x Hin).
          rewrite at_index_insert in Hu by done. by rewrite decide_True in Hu.
        + intros y Hy. specialize (Hu y Hy).
          rewrite at_index_insert in Hu by done.
          destruct (decide (N.to_nat x = N.to_nat y)); [done | exact Hu].
      - intros [Hnin Hu] y Hy. rewrite at_index_insert by done.
        rewrite decide_False; [by apply Hu|].
        intros Hxy. apply N2Nat.inj in Hxy. by subst. }
    destruct (for_each (validate_number bound e) l (<[N.to_nat x:=true]> used)) as [u|e'].
    + destruct IH as (Hr & Hnd & Hu). apply Heq in Hu as [Hnin Hu].
      repeat split.
      * apply Forall_cons. split; [lia | exact Hr].
      * by constructor.
      * intros y Hy. apply elem_of_cons in Hy as [->|Hy]; [exact Hused | by apply Hu].
    + destruct IH as [-> Hneg]. split; [done|].
      intros (Hr & Hnd & Hu). apply Hneg.
      apply Forall_cons in Hr as [_ Hr]. apply NoDup_cons in Hnd as [Hnin Hnd].
      repeat split; [done | done |]. apply Heq. split; [done|].
      intros y Hy. apply Hu. by right.
Qed.

Lemma unused_fresh n l : unused (replicate n false) l.
Proof.
  intros x _. unfold at_index.
  destruct (replicate n false !! N.to_nat x) as [b|] eqn:H; [|done].
  by apply lookup_replicate in H as [-> _].
Qed.

Lemma _validateMainNumbers_spec numbers :
  length numbers = 5%nat →
  if decide (in_range 50 numbers ∧ NoDup numbers)
  then _validateMainNumbers numbers = Ok tt
  else _validateMainNumbers numbers = Err InvalidMainNumbers.
Proof.
  intros Hlen.
  destruct numbers as [|a [|b [|c [|d [|e [|]]]]]]; try discriminate.
  unfold _validateMainNumbers.
  change (for_each _ (seq 0 5) _) with
    (for_each (validate_number 50 InvalidMainNumbers) [a; b; c; d; e]
       (replicate 51%nat false)).
  pose proof (validate_loop_spec 50 InvalidMainNumbers [a; b; c; d; e]
                (replicate 51%nat false)) as H.
  rewrite length_replicate in H. specialize (H ltac:(lia)).
  destruct (for_each _ _ _) as [u|e'].
  - destruct H as (Hr & Hnd & _). rewrite decide_True by done. reflexivity.
  - destruct H as [-> Hneg]. rewrite decide_False; [reflexivity|].
    intros [Hr Hnd]. apply Hneg. repeat split; [done | done | apply unused_fresh].
Qed.

Lemma _validateLuckyStars_spec stars :
  length stars = 2%nat →
  if decide (in_range 12 stars ∧ NoDup stars)
  then _validateLuckyStars stars = Ok tt
  else _validateLuckyStars stars = Err InvalidLuckyStars.
Proof.
  intros Hlen.
  destruct stars as [|a [|b [|]]]; try discriminate.
  unfold _validateLuckyStars.
  change (for_each _ (seq 0 2) _) with
    (for_each (validate_number 12 InvalidLuckyStars) [a; b] (replicate 13%nat false)).
  pose proof (validate_loop_spec 12 InvalidLuckyStars [a; b]
                (replicate 13%nat false)) as H.
  rewrite length_replicate in H. specialize (H ltac:(lia)).
  destruct (for_each _ _ _) as [u|e'].
  - destruct H as (Hr & Hnd & _). rewrite decide_True by done. reflexivity.
  - destruct H as [-> Hneg]. rewrite decide_False; [reflexivity|].
    intros [Hr Hnd]. apply Hneg. repeat split; [done | done | apply unused_fresh].
Qed.

(** The script-side validator. *)

Lemma remove_dups_length_le {A : Type} `{EqDecision A} (l : list A) :
  (length (remove_dups l) ≤ length l)%nat.
Proof.
  induction l as [|x l IH]; simpl; [lia|].
  destruct (decide_rel elem_of x l); simpl; lia.
Qed.

Lemma remove_dups_length_NoDup {A : Type} `{EqDecision A} (l : list A) :
  length (remove_dups l) = length l ↔ NoDup l.
Proof.
  induction l as [|x l IH]; simpl.
  - split; [constructor | done].
  - pose proof (remove_dups_length_le l) as Hle.
    destruct (decide_rel elem_of x l) as [Hin|Hnin]; simpl.
    + split; [lia|]. intros Hnd. apply NoDup_cons in Hnd as [Hnin _]. done.
    + rewrite NoDup_cons. split.
      * intros [= Hlen]. split; [done | by apply IH].
      * intros [_ Hnd]. f_equal. by apply IH.
Qed.

Lemma out_of_range_false bound num :
  InputValidator.out_of_range bound num = false ↔ js_in_range bound num.
Proof.
  destruct num as [z|]; simpl.
  - rewrite orb_false_iff, !Z.ltb_ge. split.
    + intros [H1 H2]. exists z. split; [done | lia].
    + intros (z' & [= <-] & H). lia.
  - split; [done | intros (z & H & _); discriminate].
Qed.

Lemma existsb_out_of_range_false bound nums :
  existsb (InputValidator.out_of_range bound) nums = false ↔
  Forall (js_in_range bound) nums.
Proof.
  induction nums as [|n nums IH]; simpl.
  - split; [constructor | done].
  - rewrite orb_false_iff, Forall_cons, IH, out_of_range_false. done.
Qed.

Lemma validateMainNumbers_spec numbers :
  InputValidator.validateMainNumbers numbers = None ↔
  length numbers = 5%nat ∧ Forall (js_in_range 50) numbers ∧ NoDup numbers.
Proof.
  unfold InputValidator.validateMainNumbers.
  destruct (Nat.eqb_spec (length numbers) 5) as [Hlen|Hlen]; simpl;
    [|split; [done | intros (? & _); done]].
  destruct (existsb _ numbers) eqn:Hex.
  { split; [done|]. intros (_ & Hr & _).
    apply existsb_out_of_range_false in Hr. congruence. }
  apply existsb_out_of_range_false in Hex.
  destruct (Nat.eqb_spec (length (remove_dups numbers)) (length numbers)) as [Hd|Hd]; simpl.
  - apply remove_dups_length_NoDup in Hd. done.
  - split; [done|]. intros (_ & _ & Hnd).
    by apply remove_dups_length_NoDup in Hnd.
Qed.

Lemma validateLuckyStars_spec stars :
  InputValidator.validateLuckyStars stars = None ↔
  length stars = 2%nat ∧ Forall (js_in_range 12) stars ∧ NoDup stars.
Proof.
  unfold InputValidator.validateLuckyStars.
  destruct (Nat.eqb_spec (length stars) 2) as [Hlen|Hlen]; simpl;
    [|split; [done | intros (? & _); done]].
  destruct (existsb _ stars) eqn:Hex.
  { split; [done|]. intros (_ & Hr & _).
    apply existsb_out_of_range_false in Hr. congruence. }
  apply existsb_out_of_range_false in Hex.
  destruct stars as [|a [|b [|]]]; try discriminate. simpl.
  case_bool_decide as Hab.
  - split; [done|]. intros (_ & _ & Hnd). injection Hab as ->.
    apply NoDup_cons in Hnd as [Hnin _]. exfalso. apply Hnin. left.
  - split; [|done]. intros _. repeat split; [done|].
    apply NoDup_cons. split.
    + intros Hin. apply list_elem_of_singleton in Hin. congruence.
    + apply NoDup_singleton.
Qed.

Lemma validateMainNumbers_thrown numbers e :
  InputValidator.validateMainNumbers numbers = Some e →
  e = InputValidator.MainNumbersLength ∨ e = InputValidator.MainNumbersRange
  ∨ e = InputValidator.MainNumbersUnique.
Proof.
  unfold InputValidator.validateMainNumbers.
  repeat case_match; intros [= <-]; auto.
Qed.

Lemma validateLuckyStars_thrown stars e :
  InputValidator.validateLuckyStars stars = Some e →
  e = InputValidator.LuckyStarsLength ∨ e = InputValidator.LuckyStarsRange
  ∨ e = InputValidator.LuckyStarsUnique.
Proof.
  unfold InputValidator.validateLuckyStars.
  repeat case_match; intros [= <-]; auto.
Qed.

(** C10. Pick validation accepts exactly the picks that satisfy length,
    range and uniqueness, and rejects every other with the error of its
    pick.  In the contract an array of type [uint8[5]] ([uint8[2]]) has
    its length by typing, and [_validateMainNumbers] ([_validateLuckyStars])
    accepts it when every value is in [1, 50] ([1, 12]) and no value
    repeats, and reverts with [InvalidMainNumbers] ([InvalidLuckyStars])
    otherwise.  The script-side [InputValidator], which receives arrays of
    any length, returns normally on exactly the arrays of 5 (2) distinct
    integers in range and throws a main-number (lucky-star) error on every
    other. *)
Theorem validation_accepts_exactly_valid_picks (main stars : list N)
    (Hmain : length main = 5%nat) (Hstars : length stars = 2%nat) :
  (in_range 50 main ∧ NoDup main → _validateMainNumbers main = Ok tt)
  ∧ (¬ (in_range 50 main ∧ NoDup main) →
       _validateMainNumbers main = Err InvalidMainNumbers)
  ∧ (in_range 12 stars ∧ NoDup stars → _validateLuckyStars stars = Ok tt)
  ∧ (¬ (in_range 12 stars ∧ NoDup stars) →
       _validateLuckyStars stars = Err InvalidLuckyStars)
  ∧ (∀ numbers,
       (InputValidator.validateMainNumbers numbers = None ↔
        length numbers = 5%nat ∧ Forall (js_in_range 50) numbers ∧ NoDup numbers)
       ∧ (∀ e, InputValidator.validateMainNumbers numbers = Some e →
            e = InputValidator.MainNumbersLength
            ∨ e = InputValidator.MainNumbersRange
            ∨ e = InputValidator.MainNumbersUnique))
  ∧ (∀ numbers,
       (InputValidator.validateLuckyStars numbers = None ↔
        length numbers = 2%nat ∧ Forall (js_in_range 12) numbers ∧ NoDup numbers)
       ∧ (∀ e, InputValidator.validateLuckyStars numbers = Some e →
            e = InputValidator.LuckyStarsLength
            ∨ e = InputValidator.LuckyStarsRange
            ∨ e = InputValidator.LuckyStarsUnique)).
Proof.
  pose proof (_validateMainNumbers_spec main Hmain) as Hm.
  pose proof (_validateLuckyStars_spec stars Hstars) as Hs.
  split_and!.
  - intros H. by rewrite decide_True in Hm.
  - intros H. by rewrite decide_False in Hm.
  - intros H. by rewrite decide_True in Hs.
  - intros H. by rewrite decide_False in Hs.
  - intros numbers. split;
      [apply validateMainNumbers_spec | apply validateMainNumbers_thrown].
  - intros numbers. split;
      [apply validateLuckyStars_spec | apply validateLuckyStars_thrown].
Qed.

Lemma validation_accepts_exactly_valid_picks_witness :
  _validateMainNumbers [7; 50; 1; 23; 9] = Ok tt
  ∧ _validateLuckyStars [12; 3] = Ok tt.
Proof.
  pose proof (validation_accepts_exactly_valid_picks [7; 50; 1; 23; 9] [12; 3]
                eq_refl eq_refl) as (Hm & _ & Hs & _).
  split.
  - apply Hm. split.
    + unfold in_range. repeat constructor; lia.
    + apply (bool_decide_unpack _). vm_compute. exact I.
  - apply Hs. split.
    + unfold in_range. repeat constructor; lia.
    + apply (bool_decide_unpack _). vm_compute. exact I.
Defined.

(** ** Window clock *)

Lemma onlyActiveDraw_spec env s :
  let d := draw_at s (currentDrawId s) in
  if decide (drawStartTime d ≤ block_timestamp env ≤ drawEndTime d)
  then onlyActiveDraw env s = Ok tt
  else onlyActiveDraw env s = Err DrawNotActive.
Proof.
  intros d. unfold onlyActiveDraw. fold d.
  destruct (N.ltb_spec (block_timestamp env) (drawStartTime d));
    destruct (N.ltb_spec (drawEndTime d) (block_timestamp env)); simpl;
    case_decide; (done || lia).
Qed.

Lemma buyTicket_outside_window env main stars s :
  let d := draw_at s (currentDrawId s) in
  ¬ (drawStartTime d ≤ block_timestamp env ≤ drawEndTime d) →
  buyTicket env main stars s = Err DrawNotActive.
Proof.
  intros d Hout. unfold buyTicket.
  pose proof (onlyActiveDraw_spec env s) as H. simpl in H. fold d in H.
  rewrite decide_False in H by done. by rewrite H.
Qed.

Lemma validate_indexed_error bound e (f : nat → N) l u e' :
  for_each (λ used (i : nat), validate_number bound e used (f i)) l u = Err e' →
  e' = e.
Proof.
  revert u. induction l as [|i l IH]; intros u; [done|].
  rewrite for_each_cons, validate_number_eq.
  repeat case_match; simpl_bind; try congruence. apply IH.
Qed.

Lemma _validateMainNumbers_error main e :
  _validateMainNumbers main = Err e → e = InvalidMainNumbers.
Proof.
  unfold _validateMainNumbers.
  destruct (for_each _ _ _) as [u|e'] eqn:E; simpl_bind; [done|].
  intros [= <-]. by apply validate_indexed_error in E.
Qed.

Lemma _validateLuckyStars_error stars e :
  _validateLuckyStars stars = Err e → e = InvalidLuckyStars.
Proof.
  unfold _validateLuckyStars.
  destruct (for_each _ _ _) as [u|e'] eqn:E; simpl_bind; [done|].
  intros [= <-]. by apply validate_indexed_error in E.
Qed.

Lemma buyTicket_inside_window env main stars s :
  let d := draw_at s (currentDrawId s) in
  drawStartTime d ≤ block_timestamp env ≤ drawEndTime d →
  buyTicket env main stars s ≠ Err DrawNotActive.
Proof.
  intros d Hin H. unfold buyTicket in H.
  pose proof (onlyActiveDraw_spec env s) as Hw. simpl in Hw. fold d in Hw.
  rewrite decide_True in Hw by done.
  apply bind_Err_inv in H as [H | (? & _ & H)]; [congruence|].
  apply bind_Err_inv in H as [H | (? & _ & H)];
    [by apply require_Err_inv in H as [? _]|].
  apply bind_Err_inv in H as [H | (? & _ & H)];
    [by apply require_Err_inv in H as [? _]|].
  apply bind_Err_inv in H as [H | (? & _ & H)];
    [by apply _validateMainNumbers_error in H|].
  apply bind_Err_inv in H as [H | (? & _ & H)];
    [by apply _validateLuckyStars_error in H|].
  apply bind_Err_inv in H as [H | (? & _ & H)];
    [by apply checked_add_Err_inv in H|].
  apply bind_Err_inv in H as [H | (? & _ & H)];
    [by apply checked_add_Err_inv in H|].
  apply bind_Err_inv in H as [H | (? & _ & H)];
    [by apply checked_add_Err_inv in H | done].
Qed.

Lemma buyTicket_Ok_inv env main stars s s' :
  buyTicket env main stars s = Ok s' →
  purchase_guards env s
  ∧ _validateMainNumbers main = Ok tt
  ∧ _validateLuckyStars stars = Ok tt
  ∧ s' = purchased env main stars s.
Proof.
  intros H. unfold buyTicket in H.
  pose proof (onlyActiveDraw_spec env s) as Hw. simpl in Hw.
  apply bind_Ok_inv in H as ([] & H1 & H).
  case_decide as Hwin; [|congruence].
  apply bind_Ok_inv in H as ([] & H2 & H). apply require_Ok_inv in H2.
  apply negb_true_iff in H2.
  apply bind_Ok_inv in H as ([] & H3 & H). apply require_Ok_inv in H3.
  apply N.eqb_eq in H3.
  apply bind_Ok_inv in H as ([] & H4 & H).
  apply bind_Ok_inv in H as ([] & H5 & H).
  apply bind_Ok_inv in H as (c & H6 & H). apply checked_add_Ok_inv in H6 as [-> H6].
  apply bind_Ok_inv in H as (t & H7 & H). apply checked_add_Ok_inv in H7 as [-> H7].
  apply bind_Ok_inv in H as (q & H8 & H). apply checked_add_Ok_inv in H8 as [-> H8].
  injection H as <-. unfold purchase_guards. done.
Qed.

Lemma buyTicket_Ok env main stars s :
  purchase_guards env s →
  _validateMainNumbers main = Ok tt →
  _validateLuckyStars stars = Ok tt →
  buyTicket env main stars s = Ok (purchased env main stars s).
Proof.
  intros (Hwin & Hp & Hv & Hc & Ht & Hq) Hm Hs. unfold buyTicket.
  pose proof (onlyActiveDraw_spec env s) as Hw. simpl in Hw.
  rewrite decide_True in Hw by done. rewrite Hw. simpl_bind.
  unfold whenNotPaused. rewrite Hp. simpl_bind.
  rewrite (proj2 (N.eqb_eq _ _) Hv). simpl_bind.
  rewrite Hm, Hs. simpl_bind.
  rewrite !checked_add_Ok by done. reflexivity.
Qed.

(** ** Resolution request *)

Lemma requestDrawRandomness_Ok_inv env requestId s s' :
  requestDrawRandomness env requestId s = Ok s' →
  let d := currentDrawId s in
  let cur := draw_at s d in
  msg_sender env = owner s
  ∧ drawEndTime cur < block_timestamp env
  ∧ randomnessRequested cur = false
  ∧ isCompleted cur = false
  ∧ s' = emit (RandomnessRequested d requestId)
           (set_request requestId d
              (set_draw d
                 (mkDraw (drawId cur) (totalPrizePool cur) (totalTickets cur)
                    (winningMainNumbers cur) (winningLuckyStars cur)
                    (winners cur) (isCompleted cur) true
                    (drawStartTime cur) (drawEndTime cur)
                    (ticketCounts cur) (players cur)) s)).
Proof.
  intros H. unfold requestDrawRandomness, onlyOwner in H.
  apply bind_Ok_inv in H as ([] & H1 & H). apply require_Ok_inv, N.eqb_eq in H1.
  apply bind_Ok_inv in H as ([] & H2 & H).
  apply require_Ok_inv, negb_true_iff, N.leb_gt in H2.
  apply bind_Ok_inv in H as ([] & H3 & H). apply require_Ok_inv, negb_true_iff in H3.
  apply bind_Ok_inv in H as ([] & H4 & H). apply require_Ok_inv, negb_true_iff in H4.
  injection H as <-. done.
Qed.

Lemma requestDrawRandomness_by_owner env requestId s :
  msg_sender env = owner s →
  let cur := draw_at s (currentDrawId s) in
  requestDrawRandomness env requestId s =
  if block_timestamp env <=? drawEndTime cur then Err DrawNotActive
  else if randomnessRequested cur then Err RandomnessAlreadyRequested
  else if isCompleted cur then Err DrawAlreadyCompleted
  else requestDrawRandomness env requestId s.
Proof.
  intros Ho cur. unfold requestDrawRandomness at 1, onlyOwner. fold cur.
  rewrite (proj2 (N.eqb_eq _ _) Ho). simpl_bind.
  destruct (block_timestamp env <=? drawEndTime cur) eqn:E1; simpl_bind; [done|].
  destruct (randomnessRequested cur) eqn:E2; simpl_bind; [done|].
  destruct (isCompleted cur) eqn:E3; simpl_bind; [done|].
  unfold requestDrawRandomness, onlyOwner. fold cur.
  rewrite (proj2 (N.eqb_eq _ _) Ho), E1, E2, E3. reflexivity.
Qed.

(** ** Value transfers *)

Lemma with_payments_id s : with_payments (balance s) [] s = s.
Proof. destruct s. unfold with_payments. simpl. by rewrite app_nil_r. Qed.

Lemma with_payments_twice b1 e1 b2 e2 s :
  with_payments b2 e2 (with_payments b1 e1 s) = with_payments b2 (e1 ++ e2) s.
Proof. unfold with_payments. simpl. by rewrite app_assoc. Qed.

Lemma emit_with_payments e b evs s :
  emit e (with_payments b evs s) = with_payments b (evs ++ [e]) s.
Proof. unfold emit, with_payments. simpl. by rewrite app_assoc. Qed.

Lemma pay_eq env to amount s :
  pay env to amount s =
  if (amount <=? balance s) && accepts env to
  then Ok (with_payments (balance s - amount) [Transfer to amount] s)
  else Err TransferFailed.
Proof. reflexivity. Qed.

Lemma pay_winner_eq env d prize s w :
  pay_winner env d prize s w =
  s' ← pay env w prize s; Ok (emit (PrizeDistributed d w prize) s').
Proof. reflexivity. Qed.

Lemma pay_winners_eq env d prize ws s :
  for_each (pay_winner env d prize) ws s =
  if decide (N.of_nat (length ws) * prize ≤ balance s
             ∧ Forall (λ w, accepts env w = true) ws)
  then Ok (with_payments (balance s - N.of_nat (length ws) * prize)
             (prize_events d prize ws) s)
  else Err TransferFailed.
Proof.
  revert s. induction ws as [|w ws IH]; intros s.
  - rewrite for_each_nil, decide_True by (split; [simpl; lia | constructor]).
    simpl. by rewrite N.sub_0_r, with_payments_id.
  - rewrite for_each_cons, pay_winner_eq, pay_eq.
    destruct (N.leb_spec prize (balance s)) as [Hle|Hgt]; simpl.
    2:{ simpl_bind. rewrite decide_False; [done|]. intros [H _].
        rewrite Nat2N.inj_succ in H. lia. }
    destruct (accepts env w) eqn:Hacc; simpl_bind.
    2:{ rewrite decide_False; [done|]. intros [_ H].
        apply Forall_cons in H as [H _]. congruence. }
    rewrite emit_with_payments, IH. simpl.
    rewrite Nat2N.inj_succ.
    destruct (decide (N.of_nat (length ws) * prize ≤ balance s - prize
                      ∧ Forall (λ w, accepts env w = true) ws)) as [[H1 H2]|Hn].
    + rewrite decide_True by (split; [lia | by constructor]).
      rewrite with_payments_twice. do 2 f_equal. lia.
    + rewrite decide_False; [done|]. intros [H1 H2].
      apply Forall_cons in H2 as [_ H2]. apply Hn. split; [lia | done].
Qed.

(** ** The winner scan *)

Lemma scan_ticket_eq draw who st t :
  scan_ticket draw who st t =
  if _isWinningTicket t (winningMainNumbers draw) (winningLuckyStars draw)
  then if decide (st.2 < length st.1)%nat
       then Ok (<[st.2 := who]> st.1, S st.2) else Err PanicIndex
  else Ok st.
Proof. reflexivity. Qed.

Lemma scan_player_eq s d draw st who :
  scan_player s d draw st who = for_each (scan_ticket draw who) (tickets_of s d who) st.
Proof. reflexivity. Qed.

Lemma scan_ticket_loop draw who ts arr n :
  let k := length (filter (λ t, _isWinningTicket t (winningMainNumbers draw)
                                  (winningLuckyStars draw) = true) ts) in
  (n ≤ length arr)%nat →
  match for_each (scan_ticket draw who) ts (arr, n) with
  | Ok st =>
      st.2 = (n + k)%nat ∧ length st.1 = length arr ∧ (st.2 ≤ length arr)%nat
      ∧ take st.2 st.1 = take n arr ++ replicate k who
  | Err e => e = PanicIndex ∧ (length arr < n + k)%nat
  end.
Proof.
  revert arr n. induction ts as [|t ts IH]; intros arr n k Hn.
  - simpl. subst k. simpl. rewrite Nat.add_0_r, app_nil_r. done.
  - rewrite for_each_cons, scan_ticket_eq. subst k.
    rewrite filter_cons.
    destruct (_isWinningTicket t _ _) eqn:Hwin.
    + destruct (decide (true = true)) as [_|?]; [|done]. cbn [length fst snd].
      destruct (decide (n < length arr)%nat) as [Hlt|Hge]; simpl_bind.
      * specialize (IH (<[n := who]> arr) (S n)).
        rewrite length_insert in IH. specialize (IH ltac:(lia)).
        destruct (for_each _ ts _) as [st|e].
        -- destruct IH as (H1 & H2 & H3 & H4). split_and!; [lia | done | done |].
           rewrite H4. rewrite (take_S_r _ _ who) by (by apply list_lookup_insert_eq).
           rewrite take_insert_ge by lia. by rewrite <- app_assoc.
        -- destruct IH as [-> H]. split; [done | lia].
      * split; [done | lia].
    + destruct (decide (false = true)) as [?|_]; [done|]. simpl_bind. apply IH. done.
Qed.

Lemma scan_player_loop s d draw ps arr n :
  let ws := flat_map (λ who,
      map (λ _, who)
        (filter (λ t, _isWinningTicket t (winningMainNumbers draw)
                        (winningLuckyStars draw) = true)
           (tickets_of s d who))) ps in
  (n ≤ length arr)%nat →
  match for_each (scan_player s d draw) ps (arr, n) with
  | Ok st =>
      st.2 = (n + length ws)%nat ∧ length st.1 = length arr
      ∧ take st.2 st.1 = take n arr ++ ws
  | Err e => e = PanicIndex ∧ (length arr < n + length ws)%nat
  end.
Proof.
  revert arr n. induction ps as [|who ps IH]; intros arr n ws Hn.
  - simpl. subst ws. simpl. rewrite Nat.add_0_r, app_nil_r. done.
  - rewrite for_each_cons, scan_player_eq. subst ws. simpl.
    pose proof (scan_ticket_loop draw who (tickets_of s d who) arr n Hn) as Ht.
    simpl in Ht.
    rewrite length_app, length_map.
    assert (Hrep : ∀ (l : list Ticket), map (λ _, who) l = replicate (length l) who).
    { induction l as [|? l IHl]; simpl; [done | by rewrite IHl]. }
    rewrite Hrep.
    destruct (for_each (scan_ticket draw who) _ _) as [[arr1 n1]|e]; simpl_bind.
    + simpl in Ht. destruct Ht as (-> & Hlen & Hle & Htake).
      specialize (IH arr1 (n + length (filter (λ t, _isWinningTicket t
          (winningMainNumbers draw) (winningLuckyStars draw) = true)
          (tickets_of s d who)))%nat). simpl in IH.
      rewrite Hlen in IH. specialize (IH Hle).
      destruct (for_each _ ps _) as [st|e].
      * destruct IH as (H1 & H2 & H3). split_and!; [lia | done |].
        rewrite H3, Htake. by rewrite <- app_assoc.
      * destruct IH as [-> H]. split; [done | lia].
    + destruct Ht as [-> H]. split; [done | lia].
Qed.

(** ** Settlement *)

Lemma emit_eq e s : emit e s = with_payments (balance s) [e] s.
Proof. reflexivity. Qed.

Lemma scan_all s d :
  let draw := draw_at s d in
  let ws := winning_entries s d in
  match for_each (scan_player s d draw) (players draw)
          (replicate (N.to_nat (totalTickets draw)) 0, 0%nat) with
  | Ok st => st.2 = length ws ∧ take st.2 st.1 = ws
             ∧ (length ws ≤ N.to_nat (totalTickets draw))%nat
  | Err e => e = PanicIndex ∧ (N.to_nat (totalTickets draw) < length ws)%nat
  end.
Proof.
  intros draw ws.
  pose proof (scan_player_loop s d draw (players draw)
                (replicate (N.to_nat (totalTickets draw)) 0) 0 ltac:(lia)) as H.
  simpl in H. change (flat_map _ (players draw)) with ws in H.
  rewrite length_replicate in H.
  destruct (for_each _ _ _) as [st|e].
  - destruct H as (H1 & H2 & H3). split_and!; [done | done |].
    assert (Hle : (st.2 ≤ length st.1)%nat).
    { destruct (decide (st.2 ≤ length st.1)%nat) as [|Hgt]; [done|].
      apply (f_equal length) in H3. rewrite length_take in H3. lia. }
    lia.
  - done.
Qed.

Lemma _findWinnersAndDistribute_eq env d s :
  let draw := draw_at s d in
  let ws := winning_entries s d in
  _findWinnersAndDistribute env d s =
  if decide (length ws ≤ N.to_nat (totalTickets draw))%nat then
    if decide (0 < length ws)%nat then
      if decide (payable_out env d s)
      then _startNewDraw env (paid_out d s)
      else Err TransferFailed
    else _startNewDraw env (paid_out d s)
  else Err PanicIndex.
Proof.
  intros draw ws. unfold _findWinnersAndDistribute. fold draw.
  pose proof (scan_all s d) as H. cbv zeta in H. fold draw ws in H.
  destruct (for_each (scan_player s d draw) _ _) as [st|e]; simpl_bind.
  2:{ destruct H as [-> H]. rewrite decide_False by lia. done. }
  destruct H as (Hk & Htake & Hle). rewrite (decide_True _ _ Hle).
  rewrite Htake, Hk. unfold paid_out, payable_out. fold draw ws.
  fold (completed_with ws draw).
  destruct (decide (0 < length ws)%nat) as [Hpos|Hzero]; simpl_bind; [|done].
  cbn [totalPrizePool completed_with].
  fold (house_fee (totalPrizePool draw)).
  fold (prize_per_winner (totalPrizePool draw) (length ws)).
  set (fee := house_fee (totalPrizePool draw)).
  set (prize := prize_per_winner (totalPrizePool draw) (length ws)).
  rewrite pay_eq. cbn [owner balance set_draw].
  destruct (N.leb_spec fee (balance s)) as [Hfee|Hfee]; simpl.
  2:{ rewrite decide_False; [done|]. intros (H & _). lia. }
  destruct (accepts env (owner s)) eqn:Hacc; simpl_bind.
  2:{ rewrite decide_False; [done|]. by intros (_ & H & _). }
  rewrite emit_with_payments, pay_winners_eq. cbn [balance with_payments].
  destruct (decide (N.of_nat (length ws) * prize ≤ balance s - fee
                    ∧ Forall (λ w, accepts env w = true) ws)) as [[H1 H2]|Hn];
    simpl_bind.
  - rewrite decide_True by (split_and!; [lia | done | done]).
    rewrite with_payments_twice, emit_with_payments.
    rewrite <- !app_assoc. reflexivity.
  - rewrite decide_False; [done|]. intros (H1 & _ & H2). apply Hn. split; [lia | done].
Qed.

(** ** Storage accessors *)

Lemma draw_at_set_draw d dr s d' :
  draw_at (set_draw d dr s) d' = if decide (d = d') then dr else draw_at s d'.
Proof.
  unfold draw_at, mapping_get, set_draw. simpl.
  rewrite lookup_insert. by case_decide.
Qed.

Lemma draw_at_set_draw_eq d dr s : draw_at (set_draw d dr s) d = dr.
Proof. rewrite draw_at_set_draw. by rewrite decide_True. Qed.

Lemma draw_at_set_draw_ne d dr s d' : d ≠ d' → draw_at (set_draw d dr s) d' = draw_at s d'.
Proof. intros. rewrite draw_at_set_draw. by rewrite decide_False. Qed.

Lemma draw_at_fresh s d : draws s !! d = None → draw_at s d = Draw_zero.
Proof. unfold draw_at, mapping_get. by intros ->. Qed.

Lemma tickets_under_fresh s d : playerTickets s !! d = None → tickets_under s d = [].
Proof.
  unfold tickets_under, mapping_get. intros ->. simpl.
  by rewrite map_to_list_empty.
Qed.

Lemma tickets_of_fresh s d p : playerTickets s !! d = None → tickets_of s d p = [].
Proof. unfold tickets_of, mapping_get. intros ->. simpl. by rewrite lookup_empty. Qed.

Lemma _startNewDraw_eq env s :
  _startNewDraw env s =
  if decide (currentDrawId s + 1 ≤ UINT256_MAX
             ∧ block_timestamp env + SEVEN_DAYS ≤ UINT256_MAX)
  then Ok (started env s) else Err PanicOverflow.
Proof.
  unfold _startNewDraw, checked_add.
  destruct (N.leb_spec (currentDrawId s + 1) UINT256_MAX); simpl_bind.
  2:{ rewrite decide_False; [done | lia]. }
  destruct (N.leb_spec (block_timestamp env + SEVEN_DAYS) UINT256_MAX); simpl_bind.
  2:{ rewrite decide_False; [done | lia]. }
  rewrite decide_True by done. reflexivity.
Qed.

(** ** Preservation of the invariants *)

Lemma requests_in_app l1 l2 : requests_in (l1 ++ l2) = requests_in l1 ++ requests_in l2.
Proof. apply omap_app. Qed.

Lemma ledger_invariant_payments b evs s :
  requests_in evs = [] →
  ledger_invariant s → ledger_invariant (with_payments b evs s).
Proof.
  intros Hev (Hf & Hk & Hl & Ho). split; [done|]. split; [done|]. split; [done|].
  unfold requests_once in *.
  change (log (with_payments b evs s)) with (log s ++ evs).
  rewrite requests_in_app, Hev, app_nil_r. exact Ho.
Qed.

Lemma ledger_invariant_set_draw d dr s :
  d ≤ currentDrawId s →
  same_ledger dr (draw_at s d) →
  (randomnessRequested (draw_at s d) = true → randomnessRequested dr = true) →
  ledger_invariant s → ledger_invariant (set_draw d dr s).
Proof.
  intros Hd (Hp & Ht & Hpl & Htc) Hflag (Hf & Hk & Hl & Hn & Ho).
  split; [|split; [|split; [|split]]].
  - intros d' Hd'. destruct (Hf d' Hd') as [H1 H2]. split; [|done].
    simpl in *. rewrite lookup_insert_ne by lia. done.
  - done.
  - intros d'. specialize (Hl d'). unfold draw_consistent in *.
    change (tickets_under (set_draw d dr s) d') with (tickets_under s d').
    change (tickets_of (set_draw d dr s) d') with (tickets_of s d').
    rewrite draw_at_set_draw. case_decide; [subst d'|done].
    by rewrite Hp, Ht, Hpl, Htc.
  - done.
  - intros d' Hd'. destruct (Ho d' Hd') as [H1 H2]. split; [done|].
    rewrite draw_at_set_draw. case_decide; [subst d'; auto | done].
Qed.

Lemma invariant_started env s :
  ledger_invariant s → invariant (started env s).
Proof.
  intros (Hf & Hk & Hl & Hn & Ho).
  set (id := currentDrawId s + 1).
  destruct (Hf id ltac:(lia)) as [Hd Ht].
  pose proof (draw_at_fresh s id Hd) as Hzero.
  unfold started. cbv zeta. fold id. rewrite Hzero.
  cbn [Draw_zero winningMainNumbers winningLuckyStars winners ticketCounts players].
  split; [|split; [|split; [|split; [|split]]]].
  - unfold current_open. cbn [currentDrawId emit set_draw set_currentDrawId].
    change (draw_at (emit ?e ?s) ?d) with (draw_at s d).
    by rewrite draw_at_set_draw_eq.
  - intros d Hlt. cbn [currentDrawId emit set_draw set_currentDrawId] in Hlt.
    destruct (Hf d ltac:(lia)) as [H1 H2]. split; [|done].
    cbn [draws emit set_draw set_currentDrawId].
    rewrite lookup_insert_ne by lia. done.
  - intros r d Hr. specialize (Hk r d Hr).
    cbn [currentDrawId emit set_draw set_currentDrawId]. lia.
  - intros d. specialize (Hl d). unfold draw_consistent in *.
    change (draw_at (emit ?e ?s) ?d) with (draw_at s d).
    change (tickets_under (emit ?e (set_draw ?i ?dr (set_currentDrawId ?j s))) d)
      with (tickets_under s d).
    change (tickets_of (emit ?e (set_draw ?i ?dr (set_currentDrawId ?j s))) d)
      with (tickets_of s d).
    rewrite draw_at_set_draw. case_decide as Hid; [subst d|exact Hl].
    cbn [totalPrizePool totalTickets players ticketCounts].
    rewrite (tickets_under_fresh s id Ht). split_and!.
    + lia.
    + done.
    + constructor.
    + intros p. rewrite (tickets_of_fresh s id p Ht). split; [|done].
      intros Hin. inversion Hin.
    + intros p. rewrite (tickets_of_fresh s id p Ht). unfold mapping_get.
      by rewrite lookup_empty.
  - change (log (emit ?e ?s)) with (log s ++ [e]).
    rewrite requests_in_app. simpl. rewrite app_nil_r. exact Hn.
  - change (log (emit ?e ?s)) with (log s ++ [e]).
    rewrite requests_in_app. simpl. rewrite app_nil_r.
    intros d Hin. destruct (Ho d Hin) as [H1 H2].
    cbn [currentDrawId emit set_draw set_currentDrawId]. split; [lia|].
    change (draw_at (emit ?e ?s) ?d) with (draw_at s d).
    rewrite draw_at_set_draw_ne by lia. exact H2.
Qed.

Lemma invariant_frame s s' :
  currentDrawId s' = currentDrawId s →
  draws s' = draws s →
  playerTickets s' = playerTickets s →
  vrfRequestIdToDraw s' = vrfRequestIdToDraw s →
  requests_in (log s') = requests_in (log s) →
  invariant s → invariant s'.
Proof.
  intros H1 H2 H3 H4 H5.
  unfold invariant, current_open, ledger_invariant, fresh_beyond, requests_known,
    draw_consistent, requests_once, draw_at, tickets_under, tickets_of.
  by rewrite H1, H2, H3, H4, H5.
Qed.

(** *** Ticket records *)

Lemma total_length_perm {K A : Type} (l1 l2 : list (K * list A)) :
  l1 ≡ₚ l2 → length (concat (map snd l1)) = length (concat (map snd l2)).
Proof.
  induction 1 as [|x l1 l2 _ IH|x y l|l1 l2 l3 _ IH1 _ IH2]; simpl.
  - done.
  - rewrite !length_app. lia.
  - rewrite !length_app. lia.
  - congruence.
Qed.

Lemma total_length_insert {A : Type} (m : gmap N (list A)) p v :
  (length (concat (map snd (map_to_list (<[p := v]> m))))
     + length (default [] (m !! p))
   = length (concat (map snd (map_to_list m))) + length v)%nat.
Proof.
  destruct (m !! p) as [x|] eqn:Hp; simpl.
  - rewrite <- (total_length_perm _ _ (map_to_list_delete m p x Hp)).
    rewrite <- (insert_delete_eq m p v).
    rewrite (total_length_perm _ _
               (map_to_list_insert (delete p m) p v (lookup_delete_eq m p))).
    simpl. rewrite !length_app. lia.
  - rewrite (total_length_perm _ _ (map_to_list_insert m p v Hp)).
    simpl. rewrite length_app. lia.
Qed.

Lemma tickets_of_push d p t s d' p' :
  tickets_of (push_ticket d p t s) d' p' =
  if decide (d = d' ∧ p = p') then tickets_of s d p ++ [t] else tickets_of s d' p'.
Proof.
  unfold tickets_of at 1. unfold mapping_get, push_ticket. simpl.
  destruct (decide (d = d')) as [<-|Hd].
  - rewrite lookup_insert_eq. simpl.
    destruct (decide (p = p')) as [<-|Hp].
    + rewrite lookup_insert_eq. simpl. by rewrite decide_True.
    + rewrite lookup_insert_ne by done. rewrite decide_False by (intros [_ ?]; done).
      reflexivity.
  - rewrite lookup_insert_ne by done. rewrite decide_False by (intros [? _]; done).
    reflexivity.
Qed.

Lemma tickets_under_push d p t s d' :
  length (tickets_under (push_ticket d p t s) d') =
  if decide (d = d') then S (length (tickets_under s d)) else length (tickets_under s d').
Proof.
  unfold tickets_under at 1. unfold mapping_get at 1. unfold push_ticket. simpl.
  destruct (decide (d = d')) as [<-|Hd].
  - rewrite lookup_insert_eq. simpl.
    pose proof (total_length_insert (mapping_get ∅ (playerTickets s) d) p
                  (tickets_of s d p ++ [t])) as H.
    rewrite length_app in H. simpl in H.
    change (default [] (mapping_get ∅ (playerTickets s) d !! p))
      with (tickets_of s d p) in H.
    unfold tickets_under. lia.
  - rewrite lookup_insert_ne by done. reflexivity.
Qed.

Lemma invariant_purchased env main stars s :
  purchase_guards env s → invariant s → invariant (purchased env main stars s).
Proof.
  intros (_ & _ & Hvalue & _ & _ & _) (Hopen & Hf & Hk & Hl & Hn & Ho).
  set (d := currentDrawId s). set (who := msg_sender env).
  set (cur := draw_at s d).
  unfold purchased. cbv zeta. fold d who cur.
  set (t := mkTicket main stars who (block_timestamp env)).
  set (count := mapping_get 0 (ticketCounts cur) who).
  set (dr := mkDraw _ _ _ _ _ _ _ _ _ _ _ _).
  assert (Hdraw : ∀ d', draw_at (emit (TicketPurchased d who main stars (msg_value env))
      (set_balance (balance s + msg_value env) (set_draw d dr (push_ticket d who t s)))) d'
      = if decide (d = d') then dr else draw_at s d').
  { intros d'. exact (draw_at_set_draw d dr (push_ticket d who t s) d'). }
  split; [|split; [|split; [|split; [|split]]]].
  - unfold current_open. cbn [currentDrawId emit set_balance set_draw push_ticket].
    fold d. rewrite Hdraw, decide_True by done. exact Hopen.
  - intros d' Hlt. cbn [currentDrawId emit set_balance set_draw push_ticket] in Hlt.
    destruct (Hf d' Hlt) as [H1 H2].
    cbn [draws playerTickets emit set_balance set_draw push_ticket].
    rewrite !lookup_insert_ne by (unfold d; lia). done.
  - exact Hk.
  - intros d'. unfold draw_consistent.
    rewrite Hdraw. specialize (Hl d').
    destruct Hl as (Hpool & Htot & Hnd & Hpl & Hcnt).
    change (tickets_under (emit ?e (set_balance ?b (set_draw ?i ?x ?s0))) d')
      with (tickets_under s0 d').
    change (tickets_of (emit ?e (set_balance ?b (set_draw ?i ?x ?s0))) d')
      with (tickets_of s0 d').
    rewrite tickets_under_push.
    case_decide as Hd; [subst d'|].
    2:{ split_and!; try done.
        - intros p. rewrite tickets_of_push, decide_False by (intros [? _]; done). apply Hpl.
        - intros p. rewrite tickets_of_push, decide_False by (intros [? _]; done). apply Hcnt. }
    fold cur in Hpool, Htot, Hnd, Hpl, Hcnt.
    assert (Hzero : count = 0 ↔ who ∉ players cur).
    { unfold count. rewrite (Hcnt who), (Hpl who).
      destruct (tickets_of s d who) as [|t0 l]; simpl; split.
      - intros _ H. by apply H.
      - done.
      - lia.
      - intros H. contradict H. done. }
    subst dr. cbn [totalPrizePool totalTickets players ticketCounts].
    split_and!.
    + rewrite Hpool, Hvalue. lia.
    + rewrite Htot. lia.
    + destruct (N.eqb_spec count 0) as [Hc|Hc]; [|done].
      apply NoDup_app. split_and!; [done | | apply NoDup_singleton].
      intros x Hx Hx'. apply list_elem_of_singleton in Hx'. subst x.
      by apply Hzero in Hc.
    + intros p. rewrite tickets_of_push.
      destruct (decide (p = who)) as [->|Hp].
      * rewrite decide_True by done. split; [intros _; by destruct (tickets_of s d who)|].
        intros _. destruct (N.eqb_spec count 0) as [Hc|Hc].
        -- apply elem_of_app. right. left.
        -- destruct (decide (who ∈ players cur)); [done|]. by apply Hzero in n.
      * rewrite decide_False by (intros [_ ?]; done). rewrite <- Hpl.
        destruct (N.eqb_spec count 0) as [Hc|Hc]; [|done].
        rewrite elem_of_app, list_elem_of_singleton.
        split; [intros [?|?]; [done | by subst] | by left].
    + intros p. rewrite tickets_of_push. unfold mapping_get.
      destruct (decide (p = who)) as [->|Hp].
      * rewrite decide_True by done. rewrite lookup_insert_eq. simpl.
        unfold count. rewrite (Hcnt who), length_app. simpl. lia.
      * rewrite decide_False by (intros [_ ?]; done).
        rewrite lookup_insert_ne by done. apply Hcnt.
  - change (log (emit ?e ?s0)) with (log s0 ++ [e]).
    rewrite requests_in_app. simpl. rewrite app_nil_r. exact Hn.
  - change (log (emit ?e ?s0)) with (log s0 ++ [e]).
    rewrite requests_in_app. simpl. rewrite app_nil_r.
    intros d' Hin. destruct (Ho d' Hin) as [H1 H2]. split; [exact H1|].
    rewrite Hdraw. case_decide; [subst d'; exact H2 | exact H2].
Qed.

Lemma invariant_requested requestId s :
  let d := currentDrawId s in
  randomnessRequested (draw_at s d) = false →
  invariant s →
  invariant (emit (RandomnessRequested d requestId)
               (set_request requestId d (set_draw d (with_request (draw_at s d)) s))).
Proof.
  intros d Hflag (Hopen & Hinv).
  pose proof Hinv as (_ & _ & _ & Hn & Ho).
  apply (ledger_invariant_set_draw d (with_request (draw_at s d))) in Hinv;
    [|lia|done|done].
  destruct Hinv as (Hf' & Hk' & Hl' & Hn' & Ho').
  split; [|split; [|split; [|split; [|split]]]].
  - unfold current_open.
    change (isCompleted (draw_at (set_draw d (with_request (draw_at s d)) s) d) = false).
    rewrite draw_at_set_draw_eq. exact Hopen.
  - exact Hf'.
  - intros r d' Hr. cbn [vrfRequestIdToDraw emit set_request] in Hr.
    rewrite lookup_insert in Hr. case_decide.
    + injection Hr as <-. cbn [currentDrawId emit set_request set_draw]. unfold d. lia.
    + by apply (Hk' r d').
  - exact Hl'.
  - change (log (emit ?e ?s0)) with (log s0 ++ [e]).
    rewrite requests_in_app. simpl. apply NoDup_app. split_and!.
    + exact Hn.
    + intros x Hx Hx'. apply list_elem_of_singleton in Hx'. subst x.
      destruct (Ho d Hx) as [_ H]. congruence.
    + apply NoDup_singleton.
  - change (log (emit ?e ?s0)) with (log s0 ++ [e]).
    rewrite requests_in_app. simpl. intros d' Hin.
    apply elem_of_app in Hin as [Hin|Hin].
    + by apply Ho'.
    + apply list_elem_of_singleton in Hin. subst d'. split.
      * cbn [currentDrawId emit set_request set_draw]. unfold d. lia.
      * change (randomnessRequested
                  (draw_at (set_draw d (with_request (draw_at s d)) s) d) = true).
        by rewrite draw_at_set_draw_eq.
Qed.

Lemma requests_in_prize_events d prize ws : requests_in (prize_events d prize ws) = [].
Proof. induction ws as [|w ws IH]; [done | exact IH]. Qed.

Lemma ledger_invariant_paid_out d s :
  d ≤ currentDrawId s → ledger_invariant s → ledger_invariant (paid_out d s).
Proof.
  intros Hd Hinv. unfold paid_out. cbv zeta.
  apply (ledger_invariant_set_draw d
           (completed_with (winning_entries s d) (draw_at s d))) in Hinv;
    [|done|done|done].
  case_decide.
  - apply ledger_invariant_payments; [|exact Hinv].
    rewrite !requests_in_app, requests_in_prize_events. reflexivity.
  - rewrite emit_eq. by apply ledger_invariant_payments.
Qed.

Lemma requested_draw_known s requestId :
  requests_known s → requested_draw s requestId ≤ currentDrawId s.
Proof.
  intros Hk. unfold requested_draw, mapping_get.
  destruct (vrfRequestIdToDraw s !! requestId) as [d|] eqn:H; simpl.
  - by apply (Hk requestId).
  - lia.
Qed.

(** ** Randomness delivery *)

Lemma fulfillRandomWords_eq env gas requestId randomWords s :
  let d := requested_draw s requestId in
  fulfillRandomWords env gas requestId randomWords s =
  if isCompleted (draw_at s d) then Ok s
  else
    picks ← resolve gas randomWords;
    _findWinnersAndDistribute env d (set_draw d (with_picks picks (draw_at s d)) s).
Proof. reflexivity. Qed.

Lemma fulfillRandomWords_Ok_inv env gas requestId randomWords s s' :
  fulfillRandomWords env gas requestId randomWords s = Ok s' →
  let d := requested_draw s requestId in
  (isCompleted (draw_at s d) = true ∧ s' = s)
  ∨ (isCompleted (draw_at s d) = false
     ∧ ∃ picks,
         resolve gas randomWords = Ok picks
         ∧ let s1 := set_draw d (with_picks picks (draw_at s d)) s in
           (0 < length (winning_entries s1 d) → payable_out env d s1)%nat
           ∧ s' = started env (paid_out d s1)).
Proof.
  intros H d. rewrite fulfillRandomWords_eq in H. fold d in H.
  destruct (isCompleted (draw_at s d)) eqn:Hc.
  - left. split; [done | congruence].
  - right. split; [done|].
    apply bind_Ok_inv in H as (picks & Hres & H). exists picks. split; [done|].
    cbv zeta. rewrite _findWinnersAndDistribute_eq in H. cbv zeta in H.
    repeat case_decide; try discriminate;
      rewrite _startNewDraw_eq in H; case_decide; try discriminate;
      injection H as <-; (split; [|done]); [done | lia].
Qed.

Lemma invariant_fulfilled env gas requestId randomWords s s' :
  fulfillRandomWords env gas requestId randomWords s = Ok s' →
  invariant s → invariant s'.
Proof.
  intros H Hinv.
  apply fulfillRandomWords_Ok_inv in H as [[_ ->]|(_ & picks & _ & _ & ->)]; [done|].
  destruct Hinv as [_ Hinv].
  pose proof Hinv as (_ & Hk & _).
  pose proof (requested_draw_known s requestId Hk) as Hd.
  apply invariant_started, ledger_invariant_paid_out; [exact Hd|].
  by apply ledger_invariant_set_draw.
Qed.

Lemma invariant_exec env c s s' :
  exec env c s = Ok s' → invariant s → invariant s'.
Proof.
  destruct c as [main stars|requestId|gas requestId ws| | | |newOwner|]; simpl; intros H Hinv.
  - apply buyTicket_Ok_inv in H as (Hg & _ & _ & ->). by apply invariant_purchased.
  - apply requestDrawRandomness_Ok_inv in H as (_ & _ & Hflag & _ & ->).
    by apply invariant_requested.
  - unfold rawFulfillRandomWords in H. apply bind_Ok_inv in H as ([] & _ & H).
    by eapply invariant_fulfilled.
  - unfold pause in H. apply bind_Ok_inv in H as ([] & _ & H).
    apply bind_Ok_inv in H as ([] & _ & H). injection H as <-.
    by eapply invariant_frame; [..|exact Hinv].
  - unfold unpause in H. apply bind_Ok_inv in H as ([] & _ & H).
    apply bind_Ok_inv in H as ([] & _ & H). injection H as <-.
    by eapply invariant_frame; [..|exact Hinv].
  - unfold emergencyWithdraw in H. apply bind_Ok_inv in H as ([] & _ & H).
    apply bind_Ok_inv in H as ([] & _ & H).
    apply bind_Ok_inv in H as ([] & Hc & H). apply require_Ok_inv in Hc.
    destruct Hinv as [Hopen _]. unfold current_open in Hopen. congruence.
  - unfold transferOwnership in H. apply bind_Ok_inv in H as ([] & _ & H).
    apply bind_Ok_inv in H as ([] & _ & H). injection H as <-.
    by eapply invariant_frame; [..|exact Hinv].
  - unfold renounceOwnership in H. apply bind_Ok_inv in H as ([] & _ & H).
    injection H as <-. by eapply invariant_frame; [..|exact Hinv].
Qed.

Lemma invariant_constructor env coordinator s :
  constructor env coordinator = Ok s → invariant s.
Proof.
  unfold constructor. rewrite _startNewDraw_eq. case_decide; [|discriminate].
  intros [= <-]. apply invariant_started.
  split; [|split; [|split; [|split]]].
  - intros d _. simpl. by rewrite !lookup_empty.
  - intros r d Hr. simpl in Hr. by rewrite lookup_empty in Hr.
  - intros d. unfold draw_consistent.
    rewrite draw_at_fresh, tickets_under_fresh by (simpl; apply lookup_empty).
    simpl. split_and!; [done | done | constructor | |].
    + intros p. rewrite tickets_of_fresh by (simpl; apply lookup_empty).
      split; [intros Hin; inversion Hin | done].
    + intros p. rewrite tickets_of_fresh by (simpl; apply lookup_empty).
      unfold mapping_get. by rewrite lookup_empty.
  - constructor.
  - intros d Hin. inversion Hin.
Qed.

Lemma reachable_invariant s : reachable s → invariant s.
Proof.
  induction 1 as [env coordinator s H|env c s s' _ IH H].
  - by eapply invariant_constructor.
  - by eapply invariant_exec.
Qed.

(** ** The ledger and the logged purchases *)

Lemma purchases_of_app l1 l2 d :
  purchases_of (l1 ++ l2) d = purchases_of l1 d ++ purchases_of l2 d.
Proof. apply omap_app. Qed.

Lemma sum_prices_app ps qs : sum_prices (ps ++ qs) = sum_prices ps + sum_prices qs.
Proof. induction ps as [|x ps IH]; simpl; [done | rewrite IH; lia]. Qed.

Lemma purchases_of_prize_events d prize ws d' :
  purchases_of (prize_events d prize ws) d' = [].
Proof. induction ws as [|w ws IH]; [done | exact IH]. Qed.

Lemma purchases_of_purchase d who main stars price d' :
  purchases_of [TicketPurchased d who main stars price] d' =
  if decide (d = d') then [(who, price)] else [].
Proof. unfold purchases_of. simpl. by case_decide. Qed.

Lemma log_consistent_payments b evs s :
  (∀ d, purchases_of evs d = []) →
  log_consistent s → log_consistent (with_payments b evs s).
Proof.
  intros Hev H d. specialize (H d). cbv zeta in *.
  change (log (with_payments b evs s)) with (log s ++ evs).
  rewrite purchases_of_app, Hev, app_nil_r. exact H.
Qed.

Lemma log_consistent_set_draw d dr s :
  same_ledger dr (draw_at s d) →
  log_consistent s → log_consistent (set_draw d dr s).
Proof.
  intros (Hp & Ht & Hpl & _) H d'. specialize (H d'). cbv zeta in *.
  change (log (set_draw d dr s)) with (log s).
  rewrite draw_at_set_draw. case_decide; [subst d'|done].
  by rewrite Hp, Ht, Hpl.
Qed.

Lemma log_consistent_started env s :
  fresh_beyond s → log_consistent s → log_consistent (started env s).
Proof.
  intros Hf H d.
  set (id := currentDrawId s + 1).
  destruct (Hf id ltac:(lia)) as [Hd _].
  pose proof (draw_at_fresh s id Hd) as Hzero.
  pose proof (H id) as (Hn & _ & _). cbv zeta in Hn. rewrite Hzero in Hn. simpl in Hn.
  assert (Hnil : purchases_of (log s) id = []).
  { destruct (purchases_of (log s) id); [done | simpl in Hn; lia]. }
  specialize (H d). cbv zeta in *.
  unfold started. cbv zeta. fold id. rewrite Hzero.
  change (log (emit ?e ?s0)) with (log s0 ++ [e]).
  change (draw_at (emit ?e ?s0) ?x) with (draw_at s0 x).
  rewrite purchases_of_app. simpl. rewrite app_nil_r.
  change (log (set_draw ?i ?dr ?s0)) with (log s).
  rewrite draw_at_set_draw.
  change (draw_at (set_currentDrawId id s) d) with (draw_at s d).
  case_decide; [subst d|exact H].
  cbn [totalTickets totalPrizePool players Draw_zero]. rewrite Hnil. simpl.
  split_and!; [done | done |]. intros p. done.
Qed.

Lemma log_consistent_purchased env main stars s :
  invariant s → log_consistent s → log_consistent (purchased env main stars s).
Proof.
  intros (_ & _ & _ & Hl & _) H d'. specialize (H d'). cbv zeta in H.
  set (d := currentDrawId s). specialize (Hl d).
  destruct Hl as (_ & _ & _ & Hpl & Hcnt). fold d in Hpl, Hcnt.
  unfold purchased. cbv zeta. fold d.
  set (who := msg_sender env) in *. set (cur := draw_at s d) in *.
  set (count := mapping_get 0 (ticketCounts cur) who).
  change (log (emit ?e ?s0)) with (log s0 ++ [e]).
  change (draw_at (emit ?e (set_balance ?b ?s0)) ?x) with (draw_at s0 x).
  change (log (set_balance ?b (set_draw ?i ?dr (push_ticket ?j ?w ?t s)))) with (log s).
  rewrite purchases_of_app, draw_at_set_draw.
  change (draw_at (push_ticket ?j ?w ?t s) d') with (draw_at s d').
  rewrite purchases_of_purchase.
  destruct (decide (d = d')) as [<-|Hne]; simpl; [|by rewrite app_nil_r].
  fold cur in H. destruct H as (Hn & Hsum & Hin).
  rewrite length_app, sum_prices_app, fmap_app. simpl. split_and!.
  - rewrite Hn. lia.
  - rewrite Hsum. lia.
  - intros p. rewrite elem_of_app, list_elem_of_singleton, <- Hin.
    destruct (N.eqb_spec count 0) as [Hc|Hc].
    + by rewrite elem_of_app, list_elem_of_singleton.
    + split; [by left|]. intros [?|Heq]; [done|]. subst p.
      apply Hpl. intros Hnil. apply Hc. unfold count. rewrite (Hcnt who), Hnil. done.
Qed.

Lemma log_consistent_exec env c s s' :
  exec env c s = Ok s' → invariant s → log_consistent s → log_consistent s'.
Proof.
  destruct c as [main stars|requestId|gas requestId ws| | | |newOwner|]; simpl;
    intros H Hinv Hlog.
  - apply buyTicket_Ok_inv in H as (_ & _ & _ & ->). by apply log_consistent_purchased.
  - apply requestDrawRandomness_Ok_inv in H as (_ & _ & _ & _ & ->).
    rewrite emit_eq. apply log_consistent_payments; [done|].
    by apply (log_consistent_set_draw _ _ s).
  - unfold rawFulfillRandomWords in H. apply bind_Ok_inv in H as ([] & _ & H).
    apply fulfillRandomWords_Ok_inv in H as [[_ ->]|(_ & picks & _ & _ & ->)]; [done|].
    destruct Hinv as (_ & Hf & Hk & _).
    pose proof (requested_draw_known s requestId Hk) as Hd.
    set (d := requested_draw s requestId) in *.
    set (s1 := set_draw d (with_picks picks (draw_at s d)) s).
    assert (Hlog1 : log_consistent s1) by (by apply log_consistent_set_draw).
    apply log_consistent_started.
    + intros d' Hlt. destruct (Hf d') as [H1 H2].
      { unfold paid_out in Hlt. cbv zeta in Hlt. by case_decide. }
      unfold paid_out. cbv zeta.
      case_decide; (split; [|exact H2]); simpl; rewrite !lookup_insert_ne; try done;
        unfold paid_out in Hlt; cbv zeta in Hlt; case_decide; simpl in Hlt; lia.
    + unfold paid_out. cbv zeta.
      assert (Hlog2 : log_consistent
                (set_draw d (completed_with (winning_entries s1 d) (draw_at s1 d)) s1))
        by (by apply log_consistent_set_draw).
      case_decide.
      * apply log_consistent_payments; [|exact Hlog2].
        intros d'. rewrite !purchases_of_app, purchases_of_prize_events. reflexivity.
      * rewrite emit_eq. by apply log_consistent_payments.
  - unfold pause in H. apply bind_Ok_inv in H as ([] & _ & H).
    apply bind_Ok_inv in H as ([] & _ & H). by injection H as <-.
  - unfold unpause in H. apply bind_Ok_inv in H as ([] & _ & H).
    apply bind_Ok_inv in H as ([] & _ & H). by injection H as <-.
  - unfold emergencyWithdraw in H. apply bind_Ok_inv in H as ([] & _ & H).
    apply bind_Ok_inv in H as ([] & _ & H).
    apply bind_Ok_inv in H as ([] & Hc & H). apply require_Ok_inv in Hc.
    destruct Hinv as [Hopen _]. unfold current_open in Hopen. congruence.
  - unfold transferOwnership in H. apply bind_Ok_inv in H as ([] & _ & H).
    apply bind_Ok_inv in H as ([] & _ & H). by injection H as <-.
  - unfold renounceOwnership in H. apply bind_Ok_inv in H as ([] & _ & H).
    by injection H as <-.
Qed.

Lemma reachable_log_consistent s : reachable s → log_consistent s.
Proof.
  induction 1 as [env coordinator s H|env c s s' Hr IH H].
  - unfold constructor in H. rewrite _startNewDraw_eq in H.
    case_decide; [|discriminate]. injection H as <-.
    apply log_consistent_started.
    + intros d _. simpl. by rewrite !lookup_empty.
    + intros d. cbv zeta. rewrite draw_at_fresh by (simpl; apply lookup_empty).
      simpl. split_and!; [done | done |]. intros p. done.
  - eapply log_consistent_exec; [exact H | by apply reachable_invariant | exact IH].
Qed.

(** ** The worked scenario is reachable *)

Lemma reachable_run s steps s' :
  reachable s → foldl Scenario.run (Ok s) steps = Ok s' → reachable s'.
Proof.
  revert s. induction steps as [|[env c] steps IH]; intros s Hs H.
  - by injection H as <-.
  - change (foldl Scenario.run (exec env c s) steps = Ok s') in H.
    destruct (exec env c s) as [s1|e] eqn:E.
    + apply (IH s1); [by eapply reachable_exec | exact H].
    + exfalso. clear -H. induction steps as [|x steps IH]; [discriminate | exact (IH H)].
Qed.

Lemma deployed_reachable : reachable (Scenario.state_of Scenario.deployed).
Proof.
  apply (reachable_constructor (Scenario.call_by Scenario.deployer 0 1000)
           Scenario.coordinator).
  vm_compute. reflexivity.
Qed.

Lemma sold_reachable : reachable (Scenario.state_of Scenario.sold).
Proof.
  apply (reachable_run _ Scenario.sales _ deployed_reachable).
  vm_compute. reflexivity.
Qed.

Lemma requested_reachable : reachable (Scenario.state_of Scenario.requested).
Proof.
  apply (reachable_run _ [(Scenario.call_by Scenario.deployer 0 (Scenario.closing + 1),
                           RequestDrawRandomness 1)] _ sold_reachable).
  vm_compute. reflexivity.
Qed.

Lemma settled_reachable : reachable (Scenario.state_of Scenario.settled).
Proof.
  apply (reachable_run _ [Scenario.delivery] _ requested_reachable).
  vm_compute. reflexivity.
Qed.

(** ** The scan visits every ticket of the draw *)

Lemma scan_order_perm {A : Type} (m : gmap N (list A)) (ps : list N) :
  NoDup ps →
  (∀ p, p ∈ ps ↔ default [] (m !! p) ≠ []) →
  flat_map (λ p, default [] (m !! p)) ps ≡ₚ concat (map snd (map_to_list m)).
Proof.
  revert ps. induction m as [|i x m Hi IH] using map_ind; intros ps Hnd Hps.
  - rewrite map_to_list_empty. simpl.
    destruct ps as [|p ps]; [done|].
    exfalso. assert (Hp : p ∈ p :: ps) by left.
    apply Hps in Hp. by rewrite lookup_empty in Hp.
  - rewrite (map_to_list_insert m i x Hi). simpl.
    assert (Hext : ∀ qs, i ∉ qs →
              flat_map (λ p, default [] (<[i:=x]> m !! p)) qs
              = flat_map (λ p, default [] (m !! p)) qs).
    { induction qs as [|q qs IHq]; intros Hq; [done|]. simpl.
      rewrite lookup_insert_ne by (intros ->; apply Hq; left).
      rewrite IHq; [done|]. intros Hin. apply Hq. by right. }
    destruct (decide (i ∈ ps)) as [Hin|Hnin].
    + apply elem_of_Permutation in Hin as [ps' Hperm].
      rewrite Hperm in Hnd. apply NoDup_cons in Hnd as [Hnin' Hnd'].
      rewrite (Permutation_flat_map _ Hperm). simpl.
      rewrite lookup_insert_eq. simpl. apply Permutation_app_head.
      rewrite Hext by done. apply IH; [done|].
      intros p. split.
      * intros Hp. assert (Hne : p ≠ i) by (intros ->; done).
        assert (Hp' : p ∈ ps) by (rewrite Hperm; by right).
        apply Hps in Hp'. by rewrite lookup_insert_ne in Hp'.
      * intros Hp. assert (Hne : p ≠ i) by (intros ->; by rewrite Hi in Hp).
        assert (Hp' : p ∈ ps) by (apply Hps; by rewrite lookup_insert_ne).
        rewrite Hperm in Hp'. apply elem_of_cons in Hp' as [?|?]; done.
    + assert (Hx : x = []).
      { destruct x as [|a x]; [done|]. exfalso. apply Hnin, Hps.
        by rewrite lookup_insert_eq. }
      subst x. simpl. rewrite Hext by done. apply IH; [done|].
      intros p. destruct (decide (p = i)) as [->|Hne].
      * rewrite Hi. simpl. split; [done | intros H; by contradict H].
      * rewrite Hps. by rewrite lookup_insert_ne.
Qed.

Lemma winning_entries_count s d :
  draw_consistent s d →
  length (winning_entries s d) = length (winning_tickets s d)
  ∧ (length (winning_entries s d) ≤ N.to_nat (totalTickets (draw_at s d)))%nat.
Proof.
  intros (_ & Htot & Hnd & Hpl & _).
  assert (Hlen : length (winning_entries s d) = length (winning_tickets s d)).
  { unfold winning_entries, winning_tickets. cbv zeta.
    set (win := λ t, _isWinningTicket t _ _ = true).
    assert (Hperm : flat_map (tickets_of s d) (players (draw_at s d)) ≡ₚ tickets_under s d).
    { apply (scan_order_perm (mapping_get ∅ (playerTickets s) d)); done. }
    rewrite <- Hperm. clear.
    induction (players (draw_at s d)) as [|p ps IH]; [done|]. simpl.
    by rewrite filter_app, !length_app, length_map, IH. }
  split; [exact Hlen|].
  rewrite Hlen, Htot, Nat2N.id. apply length_filter.
Qed.

Lemma winning_entries_per_player s d who :
  draw_consistent s d →
  length (filter (λ w, w = who) (winning_entries s d))
  = length (winning_tickets_of s d who).
Proof.
  intros (_ & _ & Hnd & Hpl & _).
  unfold winning_entries, winning_tickets_of. cbv zeta.
  set (win := λ t, _isWinningTicket t _ _ = true).
  assert (Hnone : who ∉ players (draw_at s d) → tickets_of s d who = []).
  { intros Hnin. destruct (tickets_of s d who) eqn:E; [done|].
    exfalso. apply Hnin, Hpl. by rewrite E. }
  assert (Hsame : ∀ l : list Ticket,
            filter (λ w, w = who) (map (λ _, who) l) = map (λ _, who) l).
  { induction l as [|t l IH]; [done|]. simpl.
    rewrite filter_cons, decide_True by done. by rewrite IH. }
  assert (Hother : ∀ p (l : list Ticket), p ≠ who →
            filter (λ w, w = who) (map (λ _, p) l) = []).
  { intros p l Hne. induction l as [|t l IH]; [done|]. simpl.
    rewrite filter_cons, decide_False by done. exact IH. }
  assert (Hgen : ∀ ps, NoDup ps →
            length (filter (λ w, w = who)
              (flat_map (λ who0, map (λ _, who0) (filter win (tickets_of s d who0))) ps))
            = if decide (who ∈ ps) then length (filter win (tickets_of s d who)) else 0%nat).
  { induction ps as [|p ps IH]; intros Hnd'.
    - rewrite decide_False by (intros H; inversion H). done.
    - apply NoDup_cons in Hnd' as [Hnin Hnd']. simpl.
      rewrite filter_app, length_app, (IH Hnd').
      destruct (decide (p = who)) as [->|Hne].
      + rewrite Hsame, length_map, decide_False by done.
        rewrite decide_True by left. lia.
      + rewrite Hother by done. simpl.
        destruct (decide (who ∈ ps)) as [Hin|Hnin'].
        * by rewrite decide_True by (by right).
        * rewrite decide_False; [done|].
          intros Hin. apply elem_of_cons in Hin as [?|?]; [congruence | done]. }
  rewrite (Hgen _ Hnd). case_decide as Hin; [done|].
  by rewrite (Hnone Hin).
Qed.

Lemma transfers_in_app l1 l2 :
  transfers_in (l1 ++ l2) = transfers_in l1 ++ transfers_in l2.
Proof. apply omap_app. Qed.

Lemma transfers_in_prize_events d prize ws :
  transfers_in (prize_events d prize ws) = map (λ w, (w, prize)) ws.
Proof. induction ws as [|w ws IH]; [done|]. simpl. f_equal. exact IH. Qed.

Lemma fulfillRandomWords_pending env gas requestId randomWords s picks :
  reachable s →
  isCompleted (draw_at s (requested_draw s requestId)) = false →
  resolve gas randomWords = Ok picks →
  let d := requested_draw s requestId in
  let s1 := with_winning_picks requestId picks s in
  d ≤ currentDrawId s
  ∧ draw_consistent s1 d
  ∧ fulfillRandomWords env gas requestId randomWords s =
    if decide (0 < length (winning_entries s1 d))%nat then
      if decide (payable_out env d s1)
      then _startNewDraw env (paid_out d s1)
      else Err TransferFailed
    else _startNewDraw env (paid_out d s1).
Proof.
  intros Hs Hpending Hres d s1.
  pose proof (reachable_invariant s Hs) as (_ & Hinv).
  pose proof Hinv as (_ & Hk & _).
  pose proof (requested_draw_known s requestId Hk) as Hd. fold d in Hd.
  assert (Hinv1 : ledger_invariant s1).
  { unfold s1, with_winning_picks. cbv zeta. by apply ledger_invariant_set_draw. }
  destruct Hinv1 as (_ & _ & Hl1 & _).
  split_and!; [exact Hd | exact (Hl1 d) |].
  rewrite fulfillRandomWords_eq. cbv zeta. rewrite Hpending, Hres. simpl_bind. fold d.
  change (set_draw d (with_picks picks (draw_at s d)) s) with s1.
  rewrite _findWinnersAndDistribute_eq. cbv zeta.
  destruct (winning_entries_count s1 d (Hl1 d)) as [_ Hle].
  by rewrite decide_True.
Qed.

Lemma paid_out_frame d s :
  currentDrawId (paid_out d s) = currentDrawId s
  ∧ draw_at (paid_out d s) d = completed_with (winning_entries s d) (draw_at s d).
Proof.
  unfold paid_out. cbv zeta. case_decide.
  - split; [done|].
    change (draw_at (with_payments ?b ?e ?s0) d) with (draw_at s0 d).
    apply draw_at_set_draw_eq.
  - split; [done|].
    change (draw_at (emit ?e ?s0) d) with (draw_at s0 d).
    apply draw_at_set_draw_eq.
Qed.

Lemma started_frame env s d :
  d ≤ currentDrawId s →
  draw_at (started env s) d = draw_at s d
  ∧ balance (started env s) = balance s
  ∧ transfers_in (log (started env s)) = transfers_in (log s).
Proof.
  intros Hd. unfold started. cbv zeta. split_and!.
  - change (draw_at (emit ?e ?s0) d) with (draw_at s0 d).
    by rewrite draw_at_set_draw_ne by lia.
  - done.
  - change (log (emit ?e (set_draw ?i ?dr (set_currentDrawId ?j s)))) with (log s ++ [e]).
    rewrite transfers_in_app. simpl. by rewrite app_nil_r.
Qed.

(** ** The claims *)



(** C9. In every reachable state and for every draw, settled or not: the
    prize pool is [TICKET_PRICE * totalTickets] and is the sum of the prices
    of the purchases logged for the draw; [totalTickets] is the number of
    those purchases and the number of [Ticket] records stored under the
    draw; and the [players] list has no repetition and holds exactly the
    participants who bought a ticket for the draw. *)
Theorem ledger_agrees_with_purchases (s : State) (d : N) (Hs : reachable s) :
  let draw := draw_at s d in
  let purchases := purchases_of (log s) d in
  totalPrizePool draw = TICKET_PRICE * totalTickets draw
  ∧ totalPrizePool draw = sum_prices purchases
  ∧ totalTickets draw = N.of_nat (length purchases)
  ∧ totalTickets draw = N.of_nat (length (tickets_under s d))
  ∧ NoDup (players draw)
  ∧ (∀ p, p ∈ players draw ↔ p ∈ purchases.*1)
  ∧ (∀ p, p ∈ players draw ↔ tickets_of s d p ≠ []).
Proof.
  pose proof (reachable_invariant s Hs) as (_ & _ & _ & Hl & _).
  pose proof (reachable_log_consistent s Hs d) as (Hn & Hsum & Hin).
  destruct (Hl d) as (Hpool & Htot & Hnd & Hpl & _).
  cbv zeta. split_and!; done.
Qed.

Lemma ledger_agrees_with_purchases_witness :
  let draw := draw_at (Scenario.state_of Scenario.sold) 1 in
  totalTickets draw = 3 ∧ players draw = [Scenario.alice; Scenario.bob]
  ∧ totalPrizePool draw = TICKET_PRICE * totalTickets draw.
Proof.
  pose proof (ledger_agrees_with_purchases
                (Scenario.state_of Scenario.sold) 1 sold_reachable) as (H & _).
  split; [reflexivity | split; [reflexivity | exact H]].
Defined.

Lemma completed_stable env c s s' d :
  reachable s → exec env c s = Ok s' →
  isCompleted (draw_at s d) = true → isCompleted (draw_at s' d) = true.
Proof.
  intros Hs H Hdone.
  pose proof (reachable_invariant s Hs) as (Hopen & Hf & Hk & _).
  unfold current_open in Hopen.
  assert (Hlt : d < currentDrawId s).
  { destruct (N.lt_trichotomy d (currentDrawId s)) as [?|[->|Hgt]]; [done|congruence|].
    destruct (Hf d Hgt) as [H0 _]. rewrite (draw_at_fresh s d H0) in Hdone. discriminate. }
  destruct c as [main stars|requestId|gas requestId ws| | | |newOwner|]; simpl in H.
  - apply buyTicket_Ok_inv in H as (_ & _ & _ & ->). unfold purchased. cbv zeta.
    change (draw_at (emit ?e (set_balance ?b ?s0)) d) with (draw_at s0 d).
    rewrite draw_at_set_draw_ne by lia. exact Hdone.
  - apply requestDrawRandomness_Ok_inv in H as (_ & _ & _ & _ & ->).
    change (draw_at (emit ?e (set_request ?r ?i ?s0)) d) with (draw_at s0 d).
    rewrite draw_at_set_draw_ne by lia. exact Hdone.
  - unfold rawFulfillRandomWords in H. apply bind_Ok_inv in H as ([] & _ & H).
    apply fulfillRandomWords_Ok_inv in H as [[_ ->]|(_ & picks & _ & _ & ->)]; [done|].
    set (d0 := requested_draw s requestId). set (s1 := set_draw d0 _ s).
    assert (Hcur : currentDrawId (paid_out d0 s1) = currentDrawId s).
    { unfold paid_out. cbv zeta. by case_decide. }
    assert (H1 : isCompleted (draw_at s1 d) = true).
    { unfold s1. rewrite draw_at_set_draw. by case_decide; [subst d|]. }
    assert (H2 : isCompleted (draw_at (paid_out d0 s1) d) = true).
    { unfold paid_out. cbv zeta.
      case_decide;
        [change (draw_at (with_payments ?b ?e ?s0) d) with (draw_at s0 d)
        |change (draw_at (emit ?e ?s0) d) with (draw_at s0 d)];
        rewrite draw_at_set_draw; by case_decide. }
    unfold started. cbv zeta. rewrite Hcur.
    change (draw_at (emit ?e ?s0) ?x) with (draw_at s0 x).
    rewrite draw_at_set_draw_ne by lia. exact H2.
  - unfold pause in H. apply bind_Ok_inv in H as ([] & _ & H).
    apply bind_Ok_inv in H as ([] & _ & H). by injection H as <-.
  - unfold unpause in H. apply bind_Ok_inv in H as ([] & _ & H).
    apply bind_Ok_inv in H as ([] & _ & H). by injection H as <-.
  - unfold emergencyWithdraw in H. apply bind_Ok_inv in H as ([] & _ & H).
    apply bind_Ok_inv in H as ([] & _ & H).
    apply bind_Ok_inv in H as ([] & Hc & H). apply require_Ok_inv in Hc. congruence.
  - unfold transferOwnership in H. apply bind_Ok_inv in H as ([] & _ & H).
    apply bind_Ok_inv in H as ([] & _ & H). by injection H as <-.
  - unfold renounceOwnership in H. apply bind_Ok_inv in H as ([] & _ & H).
    by injection H as <-.
Qed.

(** C6. A delivery whose token belongs to a completed draw returns without
    an error and leaves the whole storage as it was: draws, winners,
    balance, current draw and log.  A completed draw stays completed under
    every later transaction, so a replayed delivery for it is always this
    no-op. *)
Theorem delivery_for_completed_draw_is_noop (env : Env) (gas : nat)
    (requestId : N) (randomWords : list N) (s : State)
    (Hdone : isCompleted (draw_at s (requested_draw s requestId)) = true) :
  fulfillRandomWords env gas requestId randomWords s = Ok s
  ∧ (msg_sender env = i_vrfCoordinator s →
     rawFulfillRandomWords env gas requestId randomWords s = Ok s)
  ∧ (∀ env' c s', reachable s → exec env' c s = Ok s' →
       isCompleted (draw_at s' (requested_draw s requestId)) = true).
Proof.
  assert (H : fulfillRandomWords env gas requestId randomWords s = Ok s).
  { rewrite fulfillRandomWords_eq. cbv zeta. by rewrite Hdone. }
  split_and!.
  - exact H.
  - intros Hc. unfold rawFulfillRandomWords.
    rewrite (proj2 (N.eqb_eq _ _) Hc). exact H.
  - intros env' c s' Hs Hexec. by eapply completed_stable.
Qed.

Lemma delivery_for_completed_draw_is_noop_witness :
  exec Scenario.delivery.1 Scenario.delivery.2 (Scenario.state_of Scenario.settled)
  = Ok (Scenario.state_of Scenario.settled).
Proof.
  refine (proj1 (proj2 (delivery_for_completed_draw_is_noop
            Scenario.delivery.1 10 1 [0; 1; 2; 3; 4; 0; 1]
            (Scenario.state_of Scenario.settled) _)) _);
    vm_compute; reflexivity.
Defined.



(** C8. A purchase fails with [DrawNotActive] exactly when the time is
    outside [drawStartTime, drawEndTime]; inside the window, a purchase that
    meets the other conditions is accepted.  A resolution request fails
    whenever the time is not strictly after [drawEndTime], with
    [DrawNotActive] when the owner makes it.  At the instant [drawEndTime]
    itself a purchase is accepted and a request is rejected. *)
Theorem window_boundary (env : Env) (main stars : list N) (requestId : N) (s : State) :
  let cur := draw_at s (currentDrawId s) in
  let now := block_timestamp env in
  (buyTicket env main stars s = Err DrawNotActive
   ↔ ¬ (drawStartTime cur ≤ now ≤ drawEndTime cur))
  ∧ (purchase_guards env s → _validateMainNumbers main = Ok tt →
     _validateLuckyStars stars = Ok tt →
     buyTicket env main stars s = Ok (purchased env main stars s))
  ∧ (now ≤ drawEndTime cur → is_ok (requestDrawRandomness env requestId s) = false)
  ∧ (now ≤ drawEndTime cur → msg_sender env = owner s →
     requestDrawRandomness env requestId s = Err DrawNotActive)
  ∧ (now = drawEndTime cur → drawStartTime cur ≤ drawEndTime cur →
     buyTicket env main stars s ≠ Err DrawNotActive
     ∧ is_ok (requestDrawRandomness env requestId s) = false).
Proof.
  intros cur now.
  assert (Hreq : now ≤ drawEndTime cur →
                 is_ok (requestDrawRandomness env requestId s) = false).
  { intros Hle.
    destruct (requestDrawRandomness env requestId s) as [s'|e] eqn:E; [|done].
    apply requestDrawRandomness_Ok_inv in E as (_ & E & _). fold cur now in E. lia. }
  split_and!.
  - split.
    + intros H Hin. by apply (buyTicket_inside_window env main stars s Hin).
    + apply buyTicket_outside_window.
  - apply buyTicket_Ok.
  - exact Hreq.
  - intros Hle Ho. rewrite requestDrawRandomness_by_owner by done. fold cur now.
    by rewrite (proj2 (N.leb_le _ _) Hle).
  - intros Heq Hstart. split.
    + apply buyTicket_inside_window. fold cur now. lia.
    + apply Hreq. lia.
Qed.

Lemma window_boundary_witness :
  let s := Scenario.state_of Scenario.deployed in
  is_ok (buyTicket (Scenario.call_by Scenario.bob TICKET_PRICE Scenario.closing)
           [1; 2; 3; 4; 5] [1; 2] s) = true
  ∧ requestDrawRandomness (Scenario.call_by Scenario.deployer 0 Scenario.closing) 1 s
    = Err DrawNotActive.
Proof.
  intros s.
  pose proof (window_boundary (Scenario.call_by Scenario.bob TICKET_PRICE Scenario.closing)
                [1; 2; 3; 4; 5] [1; 2] 1 s) as (_ & Hbuy & _).
  pose proof (window_boundary (Scenario.call_by Scenario.deployer 0 Scenario.closing)
                [1; 2; 3; 4; 5] [1; 2] 1 s) as (_ & _ & _ & Hreq & _).
  split.
  - rewrite Hbuy; [reflexivity | | reflexivity | reflexivity].
    unfold purchase_guards. vm_compute. repeat split; congruence.
  - apply Hreq; [vm_compute; congruence | reflexivity].
Defined.

Lemma house_fee_le pool : house_fee pool ≤ pool.
Proof.
  unfold house_fee, HOUSE_FEE_PERCENT. rewrite N.mul_1_r.
  apply N.Div0.div_le_upper_bound. lia.
Qed.

(** C4. Settling a pending draw with pool [p] and [k > 0] winning tickets
    transfers [p * 1 / 100] to the owner and then [(p - fee) / k] once per
    winning ticket, to the ticket's holder (a participant receives as many
    prizes as winning tickets held).  The balance drops by exactly these
    amounts, so the remainder [(p - fee) mod k] stays in the contract.  The
    delivery succeeds whenever every transfer can be made and the draw
    counter and the clock do not overflow. *)
Theorem settlement_with_winners (env : Env) (gas : nat) (requestId : N)
    (randomWords : list N) (picks : list N * list N) (s : State)
    (Hs : reachable s)
    (Hpending : isCompleted (draw_at s (requested_draw s requestId)) = false)
    (Hres : resolve gas randomWords = Ok picks)
    (Hk : (0 < length (winning_tickets (with_winning_picks requestId picks s)
                         (requested_draw s requestId)))%nat) :
  let d := requested_draw s requestId in
  let s1 := with_winning_picks requestId picks s in
  let k := length (winning_tickets s1 d) in
  let p := totalPrizePool (draw_at s d) in
  let houseFee := p * 1 / 100 in
  let prize := (p - houseFee) / N.of_nat k in
  let ws := winning_entries s1 d in
  length ws = k
  ∧ (∀ who, length (filter (λ w, w = who) ws) = length (winning_tickets_of s1 d who))
  ∧ (∀ s', fulfillRandomWords env gas requestId randomWords s = Ok s' →
       transfers_in (log s')
       = transfers_in (log s) ++ (owner s, houseFee) :: map (λ w, (w, prize)) ws
       ∧ balance s' + houseFee + N.of_nat k * prize = balance s
       ∧ balance s' + p = balance s + (p - houseFee) mod N.of_nat k
       ∧ winners (draw_at s' d) = ws
       ∧ isCompleted (draw_at s' d) = true)
  ∧ (payable_out env d s1 →
     currentDrawId s + 1 ≤ UINT256_MAX →
     block_timestamp env + SEVEN_DAYS ≤ UINT256_MAX →
     is_ok (fulfillRandomWords env gas requestId randomWords s) = true).
Proof.
  intros d s1 k p houseFee prize ws.
  destruct (fulfillRandomWords_pending env gas requestId randomWords s picks
              Hs Hpending Hres) as (Hd & Hl1 & Heq).
  fold d s1 in Hd, Hl1, Heq. fold ws in Heq.
  destruct (winning_entries_count s1 d Hl1) as [Hlen _]. fold ws k in Hlen.
  assert (Hpos : (0 < length ws)%nat) by (rewrite Hlen; exact Hk).
  rewrite (decide_True _ _ Hpos) in Heq.
  assert (Hpool : totalPrizePool (draw_at s1 d) = p).
  { unfold s1, with_winning_picks. cbv zeta. fold d. by rewrite draw_at_set_draw_eq. }
  split_and!.
  - exact Hlen.
  - intros who. by apply winning_entries_per_player.
  - intros s' H. rewrite Heq in H.
    destruct (decide (payable_out env d s1)) as [Hpay|]; [|discriminate].
    rewrite _startNewDraw_eq in H. case_decide; [|discriminate]. injection H as <-.
    destruct (paid_out_frame d s1) as [Hcur Hdraw].
    destruct (started_frame env (paid_out d s1) d ltac:(rewrite Hcur; exact Hd))
      as (-> & -> & ->).
    rewrite Hdraw. clear Hcur Hdraw.
    destruct Hpay as (Hfunds & _ & _). fold ws in Hfunds.
    rewrite Hpool, Hlen in Hfunds.
    unfold paid_out. cbv zeta. fold ws. rewrite (decide_True _ _ Hpos).
    rewrite Hpool, Hlen.
    change (house_fee p) with houseFee in *.
    change (prize_per_winner p k) with prize in *.
    pose proof (house_fee_le p) as Hfee. change (house_fee p) with houseFee in Hfee.
    assert (Hdiv : p - houseFee = N.of_nat k * prize + (p - houseFee) mod N.of_nat k).
    { apply N.div_mod. lia. }
    split_and!.
    + change (log (with_payments ?b ?e ?s0)) with (log s ++ e).
      rewrite !transfers_in_app, transfers_in_prize_events. simpl.
      by rewrite app_nil_r.
    + change (balance (with_payments ?b ?e ?s0)) with b.
      change (balance s1) with (balance s) in *. lia.
    + change (balance (with_payments ?b ?e ?s0)) with b.
      change (balance s1) with (balance s) in *. lia.
    + reflexivity.
    + reflexivity.
  - intros Hpay H1 H2. rewrite Heq, (decide_True _ _ Hpay), _startNewDraw_eq.
    destruct (paid_out_frame d s1) as [Hcur _]. rewrite Hcur.
    change (currentDrawId s1) with (currentDrawId s).
    by rewrite decide_True.
Qed.

Lemma settlement_with_winners_witness :
  ∃ s', Scenario.settled = Ok s'
        ∧ transfers_in (log s')
          = [(Scenario.deployer, 300000000000000);
             (Scenario.alice, 14850000000000000);
             (Scenario.bob, 14850000000000000)]
        ∧ winners (draw_at s' 1) = [Scenario.alice; Scenario.bob].
Proof.
  exists (Scenario.state_of Scenario.settled).
  assert (Hrun : fulfillRandomWords Scenario.delivery.1 10 1 [0; 1; 2; 3; 4; 0; 1]
                   (Scenario.state_of Scenario.requested)
                 = Ok (Scenario.state_of Scenario.settled))
    by (vm_compute; reflexivity).
  assert (Hpending : isCompleted (draw_at (Scenario.state_of Scenario.requested)
            (requested_draw (Scenario.state_of Scenario.requested) 1)) = false)
    by reflexivity.
  assert (Hres : resolve 10 [0; 1; 2; 3; 4; 0; 1] = Ok ([1; 2; 3; 4; 5], [1; 2]))
    by reflexivity.
  assert (Hk : (0 < length (winning_tickets
                   (with_winning_picks 1%N ([1; 2; 3; 4; 5]%N, [1; 2]%N)
                      (Scenario.state_of Scenario.requested))
                   (requested_draw (Scenario.state_of Scenario.requested) 1%N)))%nat)
    by (vm_compute; lia).
  destruct (settlement_with_winners Scenario.delivery.1 10 1 [0; 1; 2; 3; 4; 0; 1]
              ([1; 2; 3; 4; 5], [1; 2]) (Scenario.state_of Scenario.requested)
              requested_reachable Hpending Hres Hk) as (_ & _ & H & _).
  destruct (H _ Hrun) as (Ht & _ & _ & Hw & _).
  split; [vm_compute; reflexivity|]. split; [exact Ht | exact Hw].
Defined.

(** C5. Settling a pending draw with no winning ticket makes no transfer:
    the balance is unchanged, fee included.  The draw's winners list is
    empty and its [isCompleted] flag is set.  The delivery succeeds unless
    the draw counter or the clock overflows. *)
Theorem settlement_without_winners (env : Env) (gas : nat) (requestId : N)
    (randomWords : list N) (picks : list N * list N) (s : State)
    (Hs : reachable s)
    (Hpending : isCompleted (draw_at s (requested_draw s requestId)) = false)
    (Hres : resolve gas randomWords = Ok picks)
    (Hk : winning_tickets (with_winning_picks requestId picks s)
            (requested_draw s requestId) = []) :
  let d := requested_draw s requestId in
  (∀ s', fulfillRandomWords env gas requestId randomWords s = Ok s' →
     transfers_in (log s') = transfers_in (log s)
     ∧ balance s' = balance s
     ∧ winners (draw_at s' d) = []
     ∧ isCompleted (draw_at s' d) = true)
  ∧ (currentDrawId s + 1 ≤ UINT256_MAX →
     block_timestamp env + SEVEN_DAYS ≤ UINT256_MAX →
     is_ok (fulfillRandomWords env gas requestId randomWords s) = true).
Proof.
  intros d. set (s1 := with_winning_picks requestId picks s).
  destruct (fulfillRandomWords_pending env gas requestId randomWords s picks
              Hs Hpending Hres) as (Hd & Hl1 & Heq).
  fold d s1 in Hd, Hl1, Heq.
  destruct (winning_entries_count s1 d Hl1) as [Hlen _].
  fold d s1 in Hk. rewrite Hk in Hlen. simpl in Hlen.
  assert (Hws : winning_entries s1 d = []) by (by apply nil_length_inv).
  rewrite decide_False in Heq by lia.
  destruct (paid_out_frame d s1) as [Hcur Hdraw]. rewrite Hws in Hdraw.
  rewrite _startNewDraw_eq, Hcur in Heq.
  change (currentDrawId s1) with (currentDrawId s) in *.
  split.
  - intros s' H. rewrite Heq in H. case_decide; [|discriminate]. injection H as <-.
    destruct (started_frame env (paid_out d s1) d ltac:(rewrite Hcur; exact Hd))
      as (-> & -> & ->).
    rewrite Hdraw. unfold paid_out. cbv zeta. rewrite Hws.
    rewrite decide_False by (simpl; lia).
    change (log (emit ?e ?s0)) with (log s ++ [e]).
    rewrite transfers_in_app. simpl. rewrite app_nil_r. done.
  - intros H1 H2. rewrite Heq. by rewrite decide_True.
Qed.

Lemma settlement_without_winners_witness :
  ∃ s', fulfillRandomWords Scenario.delivery.1 10 1 [5; 6; 7; 8; 9; 2; 3]
          (Scenario.state_of Scenario.requested) = Ok s'
        ∧ balance s' = 3 * TICKET_PRICE
        ∧ winners (draw_at s' 1) = []
        ∧ isCompleted (draw_at s' 1) = true.
Proof.
  destruct (fulfillRandomWords Scenario.delivery.1 10 1 [5; 6; 7; 8; 9; 2; 3]
              (Scenario.state_of Scenario.requested)) as [s'|e] eqn:Hrun;
    [|vm_compute in Hrun; discriminate].
  exists s'. split; [reflexivity|].
  assert (Hpending : isCompleted (draw_at (Scenario.state_of Scenario.requested)
            (requested_draw (Scenario.state_of Scenario.requested) 1)) = false)
    by reflexivity.
  assert (Hres : resolve 10 [5; 6; 7; 8; 9; 2; 3] = Ok ([6; 7; 8; 9; 10], [3; 4]))
    by reflexivity.
  assert (Hk : winning_tickets
                 (with_winning_picks 1 ([6; 7; 8; 9; 10], [3; 4])
                    (Scenario.state_of Scenario.requested))
                 (requested_draw (Scenario.state_of Scenario.requested) 1) = [])
    by (vm_compute; reflexivity).
  destruct (settlement_without_winners Scenario.delivery.1 10 1 [5; 6; 7; 8; 9; 2; 3]
              ([6; 7; 8; 9; 10], [3; 4]) (Scenario.state_of Scenario.requested)
              requested_reachable Hpending Hres Hk) as (H & _).
  destruct (H _ Hrun) as (_ & Hb & Hw & Hc).
  split; [|split; [exact Hw | exact Hc]].
  rewrite Hb. vm_compute. reflexivity.
Defined.

(** ** Outcome resolution *)

(** The rejection loop leaves on its first iteration or never. *)
Lemma rejection_loop_eq gas randomWords i modulus used :
  rejection_loop gas randomWords i modulus used =
  match gas with
  | O => Err OutOfGas
  | S _ =>
      match randomWords !! i with
      | None => Err PanicIndex
      | Some _ =>
          if at_index false used (N.to_nat (number_of randomWords modulus i))
          then Err OutOfGas
          else Ok (number_of randomWords modulus i)
      end
  end.
Proof.
  induction gas as [|gas IH]; [done|].
  cbn [rejection_loop]. unfold array_get, number_of in *.
  destruct (randomWords !! i) as [w|] eqn:Hw; simpl_bind; [|done].
  change (default 0 (Some w)) with w in *.
  destruct (at_index false used _) eqn:Hu; [|done].
  rewrite IH. by destruct gas.
Qed.

Lemma number_of_bound randomWords modulus j :
  0 < modulus → modulus < UINT8_MOD →
  1 ≤ number_of randomWords modulus j ≤ modulus.
Proof.
  intros H0 H1. unfold number_of, UINT8_MOD in *.
  set (w := default 0 (randomWords !! j)).
  assert (Hm : w mod modulus < modulus) by (apply N.mod_upper_bound; lia).
  revert Hm. generalize (w mod modulus). intros r Hm.
  rewrite (N.mod_small (r + 1)) by lia. lia.
Qed.

Lemma pick_number_eq gas randomWords offset modulus st i :
  pick_number gas randomWords offset modulus st i =
  number ← rejection_loop gas randomWords (i + offset) modulus st.1;
  Ok (<[N.to_nat number := true]> st.1, <[i := number]> st.2).
Proof. reflexivity. Qed.

Lemma pick_loop_spec gas randomWords offset modulus idxs used winning :
  0 < modulus → modulus < UINT8_MOD → (N.to_nat modulus < length used)%nat →
  let nums := map (λ i, number_of randomWords modulus (i + offset)) idxs in
  let in_bounds := Forall (λ i, (i + offset < length randomWords)%nat) idxs in
  match for_each (pick_number (S gas) randomWords offset modulus) idxs (used, winning) with
  | Ok st =>
      in_bounds ∧ NoDup nums ∧ unused used nums
      ∧ st.2 = foldl (λ w i, <[i := number_of randomWords modulus (i + offset)]> w)
                 winning idxs
  | Err e =>
      (e = PanicIndex ∧ ¬ in_bounds)
      ∨ (e = OutOfGas ∧ ¬ (NoDup nums ∧ unused used nums))
  end.
Proof.
  intros H0 H1. revert used winning.
  induction idxs as [|i idxs IH]; intros used winning Hlen nums in_bounds.
  - simpl. split_and!; [constructor | constructor | intros x Hx; inversion Hx | done].
  - rewrite for_each_cons, pick_number_eq, rejection_loop_eq. cbn [fst snd].
    subst nums in_bounds. cbn [map].
    set (n := number_of randomWords modulus (i + offset)).
    pose proof (number_of_bound randomWords modulus (i + offset) H0 H1) as Hn. fold n in Hn.
    destruct (randomWords !! (i + offset)%nat) as [w|] eqn:Hw; simpl_bind.
    2:{ left. split; [done|]. intros Hr. apply Forall_cons in Hr as [Hr _].
        apply lookup_ge_None in Hw. lia. }
    apply lookup_lt_Some in Hw.
    destruct (at_index false used (N.to_nat n)) eqn:Hu; simpl_bind.
    { right. split; [done|]. intros (_ & Hun).
      rewrite (Hun n) in Hu; [done | left]. }
    specialize (IH (<[N.to_nat n := true]> used) (<[i := n]> winning)).
    rewrite length_insert in IH. specialize (IH Hlen). cbv zeta in IH.
    set (rest := map (λ i0, number_of randomWords modulus (i0 + offset)) idxs) in *.
    assert (Heq : unused (<[N.to_nat n := true]> used) rest ↔ (n ∉ rest) ∧ unused used rest).
    { unfold unused. split.
      - intros Hun. split.
        + intros Hin. specialize (Hun n Hin).
          rewrite at_index_insert in Hun by lia. by rewrite decide_True in Hun.
        + intros y Hy. specialize (Hun y Hy).
          rewrite at_index_insert in Hun by lia.
          destruct (decide (N.to_nat n = N.to_nat y)); [done | exact Hun].
      - intros [Hnin Hun] y Hy. rewrite at_index_insert by lia.
        rewrite decide_False; [by apply Hun|].
        intros Hxy. apply N2Nat.inj in Hxy. by subst. }
    destruct (for_each _ idxs _) as [st|e].
    + destruct IH as (Hr & Hnd & Hun & Hw'). apply Heq in Hun as [Hnin Hun].
      split_and!.
      * by apply Forall_cons.
      * by constructor.
      * intros y Hy. apply elem_of_cons in Hy as [->|Hy]; [exact Hu | by apply Hun].
      * exact Hw'.
    + destruct IH as [[-> Hneg]|[-> Hneg]].
      * left. split; [done|]. intros Hr. apply Forall_cons in Hr as [_ Hr]. done.
      * right. split; [done|]. intros (Hnd & Hun). apply Hneg.
        apply NoDup_cons in Hnd as [Hnin Hnd]. split; [done|].
        apply Heq. split; [done|]. intros y Hy. apply Hun. by right.
Qed.

Lemma generate_main_spec gas randomWords :
  let nums := map (number_of randomWords 50) (seq 0 5) in
  match generate_main (S gas) randomWords with
  | Ok main => (5 ≤ length randomWords)%nat ∧ NoDup nums ∧ main = nums
  | Err e =>
      (e = PanicIndex ∧ (length randomWords < 5)%nat)
      ∨ (e = OutOfGas ∧ ¬ NoDup nums)
  end.
Proof.
  intros nums. unfold generate_main.
  pose proof (pick_loop_spec gas randomWords 0 50 (seq 0 5)
                (replicate 51%nat false) (replicate 5%nat 0)
                ltac:(lia) ltac:(unfold UINT8_MOD; lia)
                ltac:(rewrite length_replicate; lia)) as H.
  cbv zeta in H.
  change (map _ (seq 0 5)) with nums in H.
  assert (Hb : Forall (λ i, (i + 0 < length randomWords)%nat) (seq 0 5)
               ↔ (5 ≤ length randomWords)%nat).
  { rewrite Forall_forall. split.
    - intros Hall. pose proof (Hall 4%nat ltac:(apply elem_of_seq; lia)). lia.
    - intros Hlen i Hi. apply elem_of_seq in Hi. lia. }
  destruct (for_each _ _ _) as [st|e]; simpl_bind.
  - destruct H as (Hr & Hnd & _ & ->). split_and!; [by apply Hb | done | reflexivity].
  - destruct H as [[-> Hneg]|[-> Hneg]].
    + left. split; [done|]. rewrite Hb in Hneg. lia.
    + right. split; [done|]. intros Hnd. apply Hneg. split; [done|].
      apply unused_fresh.
Qed.

Lemma generate_stars_spec gas randomWords :
  let nums := map (number_of randomWords 12) (seq 5 2) in
  match generate_stars (S gas) randomWords with
  | Ok stars => (7 ≤ length randomWords)%nat ∧ NoDup nums ∧ stars = nums
  | Err e =>
      (e = PanicIndex ∧ (length randomWords < 7)%nat)
      ∨ (e = OutOfGas ∧ ¬ NoDup nums)
  end.
Proof.
  intros nums. unfold generate_stars.
  pose proof (pick_loop_spec gas randomWords 5 12 (seq 0 2)
                (replicate 13%nat false) (replicate 2%nat 0)
                ltac:(lia) ltac:(unfold UINT8_MOD; lia)
                ltac:(rewrite length_replicate; lia)) as H.
  cbv zeta in H.
  change (map _ (seq 0 2)) with nums in H.
  assert (Hb : Forall (λ i, (i + 5 < length randomWords)%nat) (seq 0 2)
               ↔ (7 ≤ length randomWords)%nat).
  { rewrite Forall_forall. split.
    - intros Hall. pose proof (Hall 1%nat ltac:(apply elem_of_seq; lia)). lia.
    - intros Hlen i Hi. apply elem_of_seq in Hi. lia. }
  destruct (for_each _ _ _) as [st|e]; simpl_bind.
  - destruct H as (Hr & Hnd & _ & ->). split_and!; [by apply Hb | done | reflexivity].
  - destruct H as [[-> Hneg]|[-> Hneg]].
    + left. split; [done|]. rewrite Hb in Hneg. lia.
    + right. split; [done|]. intros Hnd. apply Hneg. split; [done|].
      apply unused_fresh.
Qed.

(** What [resolve] returns, for every gas budget and word sequence. *)
Lemma resolve_spec gas randomWords :
  match resolve gas randomWords with
  | Ok picks =>
      (0 < gas)%nat ∧ (7 ≤ length randomWords)%nat ∧ distinct_numbers randomWords
      ∧ picks = (_sortMainNumbers (map (number_of randomWords 50) (seq 0 5)),
                 _sortLuckyStars (map (number_of randomWords 12) (seq 5 2)))
  | Err e =>
      (e = PanicIndex ∧ (0 < gas)%nat ∧ (length randomWords < 7)%nat)
      ∨ (e = OutOfGas ∧ (gas = 0%nat ∨ ¬ distinct_numbers randomWords))
  end.
Proof.
  unfold resolve, distinct_numbers. destruct gas as [|gas].
  { right. split; [reflexivity | by left]. }
  pose proof (generate_main_spec gas randomWords) as Hm.
  pose proof (generate_stars_spec gas randomWords) as Hs. cbv zeta in Hm, Hs.
  destruct (generate_main (S gas) randomWords) as [main|e]; simpl_bind.
  2:{ destruct Hm as [[-> Hm]|[-> Hm]].
      - left. split_and!; [done | lia | lia].
      - right. split; [done|]. right. by intros [? _]. }
  destruct Hm as (Hlen & Hnd & ->).
  destruct (generate_stars (S gas) randomWords) as [stars|e]; simpl_bind.
  2:{ destruct Hs as [[-> Hs]|[-> Hs]].
      - left. split_and!; [done | lia | lia].
      - right. split; [done|]. right. by intros [_ ?]. }
  destruct Hs as (Hlen' & Hnd' & ->). split_and!; [lia | done | done | done | done].
Qed.

Lemma for_each_ext {A S : Type} (body body' : S → A → result S) xs init :
  (∀ s x, x ∈ xs → body s x = body' s x) →
  for_each body xs init = for_each body' xs init.
Proof.
  revert init. induction xs as [|x xs IH]; intros init Hext; [done|].
  rewrite !for_each_cons, (Hext init x) by left.
  destruct (body' init x) as [s|e]; simpl_bind; [|done].
  apply IH. intros s' y Hy. apply Hext. by right.
Qed.

Lemma pick_number_ext gas ws ws' offset modulus st i :
  ws !! (i + offset)%nat = ws' !! (i + offset)%nat →
  pick_number gas ws offset modulus st i = pick_number gas ws' offset modulus st i.
Proof.
  intros H. rewrite !pick_number_eq, !rejection_loop_eq. unfold number_of.
  by rewrite H.
Qed.

(** Only the first seven words are read. *)
Lemma resolve_ext gas ws ws' :
  (∀ j, (j < 7)%nat → ws !! j = ws' !! j) → resolve gas ws = resolve gas ws'.
Proof.
  intros H. unfold resolve, generate_main, generate_stars.
  rewrite (for_each_ext (pick_number gas ws 0 50) (pick_number gas ws' 0 50)).
  2:{ intros st i Hi. apply elem_of_seq in Hi. apply pick_number_ext, H. lia. }
  rewrite (for_each_ext (pick_number gas ws 5 12) (pick_number gas ws' 5 12)).
  2:{ intros st i Hi. apply elem_of_seq in Hi. apply pick_number_ext, H. lia. }
  reflexivity.
Qed.

Lemma resolve_take gas ws : resolve gas (take 7 ws) = resolve gas ws.
Proof. apply resolve_ext. intros j Hj. by apply lookup_take_lt. Qed.

(** ** Sorting *)

Lemma swap_if_greater_cons x l j :
  swap_if_greater (x :: l) (S j) = x :: swap_if_greater l j.
Proof.
  unfold swap_if_greater, at_index. simpl.
  by destruct (default 0 (l !! (j + 1)%nat) <? default 0 (l !! j)).
Qed.

(** A compare-and-swap leaves the smaller value first. *)
Lemma swap_if_greater_at l1 a b l2 :
  swap_if_greater (l1 ++ a :: b :: l2) (length l1) = l1 ++ N.min a b :: N.max a b :: l2.
Proof.
  induction l1 as [|x l1 IH]; simpl.
  - unfold swap_if_greater, at_index. simpl. destruct (N.ltb_spec b a).
    + by rewrite N.min_r, N.max_l by lia.
    + by rewrite N.min_l, N.max_r by lia.
  - by rewrite swap_if_greater_cons, IH.
Qed.

Lemma swap5_0 a b c d e :
  swap_if_greater [a; b; c; d; e] 0 = [N.min a b; N.max a b; c; d; e].
Proof. exact (swap_if_greater_at [] a b [c; d; e]). Qed.

Lemma swap5_1 a b c d e :
  swap_if_greater [a; b; c; d; e] 1 = [a; N.min b c; N.max b c; d; e].
Proof. exact (swap_if_greater_at [a] b c [d; e]). Qed.

Lemma swap5_2 a b c d e :
  swap_if_greater [a; b; c; d; e] 2 = [a; b; N.min c d; N.max c d; e].
Proof. exact (swap_if_greater_at [a; b] c d [e]). Qed.

Lemma swap5_3 a b c d e :
  swap_if_greater [a; b; c; d; e] 3 = [a; b; c; N.min d e; N.max d e].
Proof. exact (swap_if_greater_at [a; b; c] d e []). Qed.

(** The four bubble passes sort five values ascending. *)
Lemma _sortMainNumbers_sorted a b c d e :
  ∃ v w x y z,
    _sortMainNumbers [a; b; c; d; e] = [v; w; x; y; z]
    ∧ v ≤ w ∧ w ≤ x ∧ x ≤ y ∧ y ≤ z.
Proof.
  unfold _sortMainNumbers. cbn [seq foldl Nat.sub].
  rewrite swap5_0, swap5_1, swap5_2, swap5_3.
  set (x1 := N.min a b). set (t1 := N.max a b).
  set (x2 := N.min t1 c). set (t2 := N.max t1 c).
  set (x3 := N.min t2 d). set (t3 := N.max t2 d).
  set (x4 := N.min t3 e). set (m1 := N.max t3 e).
  assert (H1 : x1 ≤ m1 ∧ x2 ≤ m1 ∧ x3 ≤ m1 ∧ x4 ≤ m1) by lia.
  clearbody x1 x2 x3 x4 m1. clear t1 t2 t3.
  rewrite swap5_0, swap5_1, swap5_2.
  set (y1 := N.min x1 x2). set (u1 := N.max x1 x2).
  set (y2 := N.min u1 x3). set (u2 := N.max u1 x3).
  set (y3 := N.min u2 x4). set (m2 := N.max u2 x4).
  assert (H2 : y1 ≤ m2 ∧ y2 ≤ m2 ∧ y3 ≤ m2 ∧ m2 ≤ m1) by lia.
  clearbody y1 y2 y3 m2. clear u1 u2 H1.
  rewrite swap5_0, swap5_1.
  set (z1 := N.min y1 y2). set (v1 := N.max y1 y2).
  set (z2 := N.min v1 y3). set (m3 := N.max v1 y3).
  assert (H3 : z1 ≤ m3 ∧ z2 ≤ m3 ∧ m3 ≤ m2) by lia.
  clearbody z1 z2 m3. clear v1.
  rewrite swap5_0.
  do 5 eexists. split; [reflexivity|]. lia.
Qed.

Lemma swap_if_greater_perm l j :
  (j + 1 < length l)%nat → swap_if_greater l j ≡ₚ l.
Proof.
  revert j. induction l as [|a l IH]; intros j Hj; [simpl in Hj; lia|].
  destruct j as [|j].
  - destruct l as [|b l]; [simpl in Hj; lia|].
    pose proof (swap_if_greater_at [] a b l) as E.
    change (swap_if_greater (a :: b :: l) 0 = N.min a b :: N.max a b :: l) in E.
    rewrite E. clear E.
    destruct (N.le_ge_cases a b).
    + by rewrite N.min_l, N.max_r.
    + rewrite N.min_r, N.max_l by done. apply perm_swap.
  - rewrite swap_if_greater_cons. apply perm_skip, IH. simpl in Hj. lia.
Qed.

Lemma bubble_pass_perm l js :
  Forall (λ j, (j + 1 < length l)%nat) js → foldl swap_if_greater l js ≡ₚ l.
Proof.
  revert l. induction js as [|j js IH]; intros l Hjs; [done|].
  apply Forall_cons in Hjs as [Hj Hjs]. simpl.
  pose proof (swap_if_greater_perm l j Hj) as Hp.
  rewrite IH; [exact Hp|].
  eapply Forall_impl; [exact Hjs|]. intros k Hk. simpl in Hk.
  by rewrite (Permutation_length Hp).
Qed.

Lemma sort_passes_perm l passes :
  length l = 5%nat →
  foldl (λ ns (i : nat), foldl swap_if_greater ns (seq 0 (4 - i))) l passes ≡ₚ l.
Proof.
  revert l. induction passes as [|i passes IH]; intros l Hl; [done|]. simpl.
  assert (Hp : foldl swap_if_greater l (seq 0 (4 - i)) ≡ₚ l).
  { apply bubble_pass_perm, Forall_forall. intros j Hj.
    apply elem_of_seq in Hj. lia. }
  rewrite IH; [exact Hp|]. by rewrite (Permutation_length Hp).
Qed.

Lemma _sortMainNumbers_perm l : length l = 5%nat → _sortMainNumbers l ≡ₚ l.
Proof. apply sort_passes_perm. Qed.

Lemma _sortLuckyStars_perm l : length l = 2%nat → _sortLuckyStars l ≡ₚ l.
Proof. intros Hl. apply swap_if_greater_perm. lia. Qed.

Lemma _sortLuckyStars_sorted a b :
  ∃ v w, _sortLuckyStars [a; b] = [v; w] ∧ v ≤ w.
Proof.
  exists (N.min a b), (N.max a b). split; [|lia].
  exact (swap_if_greater_at [] a b []).
Qed.

(** When no number repeats, resolution returns on any positive gas budget,
    with picks of the right size, in range, sorted and without
    repetition. *)
Lemma resolve_distinct_numbers gas randomWords :
  (0 < gas)%nat → (7 ≤ length randomWords)%nat → distinct_numbers randomWords →
  ∃ main stars,
    resolve gas randomWords = Ok (main, stars)
    ∧ length main = 5%nat ∧ in_range 50 main ∧ NoDup main ∧ Sorted N.le main
    ∧ length stars = 2%nat ∧ in_range 12 stars ∧ NoDup stars ∧ Sorted N.le stars.
Proof.
  intros Hgas Hlen Hdist.
  pose proof (resolve_spec gas randomWords) as H.
  destruct (resolve gas randomWords) as [picks|e].
  2:{ exfalso. destruct H as [(_ & _ & H)|(_ & [H|H])]; [lia | lia | done]. }
  destruct H as (_ & _ & [Hm Hs] & ->).
  set (ms := map (number_of randomWords 50) (seq 0 5)) in *.
  set (ss := map (number_of randomWords 12) (seq 5 2)) in *.
  exists (_sortMainNumbers ms), (_sortLuckyStars ss).
  pose proof (_sortMainNumbers_perm ms eq_refl) as Hpm.
  pose proof (_sortLuckyStars_perm ss eq_refl) as Hps.
  assert (Hrm : in_range 50 ms).
  { unfold in_range, ms. apply Forall_map, Forall_forall. intros j _.
    apply number_of_bound; [lia | unfold UINT8_MOD; lia]. }
  assert (Hrs : in_range 12 ss).
  { unfold in_range, ss. apply Forall_map, Forall_forall. intros j _.
    apply number_of_bound; [lia | unfold UINT8_MOD; lia]. }
  split_and!.
  - reflexivity.
  - by rewrite (Permutation_length Hpm).
  - unfold in_range. by rewrite Hpm.
  - by rewrite Hpm.
  - destruct (_sortMainNumbers_sorted (number_of randomWords 50 0)
                (number_of randomWords 50 1) (number_of randomWords 50 2)
                (number_of randomWords 50 3) (number_of randomWords 50 4))
      as (v & w & x & y & z & E & ?).
    change (_sortMainNumbers ms = [v; w; x; y; z]) in E. rewrite E.
    repeat constructor; lia.
  - by rewrite (Permutation_length Hps).
  - unfold in_range. by rewrite Hps.
  - by rewrite Hps.
  - destruct (_sortLuckyStars_sorted (number_of randomWords 12 5)
                (number_of randomWords 12 6)) as (v & w & E & ?).
    change (_sortLuckyStars ss = [v; w]) in E. rewrite E.
    repeat constructor; lia.
Qed.

Lemma resolve_repeated_number gas randomWords :
  (7 ≤ length randomWords)%nat → ¬ distinct_numbers randomWords →
  resolve gas randomWords = Err OutOfGas.
Proof.
  intros Hlen Hrep.
  pose proof (resolve_spec gas randomWords) as H.
  destruct (resolve gas randomWords) as [picks|e].
  - by destruct H as (_ & _ & H & _).
  - destruct H as [(_ & _ & H)|(-> & _)]; [lia | done].
Qed.

(** C1. The claim fails on the contract: the rejection loop recomputes the
    same number from the same word, so it leaves on its first iteration or
    never.  For the seven words 0, 50, 2, 3, 4, 5, 6 the second main number
    repeats the first (both are 1) and the resolution exhausts every gas
    budget; a delivery of these words to a pending draw reverts and the
    draw is not settled. *)
Theorem rejection_loop_exhausts_gas_on_repeated_number :
  (∀ gas, resolve gas [0; 50; 2; 3; 4; 5; 6] = Err OutOfGas)
  ∧ (∀ gas,
       exec Scenario.delivery.1 (RawFulfillRandomWords gas 1 [0; 50; 2; 3; 4; 5; 6])
         (Scenario.state_of Scenario.requested) = Err OutOfGas).
Proof.
  assert (H : ∀ gas, resolve gas [0; 50; 2; 3; 4; 5; 6] = Err OutOfGas).
  { intros gas. apply resolve_repeated_number; [simpl; lia|].
    intros [Hnd _]. vm_compute in Hnd.
    apply NoDup_cons in Hnd as [Hnin _]. apply Hnin. left. }
  split; [exact H|].
  intros gas. simpl. unfold rawFulfillRandomWords.
  change (msg_sender Scenario.delivery.1 =? i_vrfCoordinator _) with true.
  simpl_bind. rewrite fulfillRandomWords_eq. cbv zeta.
  change (isCompleted (draw_at _ _)) with false. cbv iota.
  by rewrite H.
Qed.

(** C2, as stated, fails: a delivery of eight words to a pending draw is
    accepted and settles the draw. *)
Lemma delivery_of_eight_words_is_accepted :
  length [0; 1; 2; 3; 4; 0; 1; 99] ≠ 7%nat
  ∧ is_ok (exec Scenario.delivery.1
             (RawFulfillRandomWords 10 1 [0; 1; 2; 3; 4; 0; 1; 99])
             (Scenario.state_of Scenario.requested)) = true.
Proof. split; [simpl; lia | vm_compute; reflexivity]. Qed.

(** C2, amended. A delivery to a pending draw makes no word-count check and
    has no error for it.  With fewer than 7 words the call aborts, on the
    out-of-range array read or before it by exhausting its gas; with 7 words
    or more only the first 7 are read, so words beyond the seventh change
    nothing; and whatever the number of words, a failing delivery fails with
    an index panic, gas exhaustion, a failed transfer or an arithmetic
    overflow. *)
Theorem delivery_reads_the_first_seven_words (env : Env) (gas : nat)
    (requestId : N) (randomWords : list N) (s : State)
    (Hpending : isCompleted (draw_at s (requested_draw s requestId)) = false) :
  ((length randomWords < 7)%nat →
     fulfillRandomWords env gas requestId randomWords s = Err PanicIndex
     ∨ fulfillRandomWords env gas requestId randomWords s = Err OutOfGas)
  ∧ ((7 ≤ length randomWords)%nat →
     fulfillRandomWords env gas requestId randomWords s
     = fulfillRandomWords env gas requestId (take 7 randomWords) s)
  ∧ (∀ e, fulfillRandomWords env gas requestId randomWords s = Err e →
       e = PanicIndex ∨ e = OutOfGas ∨ e = TransferFailed ∨ e = PanicOverflow).
Proof.
  rewrite !fulfillRandomWords_eq. cbv zeta. rewrite Hpending.
  pose proof (resolve_spec gas randomWords) as H.
  split_and!.
  - intros Hlen. destruct (resolve gas randomWords) as [picks|e]; simpl_bind.
    + destruct H as (_ & H & _). lia.
    + destruct H as [(-> & _)|(-> & _)]; auto.
  - intros _. by rewrite resolve_take.
  - intros e. destruct (resolve gas randomWords) as [picks|e']; simpl_bind.
    + rewrite _findWinnersAndDistribute_eq. cbv zeta.
      repeat case_decide; rewrite ?_startNewDraw_eq; repeat case_decide;
        intros [= <-]; auto.
    + intros [= <-]. destruct H as [(-> & _)|(-> & _)]; auto.
Qed.

Lemma delivery_reads_the_first_seven_words_witness :
  fulfillRandomWords Scenario.delivery.1 10 1 [0; 1; 2; 3; 4; 0]
    (Scenario.state_of Scenario.requested) = Err PanicIndex
  ∧ fulfillRandomWords Scenario.delivery.1 10 1 [0; 1; 2; 3; 4; 0; 1; 99]
      (Scenario.state_of Scenario.requested)
    = fulfillRandomWords Scenario.delivery.1 10 1 [0; 1; 2; 3; 4; 0; 1]
        (Scenario.state_of Scenario.requested).
Proof.
  assert (Hpending : isCompleted (draw_at (Scenario.state_of Scenario.requested)
            (requested_draw (Scenario.state_of Scenario.requested) 1)) = false)
    by reflexivity.
  split.
  - vm_compute. reflexivity.
  - exact (proj1 (proj2 (delivery_reads_the_first_seven_words Scenario.delivery.1 10 1
             [0; 1; 2; 3; 4; 0; 1; 99] (Scenario.state_of Scenario.requested) Hpending))
             ltac:(simpl; lia)).
Defined.

(** * Further properties *)

(** ** Sorting and matching *)

Lemma _sortMainNumbers_Sorted numbers :
  length numbers = 5%nat → Sorted N.le (_sortMainNumbers numbers).
Proof.
  intros Hlen.
  destruct numbers as [|a [|b [|c [|d [|e [|]]]]]]; try discriminate.
  destruct (_sortMainNumbers_sorted a b c d e) as (v & w & x & y & z & -> & ?).
  repeat constructor; lia.
Qed.

Lemma _sortLuckyStars_Sorted stars :
  length stars = 2%nat → Sorted N.le (_sortLuckyStars stars).
Proof.
  intros Hlen. destruct stars as [|a [|b [|]]]; try discriminate.
  destruct (_sortLuckyStars_sorted a b) as (v & w & -> & ?).
  repeat constructor; lia.
Qed.

Lemma sorted_perm_eq (l1 l2 : list N) :
  Sorted N.le l1 → Sorted N.le l2 → l1 ≡ₚ l2 → l1 = l2.
Proof. apply (Sorted_unique N.le). Qed.

Lemma at_index_forallb_eq (l1 l2 : list N) n :
  length l1 = n → length l2 = n →
  forallb (λ i : nat, at_index 0 l1 i =? at_index 0 l2 i) (seq 0 n) = true ↔ l1 = l2.
Proof.
  intros H1 H2. split.
  - intros H. apply list_eq. intros i.
    destruct (decide (i < n)%nat) as [Hi|Hi].
    + rewrite forallb_forall in H. specialize (H i).
      rewrite <- list_elem_of_In, elem_of_seq in H. specialize (H ltac:(lia)).
      apply N.eqb_eq in H. unfold at_index in H.
      destruct (lookup_lt_is_Some_2 l1 i ltac:(lia)) as [x Hx].
      destruct (lookup_lt_is_Some_2 l2 i ltac:(lia)) as [y Hy].
      rewrite Hx, Hy in *. simpl in H. congruence.
    + rewrite !lookup_ge_None_2 by lia. done.
  - intros ->. apply forallb_forall. intros i _. apply N.eqb_refl.
Qed.

(** X1. [_sortMainNumbers] returns its five values in ascending order and
    changes nothing but their order; it leaves an ascending array as it is,
    and gives the same result for every ordering of the same values. *)
Theorem sorting_main_numbers (numbers : list N) (Hlen : length numbers = 5%nat) :
  Sorted N.le (_sortMainNumbers numbers)
  ∧ _sortMainNumbers numbers ≡ₚ numbers
  ∧ (Sorted N.le numbers → _sortMainNumbers numbers = numbers)
  ∧ (∀ other, other ≡ₚ numbers → _sortMainNumbers other = _sortMainNumbers numbers).
Proof.
  pose proof (_sortMainNumbers_Sorted numbers Hlen) as Hs.
  pose proof (_sortMainNumbers_perm numbers Hlen) as Hp.
  split_and!; [done | done | |].
  - intros Hsorted. by apply sorted_perm_eq.
  - intros other Ho.
    assert (Hlo : length other = 5%nat) by (by rewrite Ho).
    apply sorted_perm_eq.
    + by apply _sortMainNumbers_Sorted.
    + done.
    + by rewrite (_sortMainNumbers_perm other Hlo), Hp.
Qed.

Lemma sorting_main_numbers_witness :
  Sorted N.le (_sortMainNumbers [50; 7; 23; 1; 9])
  ∧ _sortMainNumbers [50; 7; 23; 1; 9] ≡ₚ [50; 7; 23; 1; 9].
Proof.
  destruct (sorting_main_numbers [50; 7; 23; 1; 9] eq_refl) as (H1 & H2 & _).
  split; assumption.
Defined.

(** X2. [_sortLuckyStars] returns its two values in ascending order and
    changes nothing but their order; every ordering of the same two values
    gives the same result. *)
Theorem sorting_lucky_stars (stars : list N) (Hlen : length stars = 2%nat) :
  Sorted N.le (_sortLuckyStars stars)
  ∧ _sortLuckyStars stars ≡ₚ stars
  ∧ (Sorted N.le stars → _sortLuckyStars stars = stars)
  ∧ (∀ other, other ≡ₚ stars → _sortLuckyStars other = _sortLuckyStars stars).
Proof.
  pose proof (_sortLuckyStars_Sorted stars Hlen) as Hs.
  pose proof (_sortLuckyStars_perm stars Hlen) as Hp.
  split_and!; [done | done | |].
  - intros Hsorted. by apply sorted_perm_eq.
  - intros other Ho.
    assert (Hlo : length other = 2%nat) by (by rewrite Ho).
    apply sorted_perm_eq.
    + by apply _sortLuckyStars_Sorted.
    + done.
    + by rewrite (_sortLuckyStars_perm other Hlo), Hp.
Qed.

Lemma sorting_lucky_stars_witness :
  Sorted N.le (_sortLuckyStars [12; 3]) ∧ _sortLuckyStars [12; 3] ≡ₚ [12; 3].
Proof.
  destruct (sorting_lucky_stars [12; 3] eq_refl) as (H1 & H2 & _).
  split; assumption.
Defined.

Lemma _isWinningTicket_eq t wm ws :
  length (mainNumbers t) = 5%nat → length (luckyStars t) = 2%nat →
  length wm = 5%nat → length ws = 2%nat →
  _isWinningTicket t wm ws = true
  ↔ _sortMainNumbers (mainNumbers t) = wm ∧ _sortLuckyStars (luckyStars t) = ws.
Proof.
  intros H1 H2 H3 H4. unfold _isWinningTicket. cbv zeta.
  rewrite andb_true_iff.
  rewrite (at_index_forallb_eq _ wm 5), (at_index_forallb_eq _ ws 2); try done.
  - by rewrite (Permutation_length (_sortLuckyStars_perm _ H2)).
  - by rewrite (Permutation_length (_sortMainNumbers_perm _ H1)).
Qed.

(** X3. A ticket wins exactly when its main numbers are the winning main
    numbers and its lucky stars are the winning lucky stars, each in any
    order: the order in which the player entered the picks does not
    matter.  (The winning arrays are ascending, as [fulfillRandomWords]
    stores them.) *)
Theorem winning_is_order_independent (t : Ticket) (wm ws : list N)
    (Hmain : length (mainNumbers t) = 5%nat)
    (Hstars : length (luckyStars t) = 2%nat)
    (Hwm : length wm = 5%nat) (Hws : length ws = 2%nat)
    (Hsm : Sorted N.le wm) (Hss : Sorted N.le ws) :
  _isWinningTicket t wm ws = true
  ↔ mainNumbers t ≡ₚ wm ∧ luckyStars t ≡ₚ ws.
Proof.
  rewrite _isWinningTicket_eq by done. split.
  - intros [<- <-]. split.
    + symmetry. by apply _sortMainNumbers_perm.
    + symmetry. by apply _sortLuckyStars_perm.
  - intros [Hm Hs]. split.
    + apply sorted_perm_eq; [by apply _sortMainNumbers_Sorted | done |].
      by rewrite (_sortMainNumbers_perm _ Hmain).
    + apply sorted_perm_eq; [by apply _sortLuckyStars_Sorted | done |].
      by rewrite (_sortLuckyStars_perm _ Hstars).
Qed.

Lemma winning_is_order_independent_witness :
  _isWinningTicket (mkTicket [5; 1; 4; 2; 3] [2; 1] 200 1000) [1; 2; 3; 4; 5] [1; 2] = true.
Proof.
  apply (winning_is_order_independent (mkTicket [5; 1; 4; 2; 3] [2; 1] 200 1000)
           [1; 2; 3; 4; 5] [1; 2] eq_refl eq_refl eq_refl eq_refl).
  - repeat constructor; lia.
  - repeat constructor; lia.
  - split.
    + apply (bool_decide_unpack _). vm_compute. exact I.
    + apply (bool_decide_unpack _). vm_compute. exact I.
Defined.

(** ** Outcome resolution *)

(** X4. [fulfillRandomWords] computes its picks exactly when the gas
    suffices for one iteration of each loop, seven words are delivered and
    no number repeats among the five main numbers or the two lucky stars.
    The picks it then stores are the numbers [word mod 50 + 1] and
    [word mod 12 + 1] of the seven words, in ascending order: five distinct
    values in [1, 50] and two distinct values in [1, 12]. *)
Theorem resolution_outcome (gas : nat) (randomWords : list N) :
  (is_ok (resolve gas randomWords) = true
   ↔ (0 < gas)%nat ∧ (7 ≤ length randomWords)%nat ∧ distinct_numbers randomWords)
  ∧ (∀ picks, resolve gas randomWords = Ok picks →
       published_pick 5 50 picks.1
       ∧ published_pick 2 12 picks.2
       ∧ picks.1 ≡ₚ map (number_of randomWords 50) (seq 0 5)
       ∧ picks.2 ≡ₚ map (number_of randomWords 12) (seq 5 2)).
Proof.
  pose proof (resolve_spec gas randomWords) as H.
  split.
  - destruct (resolve gas randomWords) as [picks|e]; simpl.
    + destruct H as (? & ? & ? & _). done.
    + split; [done|]. intros (Hg & Hl & Hd).
      destruct H as [(_ & _ & ?)|(_ & [?|?])]; [lia | lia | done].
  - intros picks Hp. rewrite Hp in H. destruct H as (Hg & Hl & Hd & Heq).
    destruct (resolve_distinct_numbers gas randomWords Hg Hl Hd)
      as (main & stars & Hr & H1 & H2 & H3 & H4 & H5 & H6 & H7 & H8).
    rewrite Hp in Hr. injection Hr as ->. simpl.
    split_and!; try done.
    + injection Heq as -> _. by apply _sortMainNumbers_perm.
    + injection Heq as _ ->. by apply _sortLuckyStars_perm.
Qed.

Lemma resolution_outcome_witness :
  resolve 1 [49; 0; 101; 7; 12; 23; 10] = Ok ([1; 2; 8; 13; 50], [11; 12])
  ∧ published_pick 5 50 [1; 2; 8; 13; 50]
  ∧ published_pick 2 12 [11; 12].
Proof.
  split; [reflexivity|].
  destruct (resolution_outcome 1 [49; 0; 101; 7; 12; 23; 10]) as [_ H].
  destruct (H ([1; 2; 8; 13; 50], [11; 12]) eq_refl) as (H1 & H2 & _).
  exact (conj H1 H2).
Defined.

(** ** Retrying an operation *)








(** ** What the simulation prints *)

Lemma shown_amounts_of_hundreds m k :
  DrawSimulator.shownPrizePerWinner (100 * m) k = prize_per_winner (100 * m) k
  ∧ DrawSimulator.shownHouseFee (100 * m) = house_fee (100 * m).
Proof.
  unfold DrawSimulator.shownPrizePerWinner, DrawSimulator.shownHouseFee,
    prize_per_winner, house_fee, HOUSE_FEE_PERCENT.
  rewrite N.mul_1_r.
  replace (100 * m * 99) with (99 * m * 100) by lia.
  rewrite N.div_mul by lia.
  replace (100 * m) with (m * 100) by lia. rewrite N.div_mul by lia.
  split; [|done]. f_equal. lia.
Qed.

(** X6. For every draw of a reachable state the prize per winner and the
    house fee that the simulation script prints, [pool * 99 / 100 / k] and
    [pool / 100], are the amounts the contract pays, [(pool - pool * 1 / 100)
    / k] and [pool * 1 / 100].  They agree because a pool is a multiple of
    the ticket price, hence of 100; for a pool of 150 and one winner the
    script's formula gives 148 and the contract's 149. *)
Theorem shown_prize_is_paid_prize (s : State) (d : N) (k : nat) (Hs : reachable s) :
  let pool := totalPrizePool (draw_at s d) in
  DrawSimulator.shownPrizePerWinner pool k = prize_per_winner pool k
  ∧ DrawSimulator.shownHouseFee pool = house_fee pool
  ∧ DrawSimulator.shownPrizePerWinner 150 1 ≠ prize_per_winner 150 1.
Proof.
  intros pool.
  pose proof (reachable_invariant s Hs) as (_ & _ & _ & Hl & _).
  destruct (Hl d) as (Hpool & _). fold pool in Hpool.
  assert (Hm : pool = 100 * (10 ^ 14 * totalTickets (draw_at s d))).
  { rewrite Hpool. unfold TICKET_PRICE.
    replace (10 ^ 16) with (100 * 10 ^ 14) by reflexivity. lia. }
  rewrite Hm. destruct (shown_amounts_of_hundreds
                          (10 ^ 14 * totalTickets (draw_at s d)) k) as [H1 H2].
  split_and!; [exact H1 | exact H2 | by vm_compute].
Qed.

Lemma shown_prize_is_paid_prize_witness :
  DrawSimulator.shownPrizePerWinner
    (totalPrizePool (draw_at (Scenario.state_of Scenario.settled) 1)) 2
  = 14850000000000000.
Proof.
  destruct (shown_prize_is_paid_prize (Scenario.state_of Scenario.settled) 1 2
              settled_reachable) as (H & _).
  rewrite H. vm_compute. reflexivity.
Defined.

(** ** The shapes of a transaction *)

Lemma resolve_Ok_published gas randomWords picks :
  resolve gas randomWords = Ok picks →
  published_pick 5 50 picks.1 ∧ published_pick 2 12 picks.2.
Proof.
  intros Hp. pose proof (resolve_spec gas randomWords) as H.
  rewrite Hp in H. destruct H as (Hg & Hl & Hd & _).
  destruct (resolve_distinct_numbers gas randomWords Hg Hl Hd)
    as (main & stars & Hr & H1 & H2 & H3 & H4 & H5 & H6 & H7 & H8).
  rewrite Hp in Hr. injection Hr as ->. by unfold published_pick.
Qed.

(** An accepted call leaves the storage in one of six shapes. *)
Lemma exec_Ok_shape env c s s' :
  invariant s → exec env c s = Ok s' →
  (∃ main stars,
      c = BuyTicket main stars ∧ purchase_guards env s
      ∧ _validateMainNumbers main = Ok tt ∧ _validateLuckyStars stars = Ok tt
      ∧ s' = purchased env main stars s)
  ∨ (∃ requestId,
        c = RequestDrawRandomness requestId ∧ msg_sender env = owner s
        ∧ drawEndTime (draw_at s (currentDrawId s)) < block_timestamp env
        ∧ randomnessRequested (draw_at s (currentDrawId s)) = false
        ∧ s' = request_recorded requestId s)
  ∨ (∃ gas requestId ws,
        c = RawFulfillRandomWords gas requestId ws
        ∧ msg_sender env = i_vrfCoordinator s
        ∧ isCompleted (draw_at s (requested_draw s requestId)) = true ∧ s' = s)
  ∨ (∃ gas requestId ws picks,
        c = RawFulfillRandomWords gas requestId ws
        ∧ msg_sender env = i_vrfCoordinator s
        ∧ isCompleted (draw_at s (requested_draw s requestId)) = false
        ∧ resolve gas ws = Ok picks
        ∧ ((0 < length (winning_entries (with_winning_picks requestId picks s)
                         (requested_draw s requestId)))%nat →
           payable_out env (requested_draw s requestId)
             (with_winning_picks requestId picks s))
        ∧ s' = settled_by env requestId picks s)
  ∨ (∃ b, (c = Pause ∧ b = true ∨ c = Unpause ∧ b = false)
          ∧ msg_sender env = owner s ∧ paused s = negb b ∧ s' = set_paused b s)
  ∨ (∃ o, (c = TransferOwnership o ∧ o ≠ 0 ∨ c = RenounceOwnership ∧ o = 0)
          ∧ msg_sender env = owner s ∧ s' = set_owner o s).
Proof.
  intros Hinv H.
  destruct c as [main stars|requestId|gas requestId ws| | | |newOwner|]; simpl in H.
  - left. exists main, stars. by apply buyTicket_Ok_inv in H as (? & ? & ? & ->).
  - right; left. exists requestId.
    apply requestDrawRandomness_Ok_inv in H as (? & ? & ? & _ & ->). done.
  - unfold rawFulfillRandomWords in H. apply bind_Ok_inv in H as ([] & Hc & H).
    apply require_Ok_inv, N.eqb_eq in Hc.
    apply fulfillRandomWords_Ok_inv in H as [[? ->]|(? & picks & ? & ? & ->)].
    + right; right; left. by exists gas, requestId, ws.
    + right; right; right; left. by exists gas, requestId, ws, picks.
  - unfold pause in H. apply bind_Ok_inv in H as ([] & Ho & H).
    apply bind_Ok_inv in H as ([] & Hp & H). injection H as <-.
    apply require_Ok_inv, N.eqb_eq in Ho. apply require_Ok_inv in Hp.
    do 4 right; left. exists true. split_and!; [by left | done | | done].
    by destruct (paused s).
  - unfold unpause in H. apply bind_Ok_inv in H as ([] & Ho & H).
    apply bind_Ok_inv in H as ([] & Hp & H). injection H as <-.
    apply require_Ok_inv, N.eqb_eq in Ho. apply require_Ok_inv in Hp.
    do 4 right; left. exists false. split_and!; [by right | done | done | done].
  - unfold emergencyWithdraw in H. apply bind_Ok_inv in H as ([] & _ & H).
    apply bind_Ok_inv in H as ([] & _ & H).
    apply bind_Ok_inv in H as ([] & Hc & H). apply require_Ok_inv in Hc.
    destruct Hinv as [Hopen _]. unfold current_open in Hopen. congruence.
  - unfold transferOwnership in H. apply bind_Ok_inv in H as ([] & Ho & H).
    apply bind_Ok_inv in H as ([] & Hz & H). injection H as <-.
    apply require_Ok_inv, N.eqb_eq in Ho.
    apply require_Ok_inv, negb_true_iff, N.eqb_neq in Hz.
    do 5 right. exists newOwner. split_and!; [by left | done | done].
  - unfold renounceOwnership in H. apply bind_Ok_inv in H as ([] & Ho & H).
    injection H as <-. apply require_Ok_inv, N.eqb_eq in Ho.
    do 5 right. exists 0. split_and!; [by right | done | done].
Qed.

(** Induction over the reachable states, by the shape of the last accepted
    call. *)
Lemma reachable_shapes (P : State → Prop) :
  (∀ env coordinator, P (started env (blank coordinator (msg_sender env)))) →
  (∀ env main stars s,
      reachable s → P s → purchase_guards env s →
      _validateMainNumbers main = Ok tt → _validateLuckyStars stars = Ok tt →
      P (purchased env main stars s)) →
  (∀ requestId s,
      reachable s → P s →
      randomnessRequested (draw_at s (currentDrawId s)) = false →
      P (request_recorded requestId s)) →
  (∀ env requestId picks s,
      reachable s → P s →
      isCompleted (draw_at s (requested_draw s requestId)) = false →
      published_pick 5 50 picks.1 → published_pick 2 12 picks.2 →
      ((0 < length (winning_entries (with_winning_picks requestId picks s)
                      (requested_draw s requestId)))%nat →
       payable_out env (requested_draw s requestId)
         (with_winning_picks requestId picks s)) →
      P (settled_by env requestId picks s)) →
  (∀ b s, reachable s → P s → P (set_paused b s)) →
  (∀ o s, reachable s → P s → P (set_owner o s)) →
  ∀ s, reachable s → P s.
Proof.
  intros Hstart Hbuy Hreq Hsettle Hpause Hown s Hs.
  induction Hs as [env coordinator s Hc|env c s s' Hs IH Hc].
  - unfold constructor in Hc. rewrite _startNewDraw_eq in Hc.
    case_decide; [|discriminate]. injection Hc as <-. apply Hstart.
  - pose proof (reachable_invariant s Hs) as Hinv.
    destruct (exec_Ok_shape env c s s' Hinv Hc)
      as [(main & stars & _ & ? & ? & ? & ->)
         |[(requestId & _ & _ & _ & ? & ->)
         |[(gas & requestId & ws & _ & _ & _ & ->)
         |[(gas & requestId & ws & picks & _ & _ & ? & Hr & ? & ->)
         |[(b & _ & _ & _ & ->)|(o & _ & _ & ->)]]]]].
    + by apply Hbuy.
    + by apply Hreq.
    + exact IH.
    + apply resolve_Ok_published in Hr as [? ?]. by apply Hsettle.
    + by apply Hpause.
    + by apply Hown.
Qed.

(** ** What each shape reads and writes *)

Lemma draw_at_purchased env main stars s d :
  draw_at (purchased env main stars s) d =
  if decide (currentDrawId s = d) then
    let cur := draw_at s d in
    let count := mapping_get 0 (ticketCounts cur) (msg_sender env) in
    mkDraw (drawId cur) (totalPrizePool cur + msg_value env) (totalTickets cur + 1)
      (winningMainNumbers cur) (winningLuckyStars cur) (winners cur)
      (isCompleted cur) (randomnessRequested cur) (drawStartTime cur)
      (drawEndTime cur) (<[msg_sender env := count + 1]> (ticketCounts cur))
      (if count =? 0 then players cur ++ [msg_sender env] else players cur)
  else draw_at s d.
Proof.
  unfold purchased. cbv zeta.
  change (draw_at (emit ?e (set_balance ?b ?x)) d) with (draw_at x d).
  rewrite draw_at_set_draw. case_decide as Hd; [by subst d|done].
Qed.

Lemma tickets_of_purchased env main stars s d p :
  tickets_of (purchased env main stars s) d p =
  if decide (currentDrawId s = d ∧ msg_sender env = p)
  then tickets_of s d p
       ++ [mkTicket main stars (msg_sender env) (block_timestamp env)]
  else tickets_of s d p.
Proof.
  unfold purchased. cbv zeta.
  change (tickets_of (emit ?e (set_balance ?b (set_draw ?i ?dr ?x))) d p)
    with (tickets_of x d p).
  rewrite tickets_of_push. case_decide as Hd; [|done]. by destruct Hd as [<- <-].
Qed.

Lemma draw_at_request_recorded requestId s d :
  draw_at (request_recorded requestId s) d =
  if decide (currentDrawId s = d) then with_request (draw_at s d) else draw_at s d.
Proof.
  unfold request_recorded. cbv zeta.
  change (draw_at (emit ?e (set_request ?r ?i ?x)) d) with (draw_at x d).
  rewrite draw_at_set_draw. case_decide as Hd; [by subst d|done].
Qed.

Lemma draw_at_paid_out d s d' :
  draw_at (paid_out d s) d' =
  if decide (d = d') then completed_with (winning_entries s d) (draw_at s d)
  else draw_at s d'.
Proof.
  unfold paid_out. cbv zeta. case_decide.
  - change (draw_at (with_payments ?b ?e ?x) d') with (draw_at x d').
    apply draw_at_set_draw.
  - change (draw_at (emit ?e ?x) d') with (draw_at x d').
    apply draw_at_set_draw.
Qed.

Lemma draw_at_started env s d :
  draw_at (started env s) d =
  if decide (currentDrawId s + 1 = d) then
    let slot := draw_at s d in
    mkDraw d 0 0 (winningMainNumbers slot) (winningLuckyStars slot) (winners slot)
      false false (block_timestamp env) (block_timestamp env + SEVEN_DAYS)
      (ticketCounts slot) (players slot)
  else draw_at s d.
Proof.
  unfold started. cbv zeta.
  change (draw_at (emit ?e ?x) d) with (draw_at x d).
  rewrite draw_at_set_draw. case_decide as Hd; [by subst d|done].
Qed.

Lemma tickets_of_paid_out d s d' p :
  tickets_of (paid_out d s) d' p = tickets_of s d' p.
Proof. unfold paid_out. cbv zeta. by case_decide. Qed.

Lemma currentDrawId_settling requestId picks s :
  currentDrawId (paid_out (requested_draw s requestId)
                   (with_winning_picks requestId picks s)) = currentDrawId s.
Proof.
  by destruct (paid_out_frame (requested_draw s requestId)
                 (with_winning_picks requestId picks s)) as [-> _].
Qed.

Lemma winning_entries_ext s s' d :
  winningMainNumbers (draw_at s' d) = winningMainNumbers (draw_at s d) →
  winningLuckyStars (draw_at s' d) = winningLuckyStars (draw_at s d) →
  players (draw_at s' d) = players (draw_at s d) →
  (∀ p, tickets_of s' d p = tickets_of s d p) →
  winning_entries s' d = winning_entries s d.
Proof.
  intros Hm Hl Hp Ht. unfold winning_entries. cbv zeta.
  rewrite Hm, Hl, Hp. apply flat_map_ext. intros p. by rewrite Ht.
Qed.

(** ** Draw identifiers and windows *)

Lemma draws_wellformed_reachable s : reachable s → draws_wellformed s.
Proof.
  revert s. apply reachable_shapes.
  - intros env coordinator. split_and!; [done | done |].
    intros d Hd. change (currentDrawId (started env (blank coordinator (msg_sender env))))
      with 1 in Hd. assert (d = 1) as -> by lia. by rewrite draw_at_started.
  - intros env main stars s _ (H1 & H0 & Hd) _ _ _. split_and!; [done | |].
    + change (playerTickets (purchased env main stars s))
        with (<[currentDrawId s :=
                  <[msg_sender env := tickets_of s (currentDrawId s) (msg_sender env)
                      ++ [mkTicket main stars (msg_sender env) (block_timestamp env)]]>
                    (mapping_get ∅ (playerTickets s) (currentDrawId s))]>
                (playerTickets s)).
      rewrite lookup_insert_ne by lia. done.
    + intros d Hr. rewrite draw_at_purchased. case_decide; [|by apply Hd].
      simpl. by apply Hd.
  - intros requestId s _ (H1 & H0 & Hd) _. split_and!; [done | done |].
    intros d Hr. rewrite draw_at_request_recorded. case_decide; [|by apply Hd].
    simpl. by apply Hd.
  - intros env requestId picks s _ (H1 & H0 & Hd) _ _ _ _.
    unfold settled_by.
    pose proof (currentDrawId_settling requestId picks s) as Hcur.
    split_and!.
    + change (1 ≤ currentDrawId (paid_out (requested_draw s requestId)
                                   (with_winning_picks requestId picks s)) + 1). lia.
    + unfold started, paid_out. cbv zeta. by case_decide.
    + intros d Hr.
      change (1 ≤ d ≤ currentDrawId (paid_out (requested_draw s requestId)
                                       (with_winning_picks requestId picks s)) + 1) in Hr.
      rewrite !draw_at_started, Hcur. case_decide; [done|].
      rewrite !draw_at_paid_out. unfold with_winning_picks.
      case_decide as Heq; [subst d; rewrite draw_at_set_draw_eq; simpl
                          |rewrite draw_at_set_draw_ne by done]; apply Hd; lia.
  - done.
  - done.
Qed.

(** ** Stored tickets *)

Lemma draw_at_blank coordinator deployer d : draw_at (blank coordinator deployer) d = Draw_zero.
Proof. apply draw_at_fresh, lookup_empty. Qed.

Lemma tickets_of_blank coordinator deployer d p : tickets_of (blank coordinator deployer) d p = [].
Proof. apply tickets_of_fresh, lookup_empty. Qed.

Lemma tickets_of_settled_by env requestId picks s d p :
  tickets_of (settled_by env requestId picks s) d p = tickets_of s d p.
Proof.
  unfold settled_by.
  change (tickets_of (started env ?x) d p) with (tickets_of x d p).
  by rewrite tickets_of_paid_out.
Qed.

Lemma draw_at_settled_by env requestId picks s d :
  invariant s →
  draw_at (settled_by env requestId picks s) d =
  if decide (currentDrawId s + 1 = d) then
    mkDraw d 0 0 (replicate 5%nat 0) (replicate 2%nat 0) [] false false
      (block_timestamp env) (block_timestamp env + SEVEN_DAYS) ∅ []
  else if decide (requested_draw s requestId = d) then
    completed_with
      (winning_entries (with_winning_picks requestId picks s) d)
      (with_picks picks (draw_at s d))
  else draw_at s d.
Proof.
  intros (_ & Hfresh & Hknown & _).
  pose proof (requested_draw_known s requestId Hknown) as Hle.
  unfold settled_by. rewrite draw_at_started, currentDrawId_settling.
  case_decide as Hnew.
  - cbv zeta. rewrite draw_at_paid_out, decide_False by lia.
    unfold with_winning_picks. rewrite draw_at_set_draw_ne by lia.
    destruct (Hfresh d ltac:(lia)) as [Hd _]. by rewrite (draw_at_fresh s d Hd).
  - rewrite draw_at_paid_out. case_decide as Heq.
    + subst d. unfold with_winning_picks at 2. by rewrite draw_at_set_draw_eq.
    + unfold with_winning_picks. by rewrite draw_at_set_draw_ne.
Qed.

Lemma tickets_wellformed_reachable s : reachable s → tickets_wellformed s.
Proof.
  revert s. apply reachable_shapes.
  - intros env coordinator d p t Ht.
    change (t ∈ tickets_of (blank coordinator (msg_sender env)) d p) in Ht.
    rewrite tickets_of_blank in Ht. by apply elem_of_nil in Ht.
  - intros env main stars s _ IH (Hw & _) Hm Hl d p t Ht.
    rewrite tickets_of_purchased in Ht.
    assert (drawStartTime (draw_at (purchased env main stars s) d)
              = drawStartTime (draw_at s d)
            ∧ drawEndTime (draw_at (purchased env main stars s) d)
              = drawEndTime (draw_at s d)) as [-> ->].
    { rewrite draw_at_purchased. by destruct (decide (currentDrawId s = d)). }
    case_decide as Hd; [|by apply IH].
    apply elem_of_app in Ht as [Ht|Ht]; [by apply IH|].
    apply list_elem_of_singleton in Ht. subst t. by destruct Hd as [<- <-].
  - intros requestId s _ IH _ d p t Ht.
    assert (drawStartTime (draw_at (request_recorded requestId s) d)
              = drawStartTime (draw_at s d)
            ∧ drawEndTime (draw_at (request_recorded requestId s) d)
              = drawEndTime (draw_at s d)) as [-> ->].
    { rewrite draw_at_request_recorded. by destruct (decide (currentDrawId s = d)). }
    by apply IH.
  - intros env requestId picks s Hs IH _ _ _ _ d p t Ht.
    pose proof (reachable_invariant s Hs) as Hinv.
    rewrite tickets_of_settled_by in Ht.
    destruct (decide (currentDrawId s + 1 = d)) as [Hnew|Hnew].
    + destruct Hinv as (_ & Hfresh & _). destruct (Hfresh d ltac:(lia)) as [_ Hd].
      rewrite (tickets_of_fresh s d p Hd) in Ht. by apply elem_of_nil in Ht.
    + assert (drawStartTime (draw_at (settled_by env requestId picks s) d)
                = drawStartTime (draw_at s d)
              ∧ drawEndTime (draw_at (settled_by env requestId picks s) d)
                = drawEndTime (draw_at s d)) as [-> ->].
      { rewrite draw_at_settled_by, decide_False by done.
        by destruct (decide (requested_draw s requestId = d)). }
      by apply IH.
  - done.
  - done.
Qed.

(** ** Published results *)

Lemma results_published_reachable s : reachable s → results_published s.
Proof.
  revert s. apply reachable_shapes.
  - intros env coordinator d. cbv zeta. rewrite draw_at_started.
    case_decide; cbv zeta; rewrite draw_at_blank; by simpl.
  - intros env main stars s Hs IH _ _ _ d. cbv zeta.
    destruct (reachable_invariant s Hs) as (Hopen & _). unfold current_open in Hopen.
    specialize (IH d). cbv zeta in IH.
    rewrite draw_at_purchased. case_decide as Hd.
    + subst d. cbv zeta. rewrite Hopen in IH. simpl. by rewrite Hopen.
    + destruct (isCompleted (draw_at s d)); [|done].
      destruct IH as (? & ? & ->). split_and!; [done | done |].
      symmetry. apply winning_entries_ext;
        rewrite ?draw_at_purchased, ?decide_False by done; try done.
      intros p. rewrite tickets_of_purchased, decide_False; [done|]. by intros [? _].
  - intros requestId s Hs IH _ d. cbv zeta.
    destruct (reachable_invariant s Hs) as (Hopen & _). unfold current_open in Hopen.
    specialize (IH d). cbv zeta in IH.
    rewrite draw_at_request_recorded. case_decide as Hd.
    + subst d. rewrite Hopen in IH. simpl. by rewrite Hopen.
    + destruct (isCompleted (draw_at s d)); [|done].
      destruct IH as (? & ? & ->). split_and!; [done | done |].
      symmetry. apply winning_entries_ext;
        rewrite ?draw_at_request_recorded, ?decide_False by done; done.
  - intros env requestId picks s Hs IH _ Hm Hl _ d. cbv zeta.
    pose proof (reachable_invariant s Hs) as Hinv.
    specialize (IH d). cbv zeta in IH.
    rewrite draw_at_settled_by by done. case_decide as Hnew; [by simpl|].
    case_decide as Hd.
    + simpl. split_and!; [done | done |].
      symmetry. apply winning_entries_ext;
        rewrite ?draw_at_settled_by, ?decide_False, ?decide_True by done;
        unfold with_winning_picks; rewrite ?Hd, ?draw_at_set_draw_eq; try done.
      intros p. by rewrite tickets_of_settled_by.
    + destruct (isCompleted (draw_at s d)); [|done].
      destruct IH as (? & ? & ->). split_and!; [done | done |].
      symmetry. apply winning_entries_ext;
        rewrite ?draw_at_settled_by, ?decide_False by done; try done.
      intros p. by rewrite tickets_of_settled_by.
  - done.
  - done.
Qed.

(** ** Value received and value sent *)

Lemma total_received_app l1 l2 :
  total_received (l1 ++ l2) = total_received l1 + total_received l2.
Proof.
  induction l1 as [|e l1 IH]; [done|]. simpl.
  destruct e; rewrite ?IH; unfold total_received; lia.
Qed.

Lemma total_sent_app l1 l2 : total_sent (l1 ++ l2) = total_sent l1 + total_sent l2.
Proof.
  induction l1 as [|e l1 IH]; [done|]. simpl.
  destruct e; rewrite ?IH; unfold total_sent; lia.
Qed.

Lemma totals_of_prize_events d prize ws :
  total_received (prize_events d prize ws) = 0
  ∧ total_sent (prize_events d prize ws) = N.of_nat (length ws) * prize.
Proof.
  induction ws as [|w ws [IH1 IH2]]; [done|]. split.
  - exact IH1.
  - change (prize + total_sent (prize_events d prize ws)
            = N.of_nat (S (length ws)) * prize). rewrite IH2. lia.
Qed.

Lemma totals_of_paid_out env d s :
  ((0 < length (winning_entries s d))%nat → payable_out env d s) →
  balance (paid_out d s) + total_sent (log (paid_out d s))
  = balance s + total_sent (log s)
  ∧ total_received (log (paid_out d s)) = total_received (log s).
Proof.
  intros Hpay. unfold paid_out. cbv zeta. case_decide as Hk.
  - destruct (Hpay Hk) as (Hle & _). cbv zeta in Hle.
    destruct (totals_of_prize_events d
                (prize_per_winner (totalPrizePool (draw_at s d))
                   (length (winning_entries s d)))
                (winning_entries s d)) as [Hr Hs].
    unfold with_payments. cbn [balance log set_draw].
    rewrite !total_sent_app, !total_received_app, Hr, Hs.
    cbn [total_sent total_received foldr]. split; lia.
  - unfold emit. cbn [balance log set_draw].
    rewrite total_sent_app, total_received_app.
    cbn [total_sent total_received foldr]. split; lia.
Qed.

Lemma value_conserved_reachable s : reachable s → value_conserved s.
Proof.
  revert s. apply reachable_shapes; unfold value_conserved.
  - done.
  - intros env main stars s _ IH _ _ _. simpl.
    rewrite total_sent_app, total_received_app. simpl. lia.
  - intros requestId s _ IH _. simpl.
    rewrite total_sent_app, total_received_app. simpl. lia.
  - intros env requestId picks s _ IH _ _ _ Hpay.
    destruct (totals_of_paid_out env _ _ Hpay) as [H1 H2].
    unfold settled_by, started. cbv zeta.
    cbn [balance log emit set_draw set_currentDrawId].
    rewrite total_sent_app, total_received_app.
    change (total_sent [DrawStarted _ _ _]) with 0.
    change (total_received [DrawStarted _ _ _]) with 0.
    rewrite !N.add_0_r, H2.
    change (total_received (log (with_winning_picks requestId picks s)))
      with (total_received (log s)).
    change (balance (with_winning_picks requestId picks s)
            + total_sent (log (with_winning_picks requestId picks s)))
      with (balance s + total_sent (log s)) in H1. lia.
  - done.
  - done.
Qed.

(** ** Invariants of the reachable states, as the queries show them *)

(** X7. In every state reachable from deployment the draws are numbered
    from 1: the current draw identifier is at least 1, every draw from 1 to
    the current one stores its own identifier and a window of exactly seven
    days, and no ticket is ever stored under draw 0. *)
Theorem draw_identifiers_and_windows (s : State) (d : N)
    (Hs : reachable s) (Hd : 1 ≤ d ≤ currentDrawId s) :
  1 ≤ currentDrawId s
  ∧ drawId (draw_at s d) = d
  ∧ drawEndTime (draw_at s d) = drawStartTime (draw_at s d) + SEVEN_DAYS
  ∧ ∀ p, getPlayerTickets 0 p s = Ok [].
Proof.
  destruct (draws_wellformed_reachable s Hs) as (H1 & H0 & Hw).
  destruct (Hw d Hd) as [Hi He]. split_and!; [done | done | done |].
  intros p. unfold getPlayerTickets, drawExists.
  destruct (N.ltb_spec (currentDrawId s) 0) as [?|_]; [lia|]. simpl_bind.
  by rewrite tickets_of_fresh.
Qed.

Lemma draw_identifiers_and_windows_witness :
  drawId (draw_at (Scenario.state_of Scenario.settled) 2) = 2
  ∧ drawEndTime (draw_at (Scenario.state_of Scenario.settled) 2)
    = drawStartTime (draw_at (Scenario.state_of Scenario.settled) 2) + SEVEN_DAYS.
Proof.
  assert (Hd : 1 ≤ 2 ≤ currentDrawId (Scenario.state_of Scenario.settled))
    by (vm_compute; split; discriminate).
  destruct (draw_identifiers_and_windows (Scenario.state_of Scenario.settled) 2
              settled_reachable Hd) as (_ & Hi & He & _).
  exact (conj Hi He).
Defined.

(** X8. Every ticket that [getPlayerTickets] returns in a reachable state
    passed both validations, names the participant it is stored under and
    carries a purchase time inside the window of its draw; the number of
    tickets returned is the participant's ticket count in that draw. *)
Theorem stored_tickets_are_valid (s : State) (d : N) (p : address) (ts : list Ticket)
    (Hs : reachable s) (Hg : getPlayerTickets d p s = Ok ts) :
  d ≤ currentDrawId s
  ∧ Forall (λ t, _validateMainNumbers (mainNumbers t) = Ok tt
                 ∧ _validateLuckyStars (luckyStars t) = Ok tt
                 ∧ player t = p
                 ∧ drawStartTime (draw_at s d) ≤ timestamp t ≤ drawEndTime (draw_at s d))
      ts
  ∧ mapping_get 0 (ticketCounts (draw_at s d)) p = N.of_nat (length ts).
Proof.
  unfold getPlayerTickets, drawExists in Hg.
  apply bind_Ok_inv in Hg as ([] & Hd & Hg). injection Hg as <-.
  apply require_Ok_inv, negb_true_iff, N.ltb_ge in Hd.
  split_and!; [done | |].
  - apply Forall_forall. intros t Ht.
    by apply (tickets_wellformed_reachable s Hs d p t).
  - destruct (reachable_invariant s Hs) as (_ & _ & _ & Hc & _).
    by destruct (Hc d) as (_ & _ & _ & _ & ->).
Qed.

Lemma stored_tickets_are_valid_witness :
  Forall (λ t, player t = Scenario.alice)
    [mkTicket [5; 4; 3; 2; 1] [2; 1] Scenario.alice 1000;
     mkTicket [10; 20; 30; 40; 50] [3; 4] Scenario.alice 2000].
Proof.
  assert (Hg : getPlayerTickets 1 Scenario.alice (Scenario.state_of Scenario.settled)
               = Ok [mkTicket [5; 4; 3; 2; 1] [2; 1] Scenario.alice 1000;
                     mkTicket [10; 20; 30; 40; 50] [3; 4] Scenario.alice 2000])
    by (vm_compute; reflexivity).
  destruct (stored_tickets_are_valid (Scenario.state_of Scenario.settled) 1
              Scenario.alice _ settled_reachable Hg) as (_ & H & _).
  eapply Forall_impl; [exact H|]. by intros t (_ & _ & ? & _).
Defined.

(** X9. In a reachable state the queries answer for exactly the draws up to
    the current one and fail with [DrawNotFound] beyond it.  For a completed
    draw [getDrawInfo] shows five distinct ascending main numbers in
    [1, 50] and two distinct ascending lucky stars in [1, 12], and
    [getDrawWinners] lists the holder of every matching ticket, once per
    ticket; for a draw not completed they show zeros and no winner. *)
Theorem published_results (s : State) (d : N) (Hs : reachable s) :
  if decide (d ≤ currentDrawId s) then
    ∃ info ws,
      getDrawInfo d s = Ok info ∧ getDrawWinners d s = Ok ws
      ∧ if info_isCompleted info then
          published_pick 5 50 (info_winningMainNumbers info)
          ∧ published_pick 2 12 (info_winningLuckyStars info)
          ∧ ws = winning_entries s d
        else
          info_winningMainNumbers info = replicate 5%nat 0
          ∧ info_winningLuckyStars info = replicate 2%nat 0
          ∧ ws = []
  else
    getDrawInfo d s = Err DrawNotFound
    ∧ getDrawWinners d s = Err DrawNotFound
    ∧ ∀ p, getPlayerTickets d p s = Err DrawNotFound.
Proof.
  unfold getDrawInfo, getDrawWinners, getPlayerTickets, drawExists.
  case_decide as Hd.
  - destruct (N.ltb_spec (currentDrawId s) d) as [?|_]; [lia|]. simpl_bind.
    eexists _, _. split; [reflexivity|]. split; [reflexivity|]. simpl.
    exact (results_published_reachable s Hs d).
  - destruct (N.ltb_spec (currentDrawId s) d) as [_|?]; [|lia]. by simpl_bind.
Qed.

Lemma published_results_witness :
  ∃ info, getDrawInfo 1 (Scenario.state_of Scenario.settled) = Ok info
          ∧ published_pick 5 50 (info_winningMainNumbers info).
Proof.
  pose proof (published_results (Scenario.state_of Scenario.settled) 1
                settled_reachable) as H.
  destruct (decide (1 ≤ currentDrawId (Scenario.state_of Scenario.settled)))
    as [_|Hd]; [|exfalso; apply Hd; vm_compute; discriminate].
  destruct H as (info & ws & Hi & _ & H). exists info. split; [exact Hi|].
  vm_compute in Hi. injection Hi as <-.
  cbn [info_isCompleted info_winningMainNumbers] in H. by destruct H as [H _].
Defined.

(** X10. In every reachable state the balance plus everything the contract
    has sent out equals everything it received for tickets: value enters
    only through accepted purchases and leaves only through logged
    transfers, so the contract never pays out more than it took. *)
Theorem value_is_conserved (s : State) (Hs : reachable s) :
  balance s + total_sent (log s) = total_received (log s)
  ∧ total_sent (log s) ≤ total_received (log s).
Proof.
  pose proof (value_conserved_reachable s Hs) as H. unfold value_conserved in H.
  split; [exact H | lia].
Qed.

Lemma value_is_conserved_witness :
  balance (Scenario.state_of Scenario.settled)
  + total_sent (log (Scenario.state_of Scenario.settled)) = 3 * TICKET_PRICE.
Proof.
  destruct (value_is_conserved (Scenario.state_of Scenario.settled) settled_reachable)
    as [H _].
  rewrite H. vm_compute. reflexivity.
Defined.

(** ** The status query and the sale window *)

(** X11. [getCurrentDrawStatus] never reverts: its subtraction is made only
    inside the window, where it cannot underflow.  It reports the draw as
    active exactly when the current time lies in [drawStartTime,
    drawEndTime], which is exactly when [buyTicket] does not fail with
    [DrawNotActive]; the time left is then [drawEndTime - now], and 0
    outside the window. *)
Theorem current_draw_status (env : Env) (s : State) :
  let draw := draw_at s (currentDrawId s) in
  ∃ st,
    getCurrentDrawStatus env s = Ok st
    ∧ status_drawId st = currentDrawId s
    ∧ status_totalPrizePool st = totalPrizePool draw
    ∧ status_totalTickets st = totalTickets draw
    ∧ (status_isActive st = true
       ↔ drawStartTime draw ≤ block_timestamp env ≤ drawEndTime draw)
    ∧ (status_isActive st = true
       ↔ ∀ main stars, buyTicket env main stars s ≠ Err DrawNotActive)
    ∧ (if status_isActive st
       then status_timeLeft st + block_timestamp env = drawEndTime draw
       else status_timeLeft st = 0).
Proof.
  intros draw. unfold getCurrentDrawStatus. fold draw.
  assert (Hact : (drawStartTime draw <=? block_timestamp env)
                 && (block_timestamp env <=? drawEndTime draw) = true
                 ↔ drawStartTime draw ≤ block_timestamp env ≤ drawEndTime draw).
  { rewrite andb_true_iff, !N.leb_le. done. }
  assert (Hbuy : drawStartTime draw ≤ block_timestamp env ≤ drawEndTime draw
                 ↔ ∀ main stars, buyTicket env main stars s ≠ Err DrawNotActive).
  { split.
    - intros Hw main stars. by apply buyTicket_inside_window.
    - intros Hb. destruct (decide (drawStartTime draw ≤ block_timestamp env
                                   ≤ drawEndTime draw)) as [|Hn]; [done|].
      destruct (Hb [] []). by apply buyTicket_outside_window. }
  destruct ((drawStartTime draw <=? block_timestamp env)
            && (block_timestamp env <=? drawEndTime draw)) eqn:Ha.
  - destruct Hact as [Hw _]. specialize (Hw eq_refl).
    unfold checked_sub. destruct (N.leb_spec (block_timestamp env) (drawEndTime draw));
      [|lia]. simpl_bind. eexists. split; [reflexivity|]. simpl.
    do 3 (split; [reflexivity|]). split; [done|]. split; [|lia].
    split; [intros _; by apply Hbuy | done].
  - simpl_bind. eexists. split; [reflexivity|]. simpl.
    do 3 (split; [reflexivity|]). split; [|split; [|done]].
    + split; [done|]. intros Hw. by apply Hact in Hw.
    + split; [done|]. intros Hb. by apply Hbuy, Hact in Hb.
Qed.

(** ** What a call does to the ticket lists *)

(** X12. The ticket lists only grow, and only by purchases: an accepted
    [buyTicket] appends one ticket, with the picks as given, the caller as
    player and the block time, to the caller's list under the current draw;
    it changes no other list, and no other accepted call changes any list.
    [getPlayerTickets] shows the old list followed by the added ticket. *)
Theorem tickets_are_append_only (env : Env) (c : call) (s s' : State)
    (d : N) (p : address) (H : exec env c s = Ok s') :
  tickets_of s' d p = tickets_of s d p ++ ticket_added env c s d p
  ∧ (d ≤ currentDrawId s →
     getPlayerTickets d p s'
     = on_ok (λ ts, ts ++ ticket_added env c s d p) (getPlayerTickets d p s)).
Proof.
  assert (Ht : tickets_of s' d p = tickets_of s d p ++ ticket_added env c s d p
               ∧ currentDrawId s ≤ currentDrawId s').
  { destruct c as [main stars|requestId|gas requestId ws| | | |newOwner|];
      simpl in H; unfold ticket_added.
    - apply buyTicket_Ok_inv in H as (_ & _ & _ & ->).
      rewrite tickets_of_purchased. split; [|done].
      case_decide as H1; case_decide as H2; try done.
      + destruct H1 as [<- <-]. by destruct H2.
      + destruct H2 as [-> ->]. by destruct H1.
      + by rewrite app_nil_r.
    - apply requestDrawRandomness_Ok_inv in H as (_ & _ & _ & _ & ->).
      by rewrite app_nil_r.
    - unfold rawFulfillRandomWords in H. apply bind_Ok_inv in H as ([] & _ & H).
      apply fulfillRandomWords_Ok_inv in H as [[_ ->]|(_ & picks & _ & _ & ->)];
        rewrite app_nil_r; [done|].
      change (tickets_of (started env ?x) d p) with (tickets_of x d p).
      rewrite tickets_of_paid_out. split; [done|].
      change (currentDrawId (started env ?x)) with (currentDrawId x + 1).
      destruct (paid_out_frame (requested_draw s requestId)
                  (set_draw (requested_draw s requestId)
                     (with_picks picks (draw_at s (requested_draw s requestId))) s))
        as [-> _]. simpl. lia.
    - unfold pause in H. apply bind_Ok_inv in H as ([] & _ & H).
      apply bind_Ok_inv in H as ([] & _ & H). injection H as <-. by rewrite app_nil_r.
    - unfold unpause in H. apply bind_Ok_inv in H as ([] & _ & H).
      apply bind_Ok_inv in H as ([] & _ & H). injection H as <-. by rewrite app_nil_r.
    - unfold emergencyWithdraw in H. apply bind_Ok_inv in H as ([] & _ & H).
      apply bind_Ok_inv in H as ([] & _ & H). apply bind_Ok_inv in H as ([] & _ & H).
      rewrite pay_eq in H.
      destruct ((balance s <=? balance s) && accepts env (owner s)); [|discriminate].
      injection H as <-.
      by rewrite app_nil_r.
    - unfold transferOwnership in H. apply bind_Ok_inv in H as ([] & _ & H).
      apply bind_Ok_inv in H as ([] & _ & H). injection H as <-. by rewrite app_nil_r.
    - unfold renounceOwnership in H. apply bind_Ok_inv in H as ([] & _ & H).
      injection H as <-. by rewrite app_nil_r. }
  destruct Ht as [Ht Hcur]. split; [exact Ht|].
  intros Hd. unfold getPlayerTickets, drawExists.
  destruct (N.ltb_spec (currentDrawId s) d) as [?|_]; [lia|].
  destruct (N.ltb_spec (currentDrawId s') d) as [?|_]; [lia|].
  simpl_bind. simpl. by rewrite Ht.
Qed.

Lemma tickets_are_append_only_witness :
  tickets_of (Scenario.state_of Scenario.sold) 1 Scenario.bob
  = tickets_of (Scenario.state_of Scenario.deployed) 1 Scenario.bob
    ++ [mkTicket [1; 2; 3; 4; 5] [1; 2] Scenario.bob Scenario.closing].
Proof.
  pose (s2 := Scenario.state_of
                (foldl Scenario.run Scenario.deployed (take 2 Scenario.sales))).
  assert (H : exec (Scenario.call_by Scenario.bob TICKET_PRICE Scenario.closing)
                (BuyTicket [1; 2; 3; 4; 5] [1; 2]) s2
              = Ok (Scenario.state_of Scenario.sold)) by (vm_compute; reflexivity).
  destruct (tickets_are_append_only _ _ _ _ 1 Scenario.bob H) as [Ht _].
  rewrite Ht. vm_compute. reflexivity.
Defined.

(** ** Who may call what *)

(** X13. Every entry point other than [buyTicket] checks its caller first:
    the administrative calls fail with [OwnableNotOwner] for anyone but the
    owner, the coordinator included, and the delivery fails with
    [OnlyCoordinatorCanFulfill] for anyone but the coordinator, the owner
    included.  So the only call that a third party can have accepted is a
    purchase. *)
Theorem restricted_calls_need_authority (env : Env) (c : call) (s : State)
    (Hc : restricted c = true) :
  (msg_sender env ≠ owner s →
   (∀ gas requestId randomWords, c ≠ RawFulfillRandomWords gas requestId randomWords) →
   exec env c s = Err OwnableNotOwner)
  ∧ (msg_sender env ≠ i_vrfCoordinator s →
     (∃ gas requestId randomWords, c = RawFulfillRandomWords gas requestId randomWords) →
     exec env c s = Err OnlyCoordinatorCanFulfill)
  ∧ (msg_sender env ≠ owner s → msg_sender env ≠ i_vrfCoordinator s →
     is_ok (exec env c s) = false).
Proof.
  assert (Ho : msg_sender env ≠ owner s → onlyOwner env s = Err OwnableNotOwner).
  { intros Hne. unfold onlyOwner. by destruct (N.eqb_spec (msg_sender env) (owner s)). }
  assert (Hv : ∀ gas requestId ws, msg_sender env ≠ i_vrfCoordinator s →
            rawFulfillRandomWords env gas requestId ws s = Err OnlyCoordinatorCanFulfill).
  { intros gas requestId ws Hne. unfold rawFulfillRandomWords.
    by destruct (N.eqb_spec (msg_sender env) (i_vrfCoordinator s)). }
  destruct c as [main stars|requestId|gas requestId ws| | | |newOwner|];
    try discriminate Hc; simpl;
    unfold requestDrawRandomness, pause, unpause, emergencyWithdraw,
      transferOwnership, renounceOwnership.
  all: split_and!;
    [ intros Hne Hnot; try (by rewrite (Ho Hne)); by destruct (Hnot gas requestId ws)
    | intros Hne (g & r & w & Heq); try discriminate Heq; by apply Hv
    | intros Hne1 Hne2; try (by rewrite (Ho Hne1)); by rewrite Hv ].
Qed.

Lemma restricted_calls_need_authority_witness :
  exec (Scenario.call_by Scenario.alice 0 5000) Pause
    (Scenario.state_of Scenario.deployed) = Err OwnableNotOwner.
Proof.
  destruct (restricted_calls_need_authority
              (Scenario.call_by Scenario.alice 0 5000) Pause
              (Scenario.state_of Scenario.deployed) eq_refl) as (H & _).
  apply H; [vm_compute; discriminate | discriminate].
Defined.

(** ** Pausing *)

Lemma paid_out_paused b d s : paid_out d (set_paused b s) = set_paused b (paid_out d s).
Proof.
  unfold paid_out. cbv zeta.
  change (winning_entries (set_paused b s) d) with (winning_entries s d).
  by case_decide.
Qed.

Lemma _startNewDraw_paused env b s :
  _startNewDraw env (set_paused b s) = on_ok (set_paused b) (_startNewDraw env s).
Proof.
  rewrite !_startNewDraw_eq.
  change (currentDrawId (set_paused b s)) with (currentDrawId s).
  by case_decide.
Qed.

Lemma _findWinnersAndDistribute_paused env b d s :
  _findWinnersAndDistribute env d (set_paused b s)
  = on_ok (set_paused b) (_findWinnersAndDistribute env d s).
Proof.
  rewrite !_findWinnersAndDistribute_eq. cbv zeta.
  change (winning_entries (set_paused b s) d) with (winning_entries s d).
  change (draw_at (set_paused b s) d) with (draw_at s d).
  change (payable_out env d (set_paused b s)) with (payable_out env d s).
  rewrite paid_out_paused, _startNewDraw_paused.
  repeat case_decide; done.
Qed.

(** X14. Pausing stops ticket sales and nothing else.  While paused,
    [buyTicket] fails, with [PausablePaused] inside the window; the
    resolution request and the delivery run exactly as they would unpaused
    and leave the flag as it is.  [pause] needs the flag clear and
    [unpause] needs it set, and an [unpause] after a [pause] restores the
    storage. *)
Theorem pausing_stops_sales_only (env : Env) (b : bool) (s : State) :
  (paused s = true →
   ∀ main stars, buyTicket env main stars s =
     if decide (drawStartTime (draw_at s (currentDrawId s)) ≤ block_timestamp env
                ≤ drawEndTime (draw_at s (currentDrawId s)))
     then Err PausablePaused else Err DrawNotActive)
  ∧ (∀ requestId,
       requestDrawRandomness env requestId (set_paused b s)
       = on_ok (set_paused b) (requestDrawRandomness env requestId s))
  ∧ (∀ gas requestId randomWords,
       rawFulfillRandomWords env gas requestId randomWords (set_paused b s)
       = on_ok (set_paused b) (rawFulfillRandomWords env gas requestId randomWords s))
  ∧ (msg_sender env = owner s →
     pause env s = (if paused s then Err PausablePaused else Ok (set_paused true s))
     ∧ unpause env s = (if paused s then Ok (set_paused false s)
                        else Err PausableNotPaused)
     ∧ (paused s = false → ∀ env', msg_sender env' = owner s →
        (s' ← pause env s; unpause env' s') = Ok s)).
Proof.
  split_and!.
  - intros Hp main stars. unfold buyTicket.
    pose proof (onlyActiveDraw_spec env s) as Hw. cbv zeta in Hw.
    case_decide; rewrite Hw; [|done]. unfold whenNotPaused. by rewrite Hp.
  - intros requestId. unfold requestDrawRandomness, onlyOwner.
    change (owner (set_paused b s)) with (owner s).
    change (currentDrawId (set_paused b s)) with (currentDrawId s).
    change (draw_at (set_paused b s) (currentDrawId s))
      with (draw_at s (currentDrawId s)).
    destruct (msg_sender env =? owner s); [|done]. simpl_bind.
    destruct (block_timestamp env <=? drawEndTime (draw_at s (currentDrawId s)));
      [done|].
    destruct (randomnessRequested (draw_at s (currentDrawId s))); [done|].
    by destruct (isCompleted (draw_at s (currentDrawId s))).
  - intros gas requestId ws. unfold rawFulfillRandomWords.
    change (i_vrfCoordinator (set_paused b s)) with (i_vrfCoordinator s).
    destruct (msg_sender env =? i_vrfCoordinator s); [|done]. simpl_bind.
    rewrite !fulfillRandomWords_eq. cbv zeta.
    change (requested_draw (set_paused b s) requestId)
      with (requested_draw s requestId).
    change (draw_at (set_paused b s) (requested_draw s requestId))
      with (draw_at s (requested_draw s requestId)).
    destruct (isCompleted (draw_at s (requested_draw s requestId))); [done|].
    destruct (resolve gas ws) as [picks|e]; [|done]. simpl_bind.
    apply (_findWinnersAndDistribute_paused env b (requested_draw s requestId)
             (set_draw (requested_draw s requestId)
                (with_picks picks (draw_at s (requested_draw s requestId))) s)).
  - intros Ho. unfold pause, unpause, onlyOwner, whenNotPaused, whenPaused.
    rewrite Ho, N.eqb_refl. simpl_bind.
    split_and!; [by destruct (paused s) | by destruct (paused s) |].
    intros Hp env' Ho'. rewrite Hp. cbn [negb]. simpl_bind.
    change (owner (set_paused true s)) with (owner s). rewrite Ho', N.eqb_refl.
    simpl_bind. destruct s. simpl in Hp. by rewrite Hp.
Qed.

Lemma pausing_stops_sales_only_witness :
  buyTicket (Scenario.call_by Scenario.alice TICKET_PRICE 5000) [1; 2; 3; 4; 5] [1; 2]
    (set_paused true (Scenario.state_of Scenario.deployed)) = Err PausablePaused.
Proof.
  destruct (pausing_stops_sales_only
              (Scenario.call_by Scenario.alice TICKET_PRICE 5000) true
              (set_paused true (Scenario.state_of Scenario.deployed))) as (H & _).
  rewrite (H eq_refl). apply decide_True. vm_compute. split; discriminate.
Defined.

(** ** Draws left behind *)

Lemma tokens_of_settled_by env requestId picks s :
  vrfRequestIdToDraw (settled_by env requestId picks s) = vrfRequestIdToDraw s.
Proof.
  unfold settled_by.
  change (vrfRequestIdToDraw (started env ?x)) with (vrfRequestIdToDraw x).
  unfold paid_out. cbv zeta. by case_decide.
Qed.

Lemma tokens_flagged_reachable s : reachable s → tokens_flagged s.
Proof.
  revert s. apply reachable_shapes.
  - intros env coordinator r d Hr. simpl in Hr. by rewrite lookup_empty in Hr.
  - intros env main stars s _ IH _ _ _ r d Hr.
    change (vrfRequestIdToDraw s !! r = Some d) in Hr.
    rewrite draw_at_purchased. specialize (IH r d Hr).
    by destruct (decide (currentDrawId s = d)).
  - intros requestId s _ IH _ r d Hr.
    change (<[requestId := currentDrawId s]> (vrfRequestIdToDraw s) !! r = Some d) in Hr.
    rewrite draw_at_request_recorded.
    destruct (decide (currentDrawId s = d)) as [Hd|Hd]; [done|].
    apply lookup_insert_Some in Hr as [[_ ?]|[_ Hr]]; [done|]. exact (IH r d Hr).
  - intros env requestId picks s Hs IH _ _ _ _ r d Hr.
    rewrite tokens_of_settled_by in Hr.
    pose proof (reachable_invariant s Hs) as Hinv.
    pose proof Hinv as (_ & _ & Hknown & _).
    rewrite draw_at_settled_by by done. specialize (IH r d Hr).
    rewrite decide_False by (specialize (Hknown r d Hr); lia).
    by destruct (decide (requested_draw s requestId = d)).
  - done.
  - done.
Qed.

Lemma stranded_exec env c s s' d :
  invariant s → stranded s d → exec env c s = Ok s' →
  stranded s' d ∧ draw_at s' d = draw_at s d.
Proof.
  intros Hinv ([H1 Hlt] & Hopen & Htok) H.
  destruct (exec_Ok_shape env c s s' Hinv H)
    as [(main & stars & _ & _ & _ & _ & ->)
       |[(requestId & _ & _ & _ & _ & ->)
       |[(gas & requestId & ws & _ & _ & _ & ->)
       |[(gas & requestId & ws & picks & _ & _ & _ & _ & _ & ->)
       |[(b & _ & _ & _ & ->)|(o & _ & _ & ->)]]]]].
  - assert (Hd : draw_at (purchased env main stars s) d = draw_at s d)
      by (rewrite draw_at_purchased; apply decide_False; lia).
    unfold stranded. by rewrite Hd.
  - assert (Hd : draw_at (request_recorded requestId s) d = draw_at s d)
      by (rewrite draw_at_request_recorded; apply decide_False; lia).
    unfold stranded. rewrite Hd. split_and!; try done.
    intros r Hr.
    change (<[requestId := currentDrawId s]> (vrfRequestIdToDraw s) !! r = Some d) in Hr.
    apply lookup_insert_Some in Hr as [[_ ?]|[_ Hr]]; [lia|]. by apply (Htok r).
  - done.
  - assert (Hrd : requested_draw s requestId ≠ d).
    { unfold requested_draw, mapping_get.
      destruct (vrfRequestIdToDraw s !! requestId) as [d'|] eqn:Hr; simpl; [|lia].
      intros ->. by apply (Htok requestId). }
    assert (Hd : draw_at (settled_by env requestId picks s) d = draw_at s d).
    { rewrite draw_at_settled_by by done.
      rewrite decide_False by lia. by rewrite decide_False. }
    unfold stranded. rewrite Hd, tokens_of_settled_by. split_and!; try done.
    change (currentDrawId (settled_by env requestId picks s))
      with (currentDrawId (paid_out (requested_draw s requestId)
                             (with_winning_picks requestId picks s)) + 1).
    rewrite currentDrawId_settling. lia.
  - done.
  - done.
Qed.

Lemma draw_zero_is_empty s :
  reachable s →
  winning_entries s 0 = [] ∧ ∀ picks, players (with_picks picks (draw_at s 0)) = [].
Proof.
  intros Hs. destruct (draws_wellformed_reachable s Hs) as (_ & H0 & _).
  destruct (reachable_invariant s Hs) as (_ & _ & _ & Hc & _).
  destruct (Hc 0) as (_ & _ & _ & Hp & _).
  assert (Hnil : players (draw_at s 0) = []).
  { destruct (players (draw_at s 0)) as [|p ps]; [done|].
    destruct (Hp p) as [Hp' _]. destruct Hp'; [by left|].
    by apply tickets_of_fresh. }
  split; [|done]. unfold winning_entries. cbv zeta. by rewrite Hnil.
Qed.

(** X15. A draw left behind -- not completed while a later draw is current
    and no request token names it -- stays so under every accepted call: its
    record never changes again, so it is never completed and its pool is
    never distributed. *)
Theorem stranded_draw_is_never_settled (env : Env) (c : call) (s s' : State) (d : N)
    (Hs : reachable s) (Hd : stranded s d) (H : exec env c s = Ok s') :
  stranded s' d
  ∧ draw_at s' d = draw_at s d
  ∧ ∀ p, tickets_of s' d p = tickets_of s d p.
Proof.
  destruct (stranded_exec env c s s' d (reachable_invariant s Hs) Hd H) as [H1 H2].
  split_and!; [done | done |]. intros p.
  destruct Hd as ([_ Hlt] & _).
  destruct c as [main stars|requestId|gas requestId ws| | | |newOwner|].
  - simpl in H. apply buyTicket_Ok_inv in H as (_ & _ & _ & ->).
    rewrite tickets_of_purchased. apply decide_False. intros [? _]. lia.
  - simpl in H. by apply requestDrawRandomness_Ok_inv in H as (_ & _ & _ & _ & ->).
  - simpl in H. unfold rawFulfillRandomWords in H.
    apply bind_Ok_inv in H as ([] & _ & H).
    apply fulfillRandomWords_Ok_inv in H as [[_ ->]|(_ & picks & _ & _ & ->)]; [done|].
    change (tickets_of (started env ?x) d p) with (tickets_of x d p).
    by rewrite tickets_of_paid_out.
  - simpl in H. unfold pause in H. apply bind_Ok_inv in H as ([] & _ & H).
    apply bind_Ok_inv in H as ([] & _ & H). by injection H as <-.
  - simpl in H. unfold unpause in H. apply bind_Ok_inv in H as ([] & _ & H).
    apply bind_Ok_inv in H as ([] & _ & H). by injection H as <-.
  - simpl in H. unfold emergencyWithdraw in H. apply bind_Ok_inv in H as ([] & _ & H).
    apply bind_Ok_inv in H as ([] & _ & H). apply bind_Ok_inv in H as ([] & _ & H).
    rewrite pay_eq in H.
    destruct ((balance s <=? balance s) && accepts env (owner s)); [|discriminate].
    by injection H as <-.
  - simpl in H. unfold transferOwnership in H. apply bind_Ok_inv in H as ([] & _ & H).
    apply bind_Ok_inv in H as ([] & _ & H). by injection H as <-.
  - simpl in H. unfold renounceOwnership in H. apply bind_Ok_inv in H as ([] & _ & H).
    by injection H as <-.
Qed.

Lemma stranded_draw_is_never_settled_witness :
  stranded (Scenario.state_of Stranding.afterwards) 1
  ∧ draw_at (Scenario.state_of Stranding.afterwards) 1
    = draw_at (Scenario.state_of Stranding.left_behind) 1.
Proof.
  assert (H0 : exec Stranding.stray_delivery.1 Stranding.stray_delivery.2
                 (Scenario.state_of Scenario.sold)
               = Ok (Scenario.state_of Stranding.left_behind))
    by (vm_compute; reflexivity).
  assert (H1 : exec Stranding.later_sale.1 Stranding.later_sale.2
                 (Scenario.state_of Stranding.left_behind)
               = Ok (Scenario.state_of Stranding.afterwards))
    by (vm_compute; reflexivity).
  assert (Hs : reachable (Scenario.state_of Stranding.left_behind))
    by exact (reachable_exec _ _ _ _ sold_reachable H0).
  assert (Hstr : stranded (Scenario.state_of Stranding.left_behind) 1).
  { split_and!.
    - vm_compute. discriminate.
    - reflexivity.
    - vm_compute. reflexivity.
    - intros r. vm_compute. discriminate. }
  destruct (stranded_draw_is_never_settled _ _ _ _ 1 Hs Hstr H1) as (H & Hd & _).
  exact (conj H Hd).
Defined.

(** X16. The delivery does not check that its token was issued: a token
    that no request returned names draw 0, which is not completed until
    then.  Such a delivery, when accepted, completes draw 0 without any
    transfer and starts the next draw, so it leaves the current draw
    behind: with its tickets and pool as they were, not completed, and, when
    no resolution was requested for it, named by no token. *)
Theorem unknown_token_strands_current_draw (env : Env) (gas : nat)
    (requestId : N) (randomWords : list N) (s s' : State)
    (Hs : reachable s)
    (Hunknown : vrfRequestIdToDraw s !! requestId = None)
    (Hzero : isCompleted (draw_at s 0) = false)
    (H : rawFulfillRandomWords env gas requestId randomWords s = Ok s') :
  let d := currentDrawId s in
  isCompleted (draw_at s' 0) = true
  ∧ currentDrawId s' = d + 1
  ∧ balance s' = balance s
  ∧ draw_at s' d = draw_at s d
  ∧ (randomnessRequested (draw_at s d) = false → stranded s' d).
Proof.
  intros d.
  pose proof (reachable_invariant s Hs) as Hinv.
  destruct (draws_wellformed_reachable s Hs) as (H1 & _ & _).
  destruct (draw_zero_is_empty s Hs) as [_ Hnil].
  assert (Hrd : requested_draw s requestId = 0).
  { unfold requested_draw, mapping_get. by rewrite Hunknown. }
  unfold rawFulfillRandomWords in H. apply bind_Ok_inv in H as ([] & _ & H).
  apply fulfillRandomWords_Ok_inv in H as [[Hc _]|(_ & picks & _ & _ & ->)];
    [rewrite Hrd in Hc; congruence|].
  fold (with_winning_picks requestId picks s).
  fold (settled_by env requestId picks s).
  assert (Hcur : currentDrawId (settled_by env requestId picks s) = d + 1).
  { change (currentDrawId (settled_by env requestId picks s))
      with (currentDrawId (paid_out (requested_draw s requestId)
                             (with_winning_picks requestId picks s)) + 1).
    by rewrite currentDrawId_settling. }
  assert (Hsame : draw_at (settled_by env requestId picks s) d = draw_at s d).
  { rewrite draw_at_settled_by by done. fold d.
    rewrite decide_False by lia. rewrite decide_False; [done|]. fold d in H1. lia. }
  split_and!; [| done | | done |].
  - rewrite draw_at_settled_by by done. rewrite decide_False by lia.
    by rewrite decide_True.
  - unfold settled_by. change (balance (started env ?x)) with (balance x).
    unfold paid_out. cbv zeta. rewrite Hrd.
    assert (Hw : winning_entries (with_winning_picks requestId picks s) 0 = []).
    { unfold winning_entries, with_winning_picks. cbv zeta.
      rewrite Hrd, draw_at_set_draw_eq. by rewrite Hnil. }
    rewrite Hw. by rewrite decide_False by (simpl; lia).
  - intros Hflag. unfold stranded. rewrite Hcur, Hsame. fold d in H1.
    split_and!; [done | lia | apply Hinv |].
    intros r Hr. rewrite tokens_of_settled_by in Hr.
    pose proof (tokens_flagged_reachable s Hs r d Hr). congruence.
Qed.

Lemma unknown_token_strands_current_draw_witness :
  stranded (Scenario.state_of Stranding.left_behind) 1
  ∧ totalPrizePool (draw_at (Scenario.state_of Stranding.left_behind) 1)
    = 3 * TICKET_PRICE.
Proof.
  assert (H : rawFulfillRandomWords Stranding.stray_delivery.1 1 99
                [0; 1; 2; 3; 4; 0; 1] (Scenario.state_of Scenario.sold)
              = Ok (Scenario.state_of Stranding.left_behind))
    by (vm_compute; reflexivity).
  destruct (unknown_token_strands_current_draw _ _ _ _ _ _ sold_reachable
              eq_refl eq_refl H) as (_ & _ & _ & Hsame & Hstr).
  split; [by apply Hstr|]. etrans; [exact (f_equal totalPrizePool Hsame)|].
  vm_compute. reflexivity.
Defined.

(** ** The balance covers the open pools *)












(** ** The outcome of a purchase *)

(** X18. [buyTicket] makes its checks in a fixed order, and the first one
    that fails decides the error: outside the window [DrawNotActive], then
    while paused [PausablePaused], then for a payment other than the ticket
    price [InsufficientPayment], then for main numbers out of [1, 50] or
    repeated [InvalidMainNumbers], then for lucky stars out of [1, 12] or
    repeated [InvalidLuckyStars], then an arithmetic overflow of a counter.
    Otherwise the purchase is accepted, and the status query then shows
    the pool raised by the price and one ticket more. *)
Theorem purchase_outcome (env : Env) (main stars : list N) (s : State)
    (Hmain : length main = 5%nat) (Hstars : length stars = 2%nat) :
  let cur := draw_at s (currentDrawId s) in
  buyTicket env main stars s =
    (if decide (drawStartTime cur ≤ block_timestamp env ≤ drawEndTime cur) then
       if paused s then Err PausablePaused
       else if decide (msg_value env = TICKET_PRICE) then
         if decide (in_range 50 main ∧ NoDup main) then
           if decide (in_range 12 stars ∧ NoDup stars) then
             if decide (mapping_get 0 (ticketCounts cur) (msg_sender env) + 1
                          ≤ UINT256_MAX
                        ∧ totalTickets cur + 1 ≤ UINT256_MAX
                        ∧ totalPrizePool cur + msg_value env ≤ UINT256_MAX)
             then Ok (purchased env main stars s)
             else Err PanicOverflow
           else Err InvalidLuckyStars
         else Err InvalidMainNumbers
       else Err InsufficientPayment
     else Err DrawNotActive)
  ∧ (∀ s', buyTicket env main stars s = Ok s' →
       getCurrentDrawStatus env s'
       = Ok (mkDrawStatus (currentDrawId s) (totalPrizePool cur + TICKET_PRICE)
               (totalTickets cur + 1) (drawEndTime cur - block_timestamp env) true)).
Proof.
  intros cur. split.
  - destruct (decide (drawStartTime cur ≤ block_timestamp env ≤ drawEndTime cur))
      as [Hw|Hw]; [|by apply buyTicket_outside_window].
    unfold buyTicket.
    pose proof (onlyActiveDraw_spec env s) as Ha. cbv zeta in Ha. fold cur in Ha.
    rewrite decide_True in Ha by done. rewrite Ha. simpl_bind.
    unfold whenNotPaused. destruct (paused s) eqn:Hp; [done|]. cbn [negb]. simpl_bind.
    destruct (N.eqb_spec (msg_value env) TICKET_PRICE) as [Hv|Hv];
      [rewrite decide_True by done|by rewrite decide_False]. simpl_bind.
    pose proof (_validateMainNumbers_spec main Hmain) as Hm.
    destruct (decide (in_range 50 main ∧ NoDup main)); rewrite Hm; [|done]. simpl_bind.
    pose proof (_validateLuckyStars_spec stars Hstars) as Hl.
    destruct (decide (in_range 12 stars ∧ NoDup stars)); rewrite Hl; [|done]. simpl_bind.
    cbv zeta. fold cur. case_decide as Ho.
    + destruct Ho as (H1 & H2 & H3).
      by rewrite !checked_add_Ok.
    + unfold checked_add.
      destruct (N.leb_spec (mapping_get 0 (ticketCounts cur) (msg_sender env) + 1)
                  UINT256_MAX); [|done]. simpl_bind.
      destruct (N.leb_spec (totalTickets cur + 1) UINT256_MAX); [|done]. simpl_bind.
      destruct (N.leb_spec (totalPrizePool cur + msg_value env) UINT256_MAX); [|done].
      by destruct Ho.
  - intros s' H. apply buyTicket_Ok_inv in H as ((Hw & _ & Hv & _) & _ & _ & ->).
    fold cur in Hw. unfold getCurrentDrawStatus.
    change (currentDrawId (purchased env main stars s)) with (currentDrawId s).
    rewrite draw_at_purchased, decide_True by done. cbv zeta. fold cur.
    cbn [drawStartTime drawEndTime totalPrizePool totalTickets].
    destruct (N.leb_spec (drawStartTime cur) (block_timestamp env)); [|lia].
    destruct (N.leb_spec (block_timestamp env) (drawEndTime cur)) as [Hle|]; [|lia].
    cbn [andb]. unfold checked_sub.
    destruct (N.leb_spec (block_timestamp env) (drawEndTime cur)); [|lia].
    simpl_bind. by rewrite Hv.
Qed.

Lemma purchase_outcome_witness :
  buyTicket (Scenario.call_by Scenario.bob TICKET_PRICE 3000) [9; 8; 7; 6; 5] [4; 4]
    (Scenario.state_of Scenario.deployed) = Err InvalidLuckyStars.
Proof.
  destruct (purchase_outcome (Scenario.call_by Scenario.bob TICKET_PRICE 3000)
              [9; 8; 7; 6; 5] [4; 4] (Scenario.state_of Scenario.deployed)
              eq_refl eq_refl) as [H _].
  rewrite H. vm_compute. reflexivity.
Defined.

(** ** Winners *)

(** X19. In a reachable state the winners that a completed draw lists are
    exactly the participants who hold, under that draw, a ticket that
    matches its published picks. *)
Theorem winners_hold_matching_tickets (s : State) (d : N) (w : address)
    (Hs : reachable s) (Hc : isCompleted (draw_at s d) = true) :
  w ∈ winners (draw_at s d)
  ↔ ∃ t, t ∈ tickets_of s d w
         ∧ _isWinningTicket t (winningMainNumbers (draw_at s d))
             (winningLuckyStars (draw_at s d)) = true.
Proof.
  pose proof (results_published_reachable s Hs d) as Hr. cbv zeta in Hr.
  rewrite Hc in Hr. destruct Hr as (_ & _ & ->).
  destruct (reachable_invariant s Hs) as (_ & _ & _ & Hcons & _).
  destruct (Hcons d) as (_ & _ & _ & Hp & _).
  unfold winning_entries. cbv zeta. rewrite list_elem_of_In, in_flat_map.
  split.
  - intros (p & _ & Hin). apply list_elem_of_In, list_elem_of_fmap in Hin
      as (t & -> & Ht). apply list_elem_of_filter in Ht as [Hwin Ht]. by exists t.
  - intros (t & Ht & Hwin). exists w. split.
    + apply list_elem_of_In, Hp. intros Hnil. rewrite Hnil in Ht.
      by apply elem_of_nil in Ht.
    + apply list_elem_of_In, list_elem_of_fmap. exists t. split; [done|].
      by apply list_elem_of_filter.
Qed.

Lemma winners_hold_matching_tickets_witness :
  ∃ t, t ∈ tickets_of (Scenario.state_of Scenario.settled) 1 Scenario.bob
       ∧ mainNumbers t = [1; 2; 3; 4; 5].
Proof.
  assert (Hc : isCompleted (draw_at (Scenario.state_of Scenario.settled) 1) = true)
    by (vm_compute; reflexivity).
  assert (Hw : Scenario.bob ∈ winners (draw_at (Scenario.state_of Scenario.settled) 1)).
  { assert (winners (draw_at (Scenario.state_of Scenario.settled) 1)
            = [Scenario.alice; Scenario.bob]) as -> by (vm_compute; reflexivity).
    apply list_elem_of_further, list_elem_of_here. }
  destruct (winners_hold_matching_tickets (Scenario.state_of Scenario.settled) 1
              Scenario.bob settled_reachable Hc) as [H _].
  destruct (H Hw) as (t & Ht & _). exists t. split; [exact Ht|].
  assert (Hall : tickets_of (Scenario.state_of Scenario.settled) 1 Scenario.bob
                 = [mkTicket [1; 2; 3; 4; 5] [1; 2] Scenario.bob Scenario.closing])
    by (vm_compute; reflexivity).
  rewrite Hall in Ht. apply list_elem_of_singleton in Ht. by subst t.
Defined.

(** ** A whole round *)



(** ** The simulated purchases *)

Lemma template_in_templates ticketsPerPlayer playerIndex ticketIndex :
  DrawSimulator.template ticketsPerPlayer playerIndex ticketIndex
  ∈ DrawSimulator.ticketTemplates.
Proof.
  unfold DrawSimulator.template.
  pose proof (Nat.mod_upper_bound (playerIndex * ticketsPerPlayer + ticketIndex)
                (length DrawSimulator.ticketTemplates) ltac:(simpl; lia)) as Hlt.
  destruct (lookup_lt_is_Some_2 DrawSimulator.ticketTemplates _ Hlt) as [t Ht].
  rewrite Ht. simpl. by eapply list_elem_of_lookup_2.
Qed.

Lemma clamped_in_range {A : Type} (bound : N) (f : nat → A → N) (l : list A) :
  1 ≤ bound →
  in_range bound (imap (λ idx x, N.min bound (N.max 1 (f idx x))) l).
Proof.
  intros Hb. apply Forall_forall. intros y Hy.
  apply elem_of_lookup_imap in Hy as (i & x & -> & _). lia.
Qed.

(** X21. The picks that the simulation script submits always have the
    right sizes and, by the clamping, lie in [1, 50] and [1, 12]; the
    contract's validators therefore accept them exactly when no value
    repeats.  The clamping can make values repeat: with the default
    configuration of two tickets per player the first ticket of the third
    player has main numbers [25, 37, 49, 50, 50], which [buyTicket]
    rejects with [InvalidMainNumbers]. *)
Theorem simulated_picks (ticketsPerPlayer playerIndex ticketIndex : nat) :
  let main := DrawSimulator.mainNumbers ticketsPerPlayer playerIndex ticketIndex in
  let stars := DrawSimulator.luckyStars ticketsPerPlayer playerIndex ticketIndex in
  length main = 5%nat ∧ in_range 50 main
  ∧ length stars = 2%nat ∧ in_range 12 stars
  ∧ (_validateMainNumbers main = Ok tt ↔ NoDup main)
  ∧ (_validateLuckyStars stars = Ok tt ↔ NoDup stars)
  ∧ DrawSimulator.mainNumbers 2 2 0 = [25; 37; 49; 50; 50]
  ∧ _validateMainNumbers (DrawSimulator.mainNumbers 2 2 0) = Err InvalidMainNumbers.
Proof.
  intros main stars.
  pose proof (template_in_templates ticketsPerPlayer playerIndex ticketIndex) as Hin.
  assert (Hlen : length main = 5%nat ∧ length stars = 2%nat).
  { unfold main, stars, DrawSimulator.mainNumbers, DrawSimulator.luckyStars.
    rewrite !length_imap.
    revert Hin. generalize (DrawSimulator.template ticketsPerPlayer playerIndex ticketIndex).
    apply Forall_forall. unfold DrawSimulator.ticketTemplates.
    repeat constructor. }
  destruct Hlen as [Hm Hl].
  assert (Hrm : in_range 50 main) by (by apply clamped_in_range).
  assert (Hrl : in_range 12 stars) by (by apply clamped_in_range).
  pose proof (_validateMainNumbers_spec main Hm) as Hvm.
  pose proof (_validateLuckyStars_spec stars Hl) as Hvl.
  split_and!; try done.
  - destruct (decide (in_range 50 main ∧ NoDup main)) as [[_ Hn]|Hn]; rewrite Hvm.
    + done.
    + split; [done|]. intros Hnd. by destruct Hn.
  - destruct (decide (in_range 12 stars ∧ NoDup stars)) as [[_ Hn]|Hn]; rewrite Hvl.
    + done.
    + split; [done|]. intros Hnd. by destruct Hn.
Qed.
